(** * DeepFilterNet [df/multiframe.py]: multi-frame spectral filtering

    A shallow embedding of [DeepFilterNet/df/multiframe.py] and the
    properties of its windowing, correlation, regularisation and filter
    code.

    Conventions of the embedding.
    - Python [int] is [Z]; Python lists of ints are [list Z] with Python's
      indexing rules (negative indices, clamped [insert]).
    - [as_windowed] manipulates sizes and strides, so it is modelled on
      strided views of a flat storage ([Module Strided]).
    - Everything else is modelled on tensor values: a shape and an element
      function on multi-indices ([Module Torch]); every torch primitive the
      source calls is a function returning [option], [None] being the
      exception torch raises.  The one exception is [torch.inverse], which
      only [solve] calls: it is a parameter of [solve].
    - Scalars are an abstract carrier with ring (and, for MVDR, field)
      operations: the arithmetic of the filters is the exact arithmetic of
      the formulas, rounding is not modelled.
    - In-place writes go through a store of tensor objects, so that
      aliasing between the argument and the result of [forward] is
      visible.  The tensors a caller passes are taken to be contiguous
      ([view] and [view_as_complex] are then defined), and every read of
      the spectrogram in a [forward] precedes its single write, so the
      intermediate views are modelled by their values. *)

From Stdlib Require Import ZArith QArith Qcanon Lia List Bool Ring Field.
From stdpp Require Import base option list gmap.

Local Open Scope Z_scope.

(** ** Python list primitives *)

Module PyList.

(** [l[i]]: position of index [i] in a list of length [n]; negative
    indices count from the end, anything else is an [IndexError]. *)
Definition index (n : nat) (i : Z) : option nat :=
  if (0 <=? i) && (i <? Z.of_nat n) then Some (Z.to_nat i)
  else if (- Z.of_nat n <=? i) && (i <? 0) then Some (Z.to_nat (Z.of_nat n + i))
  else None.

Definition getitem {A} (l : list A) (i : Z) : option A :=
  k ← index (length l) i; l !! k.

Definition setitem {A} (l : list A) (i : Z) (v : A) : option (list A) :=
  k ← index (length l) i; Some (<[k:=v]> l).

(** [l.insert(i, v)]: never fails, the position is clamped. *)
Definition insert_pos (n : nat) (i : Z) : nat :=
  if i <? 0 then Z.to_nat (Z.max 0 (Z.of_nat n + i))
  else Z.to_nat (Z.min i (Z.of_nat n)).

Definition insert {A} (l : list A) (i : Z) (v : A) : list A :=
  let k := insert_pos (length l) i in take k l ++ v :: drop k l.

Definition append {A} (l : list A) (v : A) : list A := l ++ [v].

(** [a / b] on ints is true division: a [ZeroDivisionError] for [b = 0],
    otherwise the quotient as a float, taken here as the exact rational
    (sums with it are exact below 2^53, far above any tensor size). *)
Definition truediv (a b : Z) : option Q :=
  if bool_decide (b = 0) then None else Some (inject_Z a / inject_Z b)%Q.

(** [int(q)]: truncation towards zero. *)
Definition int (q : Q) : Z := Z.quot (Qnum q) (Z.pos (Qden q)).

End PyList.

(** ** Strided views, [Tensor.as_strided] and [as_windowed] *)

Module Strided.

Record tensor (A : Type) := mk {
  storage : list A;
  offset : Z;
  shape : list Z;
  stride : list Z
}.
Arguments mk {A}.
Arguments storage {A}.
Arguments offset {A}.
Arguments shape {A}.
Arguments stride {A}.

(** Sum of [idx_k * stride_k]. *)
Fixpoint dot (idx strd : list Z) : Z :=
  match idx, strd with
  | i :: idx', s :: strd' => i * s + dot idx' strd'
  | _, _ => 0
  end.

Fixpoint in_range (idx shp : list Z) : bool :=
  match idx, shp with
  | [], [] => true
  | i :: idx', n :: shp' => bool_decide (0 <= i < n) && in_range idx' shp'
  | _, _ => false
  end.

(** Element of a view at a multi-index. *)
Definition get {A} (t : tensor A) (idx : list Z) : option A :=
  if in_range idx (shape t)
  then storage t !! Z.to_nat (offset t + dot idx (stride t))
  else None.

(** Number of storage elements a view of these sizes and strides needs
    (torch's [computeStorageNbytes], in elements): zero for an empty view,
    else one more than the largest reachable position. *)
Definition storage_needed (off : Z) (shp strd : list Z) : Z :=
  if bool_decide (Exists (λ n, n = 0) shp) then 0
  else off + 1 + dot (map (λ n, n - 1) shp) strd.

(** [x.as_strided(size, stride)]: the storage and the storage offset of
    [x] are kept; torch raises for a negative size or stride, for lists
    of different lengths and when the view would leave the storage. *)
Definition as_strided {A} (x : tensor A) (shp strd : list Z) : option (tensor A) :=
  if bool_decide (length shp = length strd
                  ∧ Forall (λ n, 0 <= n) shp
                  ∧ Forall (λ s, 0 <= s) strd
                  ∧ storage_needed (offset x) shp strd <= Z.of_nat (length (storage x)))
  then Some (mk (storage x) (offset x) shp strd)
  else None.

(** Sizes and strides [as_windowed] hands to [as_strided]. *)
Definition as_windowed_layout (shape0 stride0 : list Z)
    (window_length step dim : Z) : option (list Z * list Z) :=
  let shape := shape0 in
  let stride := stride0 in
  (* shape[dim] = int(shape[dim] - window_length + step / step) *)
  len ← PyList.getitem shape dim;
  q ← PyList.truediv step step;
  shape ← PyList.setitem shape dim
            (PyList.int (inject_Z (len - window_length) + q)%Q);
  '(shape, stride) ←
    (if bool_decide (dim > 0) then
       sd ← PyList.getitem stride dim;
       Some (PyList.insert shape (dim + 1) window_length,
             PyList.insert stride (dim + 1) sd)
     else if bool_decide (dim = -1) then
       sd ← PyList.getitem stride dim;
       Some (PyList.append shape window_length, PyList.append stride sd)
     else
       sd ← PyList.getitem stride dim;
       Some (PyList.insert shape dim window_length,
             PyList.insert stride dim sd));
  (* stride[dim] = stride[dim] * step *)
  sd ← PyList.getitem stride dim;
  stride ← PyList.setitem stride dim (sd * step);
  Some (shape, stride).

Definition as_windowed {A} (x : tensor A)
    (window_length step dim : Z) : option (tensor A) :=
  '(shape, stride) ← as_windowed_layout (shape x) (stride x) window_length step dim;
  as_strided x shape stride.

(** A contiguous [B x T] tensor over a storage. *)
Definition contiguous2 {A} (l : list A) (B T : Z) : tensor A :=
  mk l 0 [B; T] [T; 1].

End Strided.

(** ** Scalars and complex numbers *)

(** The real scalars of a tensor ([float32] in the source), with the ring
    operations the filters use. *)
Class Scalar (K : Type) := {
  zero : K;
  one : K;
  add : K → K → K;
  mul : K → K → K;
  sub : K → K → K;
  opp : K → K
}.

(** Division, used by the MVDR weights only. *)
Class Division (K : Type) := {
  div : K → K → K;
  inv : K → K
}.

Declare Scope scalar_scope.
Delimit Scope scalar_scope with K.
Notation "x + y" := (add x y) : scalar_scope.
Notation "x * y" := (mul x y) : scalar_scope.
Notation "x - y" := (sub x y) : scalar_scope.
Notation "- x" := (opp x) : scalar_scope.
Notation "x / y" := (div x y) : scalar_scope.

#[export] Instance Z_Scalar : Scalar Z :=
  {| zero := 0; one := 1; add := Z.add; mul := Z.mul; sub := Z.sub; opp := Z.opp |}.

#[export] Instance Qc_Scalar : Scalar Qc :=
  {| zero := Q2Qc 0; one := 1%Qc; add := Qcplus; mul := Qcmult;
     sub := Qcminus; opp := Qcopp |}.

#[export] Instance Qc_Division : Division Qc :=
  {| div := Qcdiv; inv := Qcinv |}.

(** Sum of [f 0 .. f (n-1)], accumulated from the left. *)
Fixpoint sum_n {A} (plus : A → A → A) (z : A) (n : nat) (f : nat → A) : A :=
  match n with
  | O => z
  | S n' => plus (sum_n plus z n' f) (f n')
  end.

Module Complex.

Record t (K : Type) := mk { re : K; im : K }.
Arguments mk {K}.
Arguments re {K}.
Arguments im {K}.

Section Ops.
Context {K : Type} `{Scalar K}.

Definition czero : t K := mk zero zero.
Definition of_real (x : K) : t K := mk x zero.
Definition cadd (a b : t K) : t K := mk (re a + re b)%K (im a + im b)%K.
Definition cmul (a b : t K) : t K :=
  mk (re a * re b - im a * im b)%K (re a * im b + im a * re b)%K.
Definition conj (a : t K) : t K := mk (re a) (- im a)%K.
Definition csum (n : nat) (f : nat → t K) : t K := sum_n cadd czero n f.

(** Quotient of two complex numbers. *)
Definition cdiv `{Division K} (a b : t K) : t K :=
  let d := (re b * re b + im b * im b)%K in
  mk ((re a * re b + im a * im b) / d)%K ((im a * re b - re a * im b) / d)%K.
End Ops.

End Complex.

Abbreviation complex := Complex.t.

(** ** Tensor values and the torch primitives of the source *)

Module Torch.

Record tensor (A : Type) := mk {
  shape : list nat;
  elem : list nat → A
}.
Arguments mk {A}.
Arguments shape {A}.
Arguments elem {A}.

Definition rank {A} (x : tensor A) : nat := length (shape x).

(** A multi-index inside a shape. *)
Definition valid (shp idx : list nat) : Prop := Forall2 lt idx shp.

Definition numel (shp : list nat) : nat := foldr Nat.mul 1%nat shp.

(** A dimension argument, negative ones counting from the end. *)
Definition dim_index (r : nat) (d : Z) : option nat := PyList.index r d.

(** *** Broadcasting *)

(** Index into an operand dimension of size [n] for output index [i]. *)
Definition bix (n i : nat) : nat := if bool_decide (n = 1%nat) then 0%nat else i.

(** Index into an operand of shape [shp] for an output index [idx]:
    shapes are aligned on the right. *)
Definition bidx (shp idx : list nat) : list nat :=
  zip_with bix shp (drop (length idx - length shp) idx).

Definition bdim (m n : nat) : option nat :=
  if bool_decide (m = n) then Some m
  else if bool_decide (m = 1%nat) then Some n
  else if bool_decide (n = 1%nat) then Some m
  else None.

Fixpoint broadcast_rev (s1 s2 : list nat) : option (list nat) :=
  match s1, s2 with
  | [], _ => Some s2
  | _, [] => Some s1
  | m :: s1', n :: s2' =>
      d ← bdim m n; r ← broadcast_rev s1' s2'; Some (d :: r)
  end.

Definition broadcast_shapes (s1 s2 : list nat) : option (list nat) :=
  reverse <$> broadcast_rev (reverse s1) (reverse s2).

(** A value of shape [vshape] can be written into a region of shape
    [target]: leading unit dimensions of the value are ignored, the others
    are equal to the target's or one. *)
Fixpoint strip_ones (k : nat) (s : list nat) : list nat :=
  match k, s with
  | S k', 1%nat :: s' => strip_ones k' s'
  | _, _ => s
  end.

Definition expandable (vshape target : list nat) : bool :=
  let v := strip_ones (length vshape - length target) vshape in
  bool_decide (length v ≤ length target
               ∧ Forall2 (λ m n, m = n ∨ m = 1%nat) v
                   (drop (length target - length v) target))%nat.

Definition vidx (vshape target idx : list nat) : list nat :=
  let k := (length vshape - length target)%nat in
  replicate (length vshape - length (strip_ones k vshape)) 0%nat
    ++ bidx (strip_ones k vshape) idx.

(** Pointwise binary operation with broadcasting. *)
Definition map2 {A B C} (f : A → B → C) (a : tensor A) (b : tensor B)
    : option (tensor C) :=
  s ← broadcast_shapes (shape a) (shape b);
  Some (mk s (λ idx, f (elem a (bidx (shape a) idx)) (elem b (bidx (shape b) idx)))).

Definition map1 {A B} (f : A → B) (a : tensor A) : tensor B :=
  mk (shape a) (λ idx, f (elem a idx)).

(** *** Padding, windows and slices *)

Fixpoint pad_shape_rev (pads : list (Z * Z)) (srev : list nat) : option (list nat) :=
  match pads, srev with
  | [], _ => Some srev
  | (a, b) :: pads', n :: srev' =>
      if bool_decide (0 <= Z.of_nat n + a + b)
      then r ← pad_shape_rev pads' srev'; Some (Z.to_nat (Z.of_nat n + a + b) :: r)
      else None
  | _ :: _, [] => None
  end.

(** Source index of an output index, [None] inside the padding. *)
Fixpoint pad_src_rev (pads : list (Z * Z)) (srev irev : list nat) : option (list nat) :=
  match pads, srev, irev with
  | (a, b) :: pads', n :: srev', i :: irev' =>
      if bool_decide (0 <= Z.of_nat i - a < Z.of_nat n)
      then r ← pad_src_rev pads' srev' irev'; Some (Z.to_nat (Z.of_nat i - a) :: r)
      else None
  | _, _, _ => Some irev
  end.

(** [F.pad(x, pads, "constant", value)]: [pads] lists (before, after) from
    the last dimension backwards; a negative amount crops.  Torch raises
    when a crop takes more than the dimension holds; that case is not
    distinguished here, and every property below has amounts that are not
    negative ([0 <= lookahead < frame_size]). *)
Definition pad {A} (pads : list (Z * Z)) (value : A) (x : tensor A)
    : option (tensor A) :=
  s ← pad_shape_rev pads (reverse (shape x));
  Some (mk (reverse s)
          (λ idx, match pad_src_rev pads (reverse (shape x)) (reverse idx) with
                  | Some r => elem x (reverse r)
                  | None => value
                  end)).

(** [x.unfold(dim, size, step)]: windows of [size] every [step] along
    [dim], the window axis appended last. *)
Definition unfold {A} (dim size step : Z) (x : tensor A) : option (tensor A) :=
  d ← dim_index (rank x) dim;
  n ← shape x !! d;
  if bool_decide (0 <= size <= Z.of_nat n ∧ 0 < step) then
    Some (mk (<[d := Z.to_nat ((Z.of_nat n - size) `div` step + 1)]> (shape x)
                ++ [Z.to_nat size])
            (λ idx, elem x (<[d := (idx !!! d * Z.to_nat step + idx !!! rank x)%nat]>
                               (take (rank x) idx))))
  else None.

(** [x.narrow(dim, start, length)]. *)
Definition narrow {A} (dim start len : Z) (x : tensor A) : option (tensor A) :=
  d ← dim_index (rank x) dim;
  n ← shape x !! d;
  let start' := if start <? 0 then start + Z.of_nat n else start in
  if bool_decide (0 <= start' ∧ 0 <= len ∧ start' + len <= Z.of_nat n) then
    Some (mk (<[d := Z.to_nat len]> (shape x))
            (λ idx, elem x (<[d := (Z.to_nat start' + idx !!! d)%nat]> idx)))
  else None.

(** [x.unsqueeze(dim)]. *)
Definition unsqueeze {A} (dim : Z) (x : tensor A) : option (tensor A) :=
  d ← dim_index (S (rank x)) dim;
  Some (mk (take d (shape x) ++ 1%nat :: drop d (shape x))
          (λ idx, elem x (delete d idx))).

(** [x.squeeze(dim)] of a tensor that has dimensions: drops the dimension
    when its size is one. *)
Definition squeeze {A} (dim : Z) (x : tensor A) : option (tensor A) :=
  d ← dim_index (rank x) dim;
  n ← shape x !! d;
  Some (if bool_decide (n = 1%nat)
        then mk (delete d (shape x))
                (λ idx, elem x (take d idx ++ 0%nat :: drop d idx))
        else x).

(** [x[..., k]]. *)
Definition select_last {A} (k : nat) (x : tensor A) : option (tensor A) :=
  n ← last (shape x);
  if bool_decide (k < n)%nat then
    Some (mk (removelast (shape x)) (λ idx, elem x (take (rank x - 1) idx ++ [k])))
  else None.

Fixpoint find_pos (j : nat) (l : list nat) : nat :=
  match l with
  | [] => 0%nat
  | k :: l' => if (k =? j)%nat then 0%nat else S (find_pos j l')
  end.

(** [x.permute(dims)]. *)
Definition permute {A} (dims : list Z) (x : tensor A) : option (tensor A) :=
  ds ← mapM (dim_index (rank x)) dims;
  if bool_decide (length ds = rank x ∧ NoDup ds) then
    Some (mk (map (λ d, shape x !!! d) ds)
            (λ idx, elem x (map (λ j, idx !!! find_pos j ds) (seq 0 (rank x)))))
  else None.

(** [x.sum(dim)]. *)
Definition sum {A} (plus : A → A → A) (z : A) (dim : Z) (x : tensor A)
    : option (tensor A) :=
  d ← dim_index (rank x) dim;
  n ← shape x !! d;
  Some (mk (delete d (shape x))
          (λ idx, sum_n plus z n (λ k, elem x (take d idx ++ k :: drop d idx)))).

(** *** Views of the same elements under another shape *)

(** Position of a multi-index in row-major order, and back. *)
Fixpoint ravel (shp idx : list nat) : nat :=
  match shp, idx with
  | _ :: shp', i :: idx' => (i * numel shp' + ravel shp' idx')%nat
  | _, _ => 0%nat
  end.

Fixpoint unravel (shp : list nat) (k : nat) : list nat :=
  match shp with
  | [] => []
  | _ :: shp' => (k / numel shp')%nat :: unravel shp' (k mod numel shp')%nat
  end.

(** Sizes requested of [view]: at most one [-1], which is inferred. *)
Definition view_shape (n : nat) (sizes : list Z) : option (list nat) :=
  if bool_decide (Forall (λ s, -1 <= s) sizes)
  then
    let known := foldr (λ s p, if s =? -1 then p else (Z.to_nat s * p)%nat) 1%nat sizes in
    match length (filter (λ s, s = -1) sizes) with
    | O => if bool_decide (known = n) then Some (map Z.to_nat sizes) else None
    | S O =>
        if bool_decide (known ≠ 0%nat ∧ n mod known = 0)%nat
        then Some (map (λ s, if s =? -1 then (n / known)%nat else Z.to_nat s) sizes)
        else None
    | _ => None
    end
  else None.

(** [x.view(sizes)] of a contiguous tensor. *)
Definition view {A} (sizes : list Z) (x : tensor A) : option (tensor A) :=
  s ← view_shape (numel (shape x)) sizes;
  Some (mk s (λ idx, elem x (unravel (shape x) (ravel s idx)))).

(** [x.unflatten(dim, sizes)]. *)
Definition unflatten {A} (dim : Z) (sizes : list Z) (x : tensor A)
    : option (tensor A) :=
  d ← dim_index (rank x) dim;
  n ← shape x !! d;
  s ← view_shape n sizes;
  let s' := take d (shape x) ++ s ++ drop (S d) (shape x) in
  Some (mk s' (λ idx, elem x (unravel (shape x) (ravel s' idx)))).

Definition clone {A} (x : tensor A) : tensor A := mk (shape x) (elem x).

(** [torch.empty(shape)]: the contents are whatever [junk] the memory
    holds. *)
Definition empty {A} (junk : list nat → A) (shp : list nat) : tensor A := mk shp junk.

(** *** Indexed assignment *)

(** [x[..., k] = v], and [x[..., k] op= v] through [f]. *)
Definition update_last {A} (f : A → A → A) (k : nat) (v : tensor A) (x : tensor A)
    : option (tensor A) :=
  n ← last (shape x);
  if bool_decide (k < n)%nat && expandable (shape v) (removelast (shape x)) then
    Some (mk (shape x)
            (λ idx, if bool_decide (idx !!! (rank x - 1)%nat = k)
                    then f (elem x idx)
                           (elem v (vidx (shape v) (removelast (shape x))
                                      (take (rank x - 1) idx)))
                    else elem x idx))
  else None.

Definition setitem_last {A} := @update_last A (λ _ new, new).

(** Stop of the Python slice [:n] on a dimension of size [len]. *)
Definition slice_stop (n : Z) (len : nat) : nat :=
  if n <? 0 then Z.to_nat (Z.max 0 (Z.of_nat len + n))
  else Z.to_nat (Z.min n (Z.of_nat len)).

(** [x[..., :n, :] = v]. *)
Definition setitem_prefix2 {A} (n : Z) (v : tensor A) (x : tensor A)
    : option (tensor A) :=
  if bool_decide (2 ≤ rank x)%nat then
    let d := (rank x - 2)%nat in
    let stop := slice_stop n (shape x !!! d) in
    let region := <[d := stop]> (shape x) in
    if expandable (shape v) region then
      Some (mk (shape x)
              (λ idx, if bool_decide (idx !!! d < stop)%nat
                      then elem v (vidx (shape v) region idx)
                      else elem x idx))
    else None
  else None.

(** [torch.diagonal(x, 0, dim1, dim2)]: the diagonal becomes the last
    dimension. *)
Definition diagonal {A} (dim1 dim2 : Z) (x : tensor A) : option (tensor A) :=
  d1 ← dim_index (rank x) dim1;
  d2 ← dim_index (rank x) dim2;
  n1 ← shape x !! d1;
  n2 ← shape x !! d2;
  if bool_decide (d1 ≠ d2) then
    let lo := Nat.min d1 d2 in
    let hi := Nat.max d1 d2 in
    Some (mk (delete lo (delete hi (shape x)) ++ [Nat.min n1 n2])
            (λ idx, let k := idx !!! (rank x - 2)%nat in
                    let r := take (rank x - 2) idx in
                    elem x (take lo r ++ k :: take (hi - lo - 1)%nat (drop lo r)
                              ++ k :: drop (hi - 1)%nat r)))
  else None.

(** *** Complex tensors *)

Section ComplexTensors.
Context {K : Type} `{Scalar K}.

Definition view_as_complex (x : tensor K) : option (tensor (complex K)) :=
  n ← last (shape x);
  if bool_decide (n = 2%nat) then
    Some (mk (removelast (shape x))
            (λ idx, let i := take (rank x - 1) idx in
                    Complex.mk (elem x (i ++ [0%nat])) (elem x (i ++ [1%nat]))))
  else None.

Definition view_as_real (x : tensor (complex K)) : tensor K :=
  mk (shape x ++ [2%nat])
     (λ idx, let c := elem x (take (rank x) idx) in
             if bool_decide (idx !!! rank x = 0%nat) then Complex.re c
             else Complex.im c).

Definition conj (x : tensor (complex K)) : tensor (complex K) :=
  map1 Complex.conj x.

Definition real (x : tensor (complex K)) : tensor K := map1 Complex.re x.

(** [torch.eye(n)] of a complex dtype. *)
Definition eye (n : nat) : tensor (complex K) :=
  mk [n; n] (λ idx, if bool_decide (idx !!! 0%nat = idx !!! 1%nat)
                    then Complex.of_real one else Complex.czero).

(** The four contractions of the source, as [torch.einsum] computes
    them: the dimensions under [...] are aligned on the right and
    broadcast, the named ones broadcast too. *)

(** ["...tfn,...ntf->...tf"] *)
Definition einsum_tfn_ntf (a b : tensor (complex K)) : option (tensor (complex K)) :=
  let ba := take (rank a - 3) (shape a) in
  let bb := take (rank b - 3) (shape b) in
  match drop (rank a - 3) (shape a), drop (rank b - 3) (shape b) with
  | [ta; fa; na], [nb; tb; fb] =>
      t ← bdim ta tb; f ← bdim fa fb; n ← bdim na nb;
      bs ← broadcast_shapes ba bb;
      Some (mk (bs ++ [t; f])
              (λ idx, let r := length bs in
                      let bi := take r idx in
                      let it := idx !!! r in
                      let jf := idx !!! S r in
                      Complex.csum n (λ k,
                        Complex.cmul
                          (elem a (bidx ba bi ++ [bix ta it; bix fa jf; bix na k]))
                          (elem b (bidx bb bi ++ [bix nb k; bix tb it; bix fb jf])))))
  | _, _ => None
  end.

(** ["...nm,...m->...n"] *)
Definition einsum_nm_m (a b : tensor (complex K)) : option (tensor (complex K)) :=
  let ba := take (rank a - 2) (shape a) in
  let bb := take (rank b - 1) (shape b) in
  match drop (rank a - 2) (shape a), drop (rank b - 1) (shape b) with
  | [na; ma], [mb] =>
      m ← bdim ma mb;
      bs ← broadcast_shapes ba bb;
      Some (mk (bs ++ [na])
              (λ idx, let r := length bs in
                      let bi := take r idx in
                      let i := idx !!! r in
                      Complex.csum m (λ k,
                        Complex.cmul (elem a (bidx ba bi ++ [i; bix ma k]))
                                     (elem b (bidx bb bi ++ [bix mb k])))))
  | _, _ => None
  end.

(** ["...n,...n->..."] *)
Definition einsum_n_n (a b : tensor (complex K)) : option (tensor (complex K)) :=
  let ba := take (rank a - 1) (shape a) in
  let bb := take (rank b - 1) (shape b) in
  match drop (rank a - 1) (shape a), drop (rank b - 1) (shape b) with
  | [na], [nb] =>
      n ← bdim na nb;
      bs ← broadcast_shapes ba bb;
      Some (mk bs
              (λ idx, Complex.csum n (λ k,
                        Complex.cmul (elem a (bidx ba idx ++ [bix na k]))
                                     (elem b (bidx bb idx ++ [bix nb k])))))
  | _, _ => None
  end.

(** ["...n,...m->...mn"] *)
Definition einsum_n_m_mn (a b : tensor (complex K)) : option (tensor (complex K)) :=
  let ba := take (rank a - 1) (shape a) in
  let bb := take (rank b - 1) (shape b) in
  match drop (rank a - 1) (shape a), drop (rank b - 1) (shape b) with
  | [n], [m] =>
      bs ← broadcast_shapes ba bb;
      Some (mk (bs ++ [m; n])
              (λ idx, let r := length bs in
                      let bi := take r idx in
                      let im := idx !!! r in
                      let jn := idx !!! S r in
                      Complex.cmul (elem a (bidx ba bi ++ [jn]))
                                   (elem b (bidx bb bi ++ [im]))))
  | _, _ => None
  end.
End ComplexTensors.

End Torch.

(** ** The filter modules of [multiframe.py] *)

Module MultiFrame.
Import Torch.

(** [nn.ConstantPad2d(padding, value)] and [nn.ConstantPad3d]: the
    padding tuple is (left, right, top, bottom[, front, back]). *)
Inductive pad_module :=
  | ConstantPad2d (padding : Z * Z * Z * Z)
  | ConstantPad3d (padding : Z * Z * Z * Z * Z * Z).

(** Calling the padding module: [F.pad(input, padding, "constant", value)]. *)
Definition apply_pad {A} (p : pad_module) (value : A) (x : tensor A)
    : option (tensor A) :=
  match p with
  | ConstantPad2d (l, r, t, b) => pad [(l, r); (t, b)] value x
  | ConstantPad3d (l, r, t, b, f, k) => pad [(l, r); (t, b); (f, k)] value x
  end.

Record MultiFrameModule := mkMultiFrameModule {
  num_freqs : Z;
  frame_size : Z;
  real : bool;
  pad_ : pad_module;
  need_unfold : bool;
  lookahead : Z;
  (** [nn.Module.training], set by [train()] and [eval()]. *)
  training : bool
}.

(** [MultiFrameModule.__init__]; a new [nn.Module] is in training mode. *)
Definition MultiFrameModule_init (num_freqs frame_size lookahead : Z) (real : bool)
    : option MultiFrameModule :=
  Some {| num_freqs := num_freqs;
          frame_size := frame_size;
          real := real;
          pad_ := if real
                  then ConstantPad3d (0, 0, 0, 0, frame_size - 1 - lookahead, lookahead)
                  else ConstantPad2d (0, 0, frame_size - 1 - lookahead, lookahead);
          need_unfold := bool_decide (frame_size > 1);
          lookahead := lookahead;
          training := true |}.

Definition set_training (mode : bool) (m : MultiFrameModule) : MultiFrameModule :=
  {| num_freqs := num_freqs m; frame_size := frame_size m; real := real m;
     pad_ := pad_ m; need_unfold := need_unfold m; lookahead := lookahead m;
     training := mode |}.

(** *** The five classes *)

Record DF := mkDF { DF_base : MultiFrameModule; DF_conj : bool }.
Record DFreal := mkDFreal { DFreal_base : MultiFrameModule; DFreal_conj : bool }.
Record CRM := mkCRM { CRM_base : MultiFrameModule }.
Record MfWf := mkMfWf { MfWf_base : MultiFrameModule }.
Record MfMvdr (K : Type) := mkMfMvdr { MfMvdr_base : MultiFrameModule; MfMvdr_eps : K }.
Arguments mkMfMvdr {K}.
Arguments MfMvdr_base {K}.
Arguments MfMvdr_eps {K}.

(** [module.train(mode)]; [module.eval()] is [train(False)]. *)
Definition DF_train (mode : bool) (m : DF) : DF :=
  mkDF (set_training mode (DF_base m)) (DF_conj m).
Definition DFreal_train (mode : bool) (m : DFreal) : DFreal :=
  mkDFreal (set_training mode (DFreal_base m)) (DFreal_conj m).
Definition MfWf_train (mode : bool) (m : MfWf) : MfWf :=
  mkMfWf (set_training mode (MfWf_base m)).
Definition MfMvdr_train {K} (mode : bool) (m : MfMvdr K) : MfMvdr K :=
  mkMfMvdr (set_training mode (MfMvdr_base m)) (MfMvdr_eps m).

Definition DF_init (num_freqs frame_size lookahead : Z) (conj : bool) : option DF :=
  base ← MultiFrameModule_init num_freqs frame_size lookahead false;
  Some (mkDF base conj).

Definition DFreal_init (num_freqs frame_size lookahead : Z) (conj : bool)
    : option DFreal :=
  base ← MultiFrameModule_init num_freqs frame_size lookahead true;
  Some (mkDFreal base conj).

(** [assert frame_size == 1 and lookahead == 0] comes first. *)
Definition CRM_init (num_freqs frame_size lookahead : Z) : option CRM :=
  if bool_decide (frame_size = 1 ∧ lookahead = 0) then
    base ← MultiFrameModule_init num_freqs 1 0 false;
    Some (mkCRM base)
  else None.

Definition MfWf_init (num_freqs frame_size lookahead : Z) : option MfWf :=
  base ← MultiFrameModule_init num_freqs frame_size lookahead false;
  Some (mkMfWf base).

Definition MfMvdr_init {K} (num_freqs frame_size lookahead : Z) (eps : K)
    : option (MfMvdr K) :=
  base ← MultiFrameModule_init num_freqs frame_size lookahead false;
  Some (mkMfMvdr base eps).

(** The closed set of filter kinds and their construction. *)
Inductive kind := KDF | KDFreal | KCRM | KMfWf | KMfMvdr.

Inductive filter (K : Type) :=
  | FDF (m : DF)
  | FDFreal (m : DFreal)
  | FCRM (m : CRM)
  | FMfWf (m : MfWf)
  | FMfMvdr (m : MfMvdr K).
Arguments FDF {K}.
Arguments FDFreal {K}.
Arguments FCRM {K}.
Arguments FMfWf {K}.
Arguments FMfMvdr {K}.

Definition construct {K} (k : kind) (num_freqs frame_size lookahead : Z)
    (conj : bool) (eps : K) : option (filter K) :=
  match k with
  | KDF => FDF <$> DF_init num_freqs frame_size lookahead conj
  | KDFreal => FDFreal <$> DFreal_init num_freqs frame_size lookahead conj
  | KCRM => FCRM <$> CRM_init num_freqs frame_size lookahead
  | KMfWf => FMfWf <$> MfWf_init num_freqs frame_size lookahead
  | KMfMvdr => FMfMvdr <$> MfMvdr_init num_freqs frame_size lookahead eps
  end.

Section WithScalar.
Context {K : Type} `{Scalar K}.

(** *** Windowing of the spectrogram *)

Definition spec_unfold_real (self : MultiFrameModule) (spec : tensor K)
    : option (tensor K) :=
  if need_unfold self then
    p ← apply_pad (pad_ self) zero spec;
    u ← unfold (-3) (frame_size self) 1 p;
    permute [0; 1; 5; 2; 3; 4] u
  else unsqueeze (-1) spec.

Definition spec_unfold (self : MultiFrameModule) (spec : tensor (complex K))
    : option (tensor (complex K)) :=
  if need_unfold self then
    p ← apply_pad (pad_ self) Complex.czero spec;
    unfold 2 (frame_size self) 1 p
  else unsqueeze (-1) spec.

Definition apply_coefs (spec coefs : tensor (complex K))
    : option (tensor (complex K)) :=
  einsum_n_n spec coefs.

Definition psd (x : tensor (complex K)) (n : Z) : option (tensor (complex K)) :=
  p ← pad [(0, 0); (n - 1, 0)] Complex.czero x;
  x ← unfold (-2) n 1 p;
  einsum_n_m_mn x (conj x).

Definition df (spec coefs : tensor (complex K)) : option (tensor (complex K)) :=
  einsum_tfn_ntf spec coefs.

Definition df_real (junk : list nat → K) (spec coefs : tensor K)
    : option (tensor K) :=
  match shape spec with
  | [b; c; _; t; f; _] =>
      let out := empty junk [b; c; t; f; 2%nat] in
      (* real *)
      s0 ← select_last 0 spec; c0 ← select_last 0 coefs;
      p ← map2 mul s0 c0; v ← sum add zero 2 p;
      out ← setitem_last 0 v out;
      s1 ← select_last 1 spec; c1 ← select_last 1 coefs;
      p ← map2 mul s1 c1; v ← sum add zero 2 p;
      out ← update_last sub 0 v out;
      (* imag *)
      s0 ← select_last 0 spec; c1 ← select_last 1 coefs;
      p ← map2 mul s0 c1; v ← sum add zero 2 p;
      out ← setitem_last 1 v out;
      s1 ← select_last 1 spec; c0 ← select_last 0 coefs;
      p ← map2 mul s1 c0; v ← sum add zero 2 p;
      out ← update_last add 1 v out;
      Some out
  | _ => None
  end.

(** *** Regularisation *)

Definition _compute_mat_trace (input : tensor (complex K)) (dim1 dim2 : Z)
    : option (tensor (complex K)) :=
  if bool_decide (2 ≤ rank input)%nat then
    n1 ← PyList.getitem (shape input) dim1;
    n2 ← PyList.getitem (shape input) dim2;
    if bool_decide (n1 = n2) then
      input ← diagonal dim1 dim2 input;
      sum Complex.cadd Complex.czero (-1) input
    else None
  else None.

Definition _tik_reg (mat : tensor (complex K)) (reg eps : K)
    : option (tensor (complex K)) :=
  C ← PyList.getitem (shape mat) (-1);
  let eye := eye C in
  tr ← _compute_mat_trace mat (-1) (-2);
  e ← unsqueeze (-1) (Torch.real tr);
  e ← unsqueeze (-1) e;
  let epsilon := map1 (λ x, x * reg)%K e in
  (* in case that correlation_matrix is all-zero *)
  let epsilon := map1 (λ x, x + eps)%K epsilon in
  ee ← map2 (λ x c, Complex.cmul (Complex.of_real x) c) epsilon eye;
  map2 Complex.cadd mat ee.

(** [MultiFrameModule.solve].  [torch.inverse] is the one primitive of the
    source that is not computed here: it is a parameter, [None] when it
    raises (a singular or non-square matrix), and what it returns is
    constrained where a property needs it. *)
Definition solve (inverse : tensor (complex K) → option (tensor (complex K)))
    (Rxx rss : tensor (complex K)) (diag_eps eps : K)
    : option (tensor (complex K)) :=
  r ← _tik_reg Rxx diag_eps eps;
  i ← inverse r;
  einsum_nm_m i rss.

(** *** [forward] *)

(** The tensor objects the caller and the modules share. *)
Definition clone_obj (σ : gmap nat (tensor K)) (l : nat)
    : option (gmap nat (tensor K) * nat) :=
  x ← σ !! l;
  let l' := fresh (dom σ) in
  Some (<[l' := clone x]> σ, l').

(** [spec[..., : n, :] = v] on the object [l]. *)
Definition setitem_obj (σ : gmap nat (tensor K)) (l : nat) (n : Z) (v : tensor K)
    : option (gmap nat (tensor K)) :=
  x ← σ !! l;
  x' ← setitem_prefix2 n v x;
  Some (<[l := x']> σ).

Definition DF_forward (self : DF) (σ : gmap nat (tensor K)) (spec coefs : nat)
    : option (gmap nat (tensor K) * nat) :=
  let base := DF_base self in
  spec_t ← σ !! spec;
  coefs_t ← σ !! coefs;
  spec_c ← view_as_complex spec_t;
  spec_u ← spec_unfold base spec_c;
  coefs ← view_as_complex coefs_t;
  spec_f ← narrow (-2) 0 (num_freqs base) spec_u;
  b0 ← shape coefs !! 0%nat;
  coefs ← view (Z.of_nat b0 :: -1 :: frame_size base
                  :: map Z.of_nat (drop 2 (shape coefs))) coefs;
  let coefs := if DF_conj self then conj coefs else coefs in
  spec_f ← df spec_f coefs;
  '(σ, spec) ← (if training base then clone_obj σ spec else Some (σ, spec));
  σ ← setitem_obj σ spec (num_freqs base) (view_as_real spec_f);
  Some (σ, spec).

Definition DFreal_forward (junk : list nat → K) (self : DFreal)
    (σ : gmap nat (tensor K)) (spec coefs : nat)
    : option (gmap nat (tensor K) * nat) :=
  let base := DFreal_base self in
  spec_t ← σ !! spec;
  coefs_t ← σ !! coefs;
  spec_u ← spec_unfold_real base spec_t;
  spec_f ← narrow (-2) 0 (num_freqs base) spec_u;
  b0 ← shape coefs_t !! 0%nat;
  let new_shape := [Z.of_nat b0; -1; frame_size base]
                     ++ map Z.of_nat (drop 2 (shape coefs_t)) in
  coefs ← view new_shape coefs_t;
  (* [conj()] of a real tensor is the tensor itself *)
  let coefs := if DFreal_conj self then coefs else coefs in
  spec_f ← df_real junk spec_f coefs;
  σ ← setitem_obj σ spec (num_freqs base) spec_f;
  Some (σ, spec).

Definition CRM_forward_impl (self : CRM) (spec coefs : tensor (complex K))
    : option (tensor (complex K)) :=
  s ← squeeze (-1) spec;
  map2 Complex.cmul s coefs.

Definition MfWf_forward (self : MfWf) (σ : gmap nat (tensor K))
    (spec ifc iRxx : nat) : option (gmap nat (tensor K) * nat) :=
  let base := MfWf_base self in
  spec_t ← σ !! spec;
  ifc_t ← σ !! ifc;
  iRxx_t ← σ !! iRxx;
  spec_c ← view_as_complex spec_t;
  spec_u ← spec_unfold base spec_c;
  iRxx ← unflatten 3 [frame_size base; frame_size base; 2] iRxx_t;
  iRxx ← view_as_complex iRxx;
  ifc ← unflatten 3 [frame_size base; 2] ifc_t;
  ifc ← view_as_complex ifc;
  spec_f ← narrow (-2) 0 (num_freqs base) spec_u;
  w ← einsum_nm_m iRxx ifc;
  spec_f ← apply_coefs spec_f w;
  '(σ, spec) ← (if training base then clone_obj σ spec else Some (σ, spec));
  σ ← setitem_obj σ spec (num_freqs base) (view_as_real spec_f);
  Some (σ, spec).

Definition MfMvdr_forward `{Division K} (self : MfMvdr K)
    (σ : gmap nat (tensor K)) (spec ifc iRnn : nat)
    : option (gmap nat (tensor K) * nat) :=
  let base := MfMvdr_base self in
  spec_t ← σ !! spec;
  ifc_t ← σ !! ifc;
  iRnn_t ← σ !! iRnn;
  spec_c ← view_as_complex spec_t;
  spec_u ← spec_unfold base spec_c;
  iRnn ← unflatten 3 [frame_size base; frame_size base; 2] iRnn_t;
  iRnn ← view_as_complex iRnn;
  ifc ← unflatten 3 [frame_size base; 2] ifc_t;
  ifc ← view_as_complex ifc;
  spec_f ← narrow (-2) 0 (num_freqs base) spec_u;
  numerator ← einsum_nm_m iRnn ifc;
  denumerator ← einsum_n_n (conj ifc) numerator;
  d ← unsqueeze (-1) (Torch.real denumerator);
  let d := map1 (λ x, x + MfMvdr_eps self)%K d in
  w ← map2 (λ a r, Complex.cdiv a (Complex.of_real r)) numerator d;
  spec_f ← apply_coefs spec_f w;
  '(σ, spec) ← (if training base then clone_obj σ spec else Some (σ, spec));
  σ ← setitem_obj σ spec (num_freqs base) (view_as_real spec_f);
  Some (σ, spec).

(** *** The two halves of [forward]

    The tensor computation of each [forward], up to the filtered band,
    and the write-back that ends [DF.forward], [MfWf.forward] and
    [MfMvdr.forward], as functions of their own: [forward] is their
    composition (proved below), and the properties of the effects are
    stated on them. *)

Definition DF_filter (self : DF) (spec_t coefs_t : tensor K)
    : option (tensor K) :=
  let base := DF_base self in
  spec_c ← view_as_complex spec_t;
  spec_u ← spec_unfold base spec_c;
  coefs ← view_as_complex coefs_t;
  spec_f ← narrow (-2) 0 (num_freqs base) spec_u;
  b0 ← shape coefs !! 0%nat;
  coefs ← view (Z.of_nat b0 :: -1 :: frame_size base
                  :: map Z.of_nat (drop 2 (shape coefs))) coefs;
  let coefs := if DF_conj self then conj coefs else coefs in
  spec_f ← df spec_f coefs;
  Some (view_as_real spec_f).

Definition DFreal_filter (junk : list nat → K) (self : DFreal)
    (spec_t coefs_t : tensor K) : option (tensor K) :=
  let base := DFreal_base self in
  spec_u ← spec_unfold_real base spec_t;
  spec_f ← narrow (-2) 0 (num_freqs base) spec_u;
  b0 ← shape coefs_t !! 0%nat;
  let new_shape := [Z.of_nat b0; -1; frame_size base]
                     ++ map Z.of_nat (drop 2 (shape coefs_t)) in
  coefs ← view new_shape coefs_t;
  let coefs := if DFreal_conj self then coefs else coefs in
  df_real junk spec_f coefs.

Definition MfWf_filter (self : MfWf) (spec_t ifc_t iRxx_t : tensor K)
    : option (tensor K) :=
  let base := MfWf_base self in
  spec_c ← view_as_complex spec_t;
  spec_u ← spec_unfold base spec_c;
  iRxx ← unflatten 3 [frame_size base; frame_size base; 2] iRxx_t;
  iRxx ← view_as_complex iRxx;
  ifc ← unflatten 3 [frame_size base; 2] ifc_t;
  ifc ← view_as_complex ifc;
  spec_f ← narrow (-2) 0 (num_freqs base) spec_u;
  w ← einsum_nm_m iRxx ifc;
  spec_f ← apply_coefs spec_f w;
  Some (view_as_real spec_f).

Definition MfMvdr_filter `{Division K} (self : MfMvdr K)
    (spec_t ifc_t iRnn_t : tensor K) : option (tensor K) :=
  let base := MfMvdr_base self in
  spec_c ← view_as_complex spec_t;
  spec_u ← spec_unfold base spec_c;
  iRnn ← unflatten 3 [frame_size base; frame_size base; 2] iRnn_t;
  iRnn ← view_as_complex iRnn;
  ifc ← unflatten 3 [frame_size base; 2] ifc_t;
  ifc ← view_as_complex ifc;
  spec_f ← narrow (-2) 0 (num_freqs base) spec_u;
  numerator ← einsum_nm_m iRnn ifc;
  denumerator ← einsum_n_n (conj ifc) numerator;
  d ← unsqueeze (-1) (Torch.real denumerator);
  let d := map1 (λ x, x + MfMvdr_eps self)%K d in
  w ← map2 (λ a r, Complex.cdiv a (Complex.of_real r)) numerator d;
  spec_f ← apply_coefs spec_f w;
  Some (view_as_real spec_f).

Definition write_back (mode : bool) (nf : Z) (σ : gmap nat (tensor K))
    (spec : nat) (v : tensor K) : option (gmap nat (tensor K) * nat) :=
  '(σ, spec) ← (if mode then clone_obj σ spec else Some (σ, spec));
  σ ← setitem_obj σ spec nf v;
  Some (σ, spec).

(** *** Calling a module

    [module(spec, *args)] runs the [forward] of the module's class.
    [CRM] defines [forward_impl] only, so calling it reaches
    [nn.Module]'s [forward], which raises [NotImplementedError]; a
    wrong number of arguments is a [TypeError]. *)

Definition base_of (flt : filter K) : MultiFrameModule :=
  match flt with
  | FDF m => DF_base m
  | FDFreal m => DFreal_base m
  | FCRM m => CRM_base m
  | FMfWf m => MfWf_base m
  | FMfMvdr m => MfMvdr_base m
  end.

Definition forward `{Division K} (junk : list nat → K) (flt : filter K)
    (σ : gmap nat (tensor K)) (spec : nat) (args : list nat)
    : option (gmap nat (tensor K) * nat) :=
  match flt, args with
  | FDF m, [coefs] => DF_forward m σ spec coefs
  | FDFreal m, [coefs] => DFreal_forward junk m σ spec coefs
  | FMfWf m, [ifc; iRxx] => MfWf_forward m σ spec ifc iRxx
  | FMfMvdr m, [ifc; iRnn] => MfMvdr_forward m σ spec ifc iRnn
  | _, _ => None
  end.

(** Whether [forward] clones the spectrogram before writing: the
    [if self.training] of [DF], [MfWf] and [MfMvdr]; [DFreal] has
    none. *)
Definition clones (flt : filter K) : bool :=
  match flt with
  | FDF _ | FMfWf _ | FMfMvdr _ => training (base_of flt)
  | FDFreal _ | FCRM _ => false
  end.

End WithScalar.

End MultiFrame.


(** ** Reference formulas of the specification

    The quantities the specification names, written from its words; the
    theorems below compare the code with them. *)

Module Reference.
Import Torch.

(** Number of windows of length [L] every [S] in a sequence of length
    [len]: floor((len - L) / S) + 1. *)
Definition window_count (len L S : Z) : Z := (len - L) `div` S + 1.

Section WithScalar.
Context {K : Type} `{Scalar K}.

(** The complex bin at [idx] of a tensor of (real, imag) pairs. *)
Definition bin (x : tensor K) (idx : list nat) : complex K :=
  Complex.mk (elem x (idx ++ [0%nat])) (elem x (idx ++ [1%nat])).

(** The [n]-th (real, imag) pair on the flattened last axis of [x]. *)
Definition pair_at (x : tensor K) (idx : list nat) (n : nat) : complex K :=
  Complex.mk (elem x (idx ++ [(n * 2)%nat])) (elem x (idx ++ [(n * 2 + 1)%nat])).

(** Frame [n] of the window at time [t] of bin [(b, c, f)]: the source at
    time [t - (N - 1 - la) + n], zero outside the [T] source frames. *)
Definition frame (x : list nat → complex K) (T : nat) (N la : Z)
    (b c t f n : nat) : complex K :=
  let s := Z.of_nat t + Z.of_nat n - (N - 1 - la) in
  if bool_decide (0 <= s < Z.of_nat T) then x [b; c; Z.to_nat s; f]
  else Complex.czero.

(** Matrix-vector product, inner product and the MVDR weight of one
    bin, for a matrix [m] and vectors [v], [w] of size [N]. *)
Definition matvec (N : nat) (m : nat → nat → complex K) (v : nat → complex K)
    (i : nat) : complex K :=
  Complex.csum N (λ j, Complex.cmul (m i j) (v j)).

Definition dotc (N : nat) (v w : nat → complex K) : complex K :=
  Complex.csum N (λ n, Complex.cmul (v n) (w n)).

Definition mvdr_weight `{Division K} (N : nat) (eps : K)
    (iRnn : nat → nat → complex K) (ifc : nat → complex K) (n : nat)
    : complex K :=
  let numerator := matvec N iRnn ifc in
  let denominator :=
    (Complex.re (dotc N (λ k, Complex.conj (ifc k)) numerator) + eps)%K in
  Complex.cdiv (numerator n) (Complex.of_real denominator).
End WithScalar.

End Reference.

(** ** Concrete tensors, over the integers *)

Module Examples.
Import Torch.

(** The tensor of shape [shp] holding [l] in row-major order. *)
Definition of_list (shp : list nat) (l : list Z) : tensor Z :=
  mk shp (λ idx, default 0 (l !! ravel shp idx)).

Definition cof_list (shp : list nat) (l : list (Z * Z)) : tensor (complex Z) :=
  mk shp (λ idx, let p := default (0, 0) (l !! ravel shp idx) in
                 Complex.mk p.1 p.2).

(** A complex spectrogram [B, C, T, F] = [1, 1, 2, 1] with the two
    frames [1] and [i]. *)
Definition signal_1_i : tensor (complex Z) :=
  cof_list [1; 1; 2; 1]%nat [(1, 0); (0, 1)].

(** A spectrogram [B, C, T, F, 2] = [1, 1, 3, 2, 2] of (real, imag)
    pairs and deep-filter coefficients [B, C * N, T, nf, 2] =
    [1, 2, 3, 1, 2]: tap 0 is [1], tap 1 is [i], at every time. *)
Definition spec3 : tensor Z :=
  of_list [1; 1; 3; 2; 2]%nat [1; 2; 3; 4; 5; 6; 7; 8; 9; 10; 11; 12].

Definition taps : tensor Z :=
  of_list [1; 2; 3; 1; 2]%nat [1; 0; 1; 0; 1; 0; 0; 1; 0; 1; 0; 1].

(** The objects of a caller: the spectrogram at 0, the coefficients
    at 1. *)
Definition store0 : gmap nat (tensor Z) := <[0%nat := spec3]> (<[1%nat := taps]> ∅).

(** [DF(num_freqs=1, frame_size=2)] and [DFreal(num_freqs=1,
    frame_size=2)] as built by [__init__], and [CRM(num_freqs=1)]. *)
Definition df_1_2 : MultiFrame.DF :=
  MultiFrame.mkDF
    (MultiFrame.mkMultiFrameModule 1 2 false
       (MultiFrame.ConstantPad2d (0, 0, 1, 0)) true 0 true) false.

Definition dfreal_1_2 : MultiFrame.DFreal :=
  MultiFrame.mkDFreal
    (MultiFrame.mkMultiFrameModule 1 2 true
       (MultiFrame.ConstantPad3d (0, 0, 0, 0, 1, 0)) true 0 true) false.

Definition crm_1 : MultiFrame.CRM :=
  MultiFrame.mkCRM
    (MultiFrame.mkMultiFrameModule 1 1 false
       (MultiFrame.ConstantPad2d (0, 0, 0, 0)) false 0 true).

(** Element [idx] of the tensor a call returned. *)
Definition out_elem {K} (r : option (gmap nat (tensor K) * nat)) (idx : list nat)
    : option K :=
  '(σ, o) ← r; Y ← σ !! o; Some (elem Y idx).

(** [DF.forward] in evaluation mode, once and twice on the same
    objects. *)
Definition df_once : option (gmap nat (tensor Z) * nat) :=
  MultiFrame.DF_forward (MultiFrame.DF_train false df_1_2) store0 0%nat 1%nat.

Definition df_twice : option (gmap nat (tensor Z) * nat) :=
  '(σ1, _) ← df_once;
  MultiFrame.DF_forward (MultiFrame.DF_train false df_1_2) σ1 0%nat 1%nat.

(** A two-bin complex spectrogram and a mask, for [CRM]. *)
Definition two_bins : tensor (complex Z) :=
  cof_list [1; 1; 1; 2]%nat [(1, 2); (1, 2)].

Definition mask : tensor (complex Z) :=
  cof_list [1; 1; 1; 2]%nat [(3, -1); (3, -1)].

(** The module of the padding example of the specification,
    [frame_size = 3] and [lookahead = 1], and a complex spectrogram
    [1, 1, 5, 1] with the frames [1, 2, 3, 4, 5]. *)
Definition unfold_3_1 : MultiFrame.MultiFrameModule :=
  MultiFrame.mkMultiFrameModule 1 3 false
    (MultiFrame.ConstantPad2d (0, 0, 1, 1)) true 1 true.

Definition five_frames : tensor (complex Z) :=
  cof_list [1; 1; 5; 1]%nat [(1, 0); (2, 0); (3, 0); (4, 0); (5, 0)].

(** A 2 x 2 complex matrix. *)
Definition mat2 : tensor (complex Z) :=
  cof_list [2; 2]%nat [(0, 1); (1, 1); (2, 1); (3, 1)].

(** The same objects over the rationals, with the statistics of an
    MVDR filter of [frame_size = 2] on one frequency bin: the inter-frame
    correlation vector [(1, i)] and the identity as inverse noise
    covariance, at both times. *)
Definition qof_list (shp : list nat) (l : list Z) : tensor Qc :=
  mk shp (λ idx, Q2Qc (inject_Z (default 0 (l !! ravel shp idx)))).

Definition qspec : tensor Qc :=
  qof_list [1; 1; 2; 1; 2]%nat [1; 2; 3; 4].

Definition qtaps : tensor Qc :=
  qof_list [1; 2; 2; 1; 2]%nat [1; 0; 1; 0; 0; 1; 0; 1].

Definition qifc : tensor Qc :=
  qof_list [1; 2; 1; 4]%nat [1; 0; 0; 1; 1; 0; 0; 1].

Definition qiRnn : tensor Qc :=
  qof_list [1; 2; 1; 8]%nat [1; 0; 0; 0; 0; 0; 1; 0; 1; 0; 0; 0; 0; 0; 1; 0].

Definition qstore : gmap nat (tensor Qc) :=
  <[0%nat := qspec]> (<[1%nat := qtaps]> (<[2%nat := qifc]> (<[3%nat := qiRnn]> ∅))).

Definition mvdr_1_2 : MultiFrame.MfMvdr Qc :=
  MultiFrame.mkMfMvdr
    (MultiFrame.mkMultiFrameModule 1 2 false
       (MultiFrame.ConstantPad2d (0, 0, 1, 0)) true 0 true) 1%Qc.

Definition qjunk : list nat → Qc := λ _, Q2Qc 0.

(** Another store that holds the same spectrogram and coefficients at 0
    and 1, and something else besides. *)
Definition qstore_other : gmap nat (tensor Qc) :=
  <[5%nat := qspec]> (<[1%nat := qtaps]> (<[0%nat := qspec]> ∅)).

(** [DFreal(num_freqs=3, frame_size=1)] and [MfWf(num_freqs=1,
    frame_size=2)] as built by [__init__]. *)
Definition dfreal_3_1 : MultiFrame.DFreal :=
  MultiFrame.mkDFreal
    (MultiFrame.mkMultiFrameModule 3 1 true
       (MultiFrame.ConstantPad3d (0, 0, 0, 0, 0, 0)) false 0 true) false.

Definition mfwf_1_2 : MultiFrame.MfWf :=
  MultiFrame.mkMfWf
    (MultiFrame.mkMultiFrameModule 1 2 false
       (MultiFrame.ConstantPad2d (0, 0, 1, 0)) true 0 true).

(** Identity coefficients for [frame_size = 2], [lookahead = 0]: tap 0 is
    0 and tap 1 is 1 at every time. *)
Definition identity_taps : tensor Z :=
  of_list [1; 2; 3; 1; 2]%nat [0; 0; 0; 0; 0; 0; 1; 0; 1; 0; 1; 0].

Definition store_identity : gmap nat (tensor Z) :=
  <[0%nat := spec3]> (<[1%nat := identity_taps]> ∅).

(** A real frame stack and real taps [B, C, N, T, F, 2] = [1, 1, 2, 1, 1, 2]. *)
Definition stack_real : tensor Z :=
  of_list [1; 1; 2; 1; 1; 2]%nat [1; 2; 3; 4].

Definition taps_real : tensor Z :=
  of_list [1; 1; 2; 1; 1; 2]%nat [5; 6; 7; 8].

(** The 2 x 2 zero matrix, its regularisation with [reg = 0], [eps = 1],
    and a right-hand side. *)
Definition zero2 : tensor (complex Z) :=
  cof_list [2; 2]%nat [(0, 0); (0, 0); (0, 0); (0, 0)].

Definition reg_zero2 : tensor (complex Z) :=
  default zero2 (MultiFrame._tik_reg zero2 0 1).

Definition rhs2 : tensor (complex Z) :=
  cof_list [2]%nat [(3, 1); (4, 0)].
End Examples.

(** * Properties *)

(** ** [as_windowed] *)

Section AsWindowed.
Import Strided.

Lemma int_truediv_self (k s : Z) :
  s ≠ 0 →
  ∃ q, PyList.truediv s s = Some q ∧ PyList.int (inject_Z k + q)%Q = k + 1.
Proof.
  intros Hs. unfold PyList.truediv. rewrite bool_decide_eq_false_2 by done.
  eexists; split; [reflexivity|].
  unfold PyList.int. destruct s as [|p|p]; [done| |]; cbn;
    rewrite !Pos.mul_1_l.
  - replace (k * Z.pos p + Z.pos p * 1 * 1) with ((k + 1) * Z.pos p) by lia.
    apply Z.quot_mul. lia.
  - replace (k * Z.pos p + Z.neg p * -1 * 1) with ((k + 1) * Z.pos p) by lia.
    apply Z.quot_mul. lia.
Qed.

Lemma index_nonneg (n : nat) (i : Z) :
  0 <= i < Z.of_nat n → PyList.index n i = Some (Z.to_nat i).
Proof.
  intros Hi. unfold PyList.index.
  replace (0 <=? i) with true by lia. replace (i <? Z.of_nat n) with true by lia.
  reflexivity.
Qed.

(** Along [dim = 1] the sizes and strides requested of [as_strided]: the
    window count is [T - L + 1] whatever the step. *)
Lemma as_windowed_layout_dim1 (B T sB sT : Z) (rest srest : list Z) (L step : Z) :
  step ≠ 0 →
  as_windowed_layout (B :: T :: rest) (sB :: sT :: srest) L step 1
  = Some (B :: (T - L + 1) :: L :: rest, sB :: sT * step :: sT :: srest).
Proof.
  intros Hs. unfold as_windowed_layout.
  destruct (int_truediv_self (T - L) step Hs) as (q & -> & Hq).
  unfold PyList.getitem, PyList.setitem. cbn [length].
  rewrite !index_nonneg by lia. change (Z.to_nat 1) with 1%nat.
  cbn [lookup list_lookup mbind option_bind insert list_insert].
  rewrite Hq. rewrite bool_decide_eq_true_2 by lia.
  cbn [lookup list_lookup mbind option_bind insert list_insert].
  unfold PyList.insert, PyList.insert_pos. cbn [length].
  replace (1 + 1 <? 0) with false by lia.
  replace (Z.to_nat (Z.min (1 + 1) (Z.of_nat (S (S (length rest)))))) with 2%nat by lia.
  replace (Z.to_nat (Z.min (1 + 1) (Z.of_nat (S (S (length srest)))))) with 2%nat by lia.
  cbn [take drop app length].
  rewrite !index_nonneg by lia. change (Z.to_nat 1) with 1%nat.
  reflexivity.
Qed.
End AsWindowed.


Section AsWindowedUnitStep.
Import Strided.

(** With [step = 1] the windows are the contiguous slices: a [B x T]
    batch of sequences gives [T - L + 1] windows per sequence and
    window [i] holds the elements [i .. i + L - 1]. *)
Lemma as_windowed_step1 {A} (l : list A) (B T L : Z) :
  0 <= B → 0 <= L <= T → Z.of_nat (length l) = B * T →
  ∃ v, as_windowed (contiguous2 l B T) L 1 1 = Some v
       ∧ shape v = [B; Reference.window_count T L 1; L]
       ∧ ∀ b i j, 0 <= b < B → 0 <= i < Reference.window_count T L 1 → 0 <= j < L →
           get v [b; i; j] = get (contiguous2 l B T) [b; i * 1 + j].
Proof.
  intros HB HL Hlen. unfold as_windowed, Reference.window_count.
  rewrite Z.div_1_r.
  cbn [contiguous2 shape stride].
  rewrite as_windowed_layout_dim1 by lia.
  cbn [mbind option_bind]. unfold as_strided.
  rewrite bool_decide_eq_true_2.
  - eexists; split; [reflexivity|]. split; [reflexivity|].
    intros b i j Hb Hi Hj. unfold get.
    cbn [contiguous2 shape stride storage offset in_range dot].
    rewrite !bool_decide_eq_true_2 by lia. cbn [andb].
    f_equal. lia.
  - cbn [contiguous2 length storage offset]. split; [reflexivity|].
    split; [repeat first [apply Forall_nil_2 | apply Forall_cons_2; [lia|]]|].
    split; [repeat first [apply Forall_nil_2 | apply Forall_cons_2; [lia|]]|].
    unfold storage_needed. case_bool_decide; [lia|].
    cbn [map dot]. lia.
Qed.
End AsWindowedUnitStep.

(** The example of the specification: a sequence of length 10 with
    [L = 3], [S = 1] has 8 windows and window [i] is [source[i : i + 3]]. *)
Example as_windowed_10_3_1 :
  let x := Strided.contiguous2 (seqZ 0 10) 1 10 in
  ∃ v, Strided.as_windowed x 3 1 1 = Some v
       ∧ Strided.shape v = [1; 8; 3]
       ∧ ∀ i j, 0 <= i < 8 → 0 <= j < 3 →
           Strided.get v [0; i; j] = Some (i + j).
Proof.
  cbn zeta.
  destruct (as_windowed_step1 (seqZ 0 10) 1 10 3) as (v & Hv & Hs & He);
    [lia | lia | reflexivity |].
  change (Reference.window_count 10 3 1) with 8 in *.
  exists v. split; [exact Hv|]. split; [exact Hs|].
  intros i j Hi Hj. rewrite He by lia.
  unfold Strided.get. cbn [Strided.contiguous2 Strided.shape Strided.in_range].
  rewrite !bool_decide_eq_true_2 by lia.
  cbn [andb Strided.contiguous2 Strided.storage Strided.offset Strided.stride Strided.dot].
  rewrite lookup_seqZ_lt by lia. f_equal. lia.
Qed.

(** C1, at the failing input.  For a length-10 sequence with window length
    3 and step 2 the specification promises floor((10 - 3) / 2) + 1 = 4
    windows; [as_windowed] computes the window count as
    [int(10 - 3 + 2 / 2)] = 8 and asks [as_strided] for 8 windows of
    stride 2, which leave the storage: the call raises. *)
Theorem as_windowed_step2_count :
  Reference.window_count 10 3 2 = 4
  ∧ Strided.as_windowed_layout [1; 10] [10; 1] 3 2 1 = Some ([1; 8; 3], [10; 2; 1])
  ∧ Strided.as_windowed (Strided.contiguous2 (seqZ 0 10) 1 10) 3 2 1 = None.
Proof.
  split; [reflexivity|]. split.
  - apply as_windowed_layout_dim1. lia.
  - unfold Strided.as_windowed.
    cbn [Strided.contiguous2 Strided.shape Strided.stride].
    rewrite as_windowed_layout_dim1 by lia. vm_compute. reflexivity.
Qed.

(** ** Construction *)

Section Construction.
Import MultiFrame.

Lemma MultiFrameModule_init_total (num_freqs frame_size lookahead : Z) (real : bool) :
  is_Some (MultiFrameModule_init num_freqs frame_size lookahead real).
Proof. unfold MultiFrameModule_init. eauto. Qed.

(** The statement "construction is rejected whenever lookahead >= frame_size"
    does not hold: [DF(num_freqs=1, frame_size=1, lookahead=5)] is built. *)
Lemma construct_accepts_lookahead_ge_frame_size :
  ¬ (∀ (k : kind) (num_freqs frame_size lookahead : Z) (conj : bool) (eps : Z),
       lookahead >= frame_size →
       construct k num_freqs frame_size lookahead conj eps = None).
Proof.
  intros Hc. specialize (Hc KDF 1 1 5 false 0). cbn in Hc.
  discriminate Hc. lia.
Qed.

(** C3, as the code has it.  Construction fails exactly for a [CRM] with
    [frame_size <> 1] or [lookahead <> 0] (its assertion); every other
    construction succeeds, whatever [lookahead] and [num_freqs] are: the
    constructors compare [lookahead] with nothing and receive no
    frequency-bin count. *)
Theorem construct_fails_iff {K} (k : kind) (num_freqs frame_size lookahead : Z)
    (conj : bool) (eps : K) :
  construct k num_freqs frame_size lookahead conj eps = None
  ↔ k = KCRM ∧ (frame_size ≠ 1 ∨ lookahead ≠ 0).
Proof.
  split.
  - destruct k; cbn; try discriminate.
    unfold CRM_init. case_bool_decide as Hc; cbn; [discriminate|].
    intros _. split; [reflexivity|]. lia.
  - intros [-> Hc]. cbn. unfold CRM_init.
    rewrite bool_decide_eq_false_2 by lia. reflexivity.
Qed.
End Construction.

(** ** Tensor primitives *)

(** Structural evaluation of the primitives on tensors whose rank is
    known, leaving sizes and indices symbolic. *)
Ltac norm :=
  cbn [mbind option_bind fmap option_fmap option_map
       Torch.shape Torch.elem Torch.rank length
       reverse rev_append app take drop lookup list_lookup lookup_total
       list_lookup_total insert list_insert delete list_delete zip_with
       last removelast fst snd default replicate map seq
       Nat.sub Nat.add Nat.eqb Nat.min Nat.max
       Torch.pad_shape_rev Torch.pad_src_rev Torch.broadcast_rev
       Torch.strip_ones Torch.map1 Torch.conj Torch.real Torch.view_as_real
       MultiFrame.need_unfold MultiFrame.pad_ MultiFrame.frame_size
       MultiFrame.num_freqs MultiFrame.lookahead MultiFrame.training
       MultiFrame.real].

Ltac eval_dims :=
  repeat match goal with
  | |- context [Torch.dim_index ?r ?d] =>
      let v := eval vm_compute in (Torch.dim_index r d) in
      change (Torch.dim_index r d) with v
  | |- context [PyList.index ?r ?d] =>
      let v := eval vm_compute in (PyList.index r d) in
      change (PyList.index r d) with v
  end.

Ltac guard_true :=
  match goal with
  | |- context [bool_decide ?P] => rewrite (bool_decide_eq_true_2 P) by (norm; lia)
  end.

Ltac unfold_prims :=
  unfold Torch.unsqueeze, Torch.narrow, Torch.map2, Torch.broadcast_shapes,
    PyList.getitem.

(** Runs a chain of primitives as far as the guards can be decided. *)
Ltac run :=
  unfold_prims;
  repeat (progress (norm; eval_dims; try guard_true)).

(** ** [spec_unfold] *)

Section SpecUnfold.
Import Torch MultiFrame.
Context {K : Type} `{Scalar K}.

(** The frame stack of a non-empty spectrogram, all bins at once. *)
Lemma spec_unfold_stack (self : MultiFrameModule) (x : tensor (complex K))
    (B C T F : nat) (nf N la : Z) :
  MultiFrameModule_init nf N la false = Some self →
  shape x = [B; C; T; F] →
  0 <= la < N → (0 < T)%nat →
  ∃ U, spec_unfold self x = Some U
       ∧ shape U = [B; C; T; F; Z.to_nat N]
       ∧ ∀ b c t f n,
           (b < B)%nat → (c < C)%nat → (t < T)%nat → (f < F)%nat →
           (n < Z.to_nat N)%nat →
           elem U [b; c; t; f; n] = Reference.frame (elem x) T N la b c t f n.
Proof.
  intros Hinit Hshape Hla HT. injection Hinit as <-.
  destruct x as [s e]. cbn [shape] in Hshape. subst s.
  unfold spec_unfold, Reference.frame. norm.
  case_bool_decide as HN.
  - (* frame_size > 1 *)
    unfold apply_pad, pad. norm. repeat guard_true. norm.
    unfold unfold. norm. eval_dims. norm. guard_true.
    eexists; split; [reflexivity|]. norm. split.
    + repeat f_equal; try lia. rewrite Z.div_1_r. lia.
    + intros b c t f n Hb Hc Ht Hf Hn.
      change (Z.to_nat 1) with 1%nat. rewrite Nat.mul_1_r.
      rewrite (bool_decide_eq_true_2 (0 ≤ Z.of_nat f - 0 < Z.of_nat F)) by lia.
      case_bool_decide as Hc1; case_bool_decide as Hc2; try lia; norm;
        [|reflexivity].
      repeat f_equal; lia.
  - (* frame_size = 1 *)
    assert (N = 1) as -> by lia. assert (la = 0) as -> by lia.
    unfold unsqueeze. norm. eval_dims. norm.
    eexists; split; [reflexivity|]. norm.
    split; [reflexivity|].
    intros b c t f n Hb Hc Ht Hf Hn. assert (n = 0%nat) as -> by lia. norm.
    rewrite bool_decide_eq_true_2 by lia. repeat f_equal; lia.
Qed.

(** C4.  For a module built with [0 <= lookahead < frame_size] and a
    complex spectrogram of shape [B, C, T, F], [spec_unfold] returns the
    frame stack of shape [B, C, T, F, frame_size] whose window at time
    [t] holds, at frame [n], the source at time
    [t - (frame_size - 1 - lookahead) + n], and zero where that time is
    outside the sequence: the window covers
    [t - (frame_size - 1 - lookahead) .. t + lookahead].  For
    [frame_size > 1] this is the padding with [frame_size - 1 - lookahead]
    frames before and [lookahead] after followed by the unfolding with
    size [frame_size] and step 1; for [frame_size <= 1] it is the input
    with a unit frame axis appended. *)
Theorem spec_unfold_windows (self : MultiFrameModule) (x : tensor (complex K))
    (B C T F : nat) (nf N la : Z) (b c t f n : nat) :
  MultiFrameModule_init nf N la false = Some self →
  shape x = [B; C; T; F] →
  0 <= la < N →
  (b < B)%nat → (c < C)%nat → (t < T)%nat → (f < F)%nat → (n < Z.to_nat N)%nat →
  ∃ U, spec_unfold self x = Some U
       ∧ shape U = [B; C; T; F; Z.to_nat N]
       ∧ elem U [b; c; t; f; n] = Reference.frame (elem x) T N la b c t f n
       ∧ (1 < N → spec_unfold self x
                  = p ← pad [(0, 0); (N - 1 - la, la)] Complex.czero x;
                    unfold 2 N 1 p)
       ∧ (N <= 1 → spec_unfold self x = unsqueeze (-1) x
                   ∧ shape U = shape x ++ [1%nat]
                   ∧ elem U [b; c; t; f; n] = elem x [b; c; t; f]).
Proof.
  intros Hinit Hshape Hla Hb Hc Ht Hf Hn.
  destruct (spec_unfold_stack self x B C T F nf N la Hinit Hshape Hla)
    as (U & HU & HsU & HeU); [lia|].
  exists U. split; [exact HU|]. split; [exact HsU|].
  split; [by apply HeU|].
  injection Hinit as <-. unfold spec_unfold in *.
  cbn [need_unfold pad_ frame_size apply_pad] in *. split.
  - intros HN. rewrite bool_decide_eq_true_2 by lia. reflexivity.
  - intros HN. rewrite bool_decide_eq_false_2 in * by lia.
    split; [reflexivity|]. assert (N = 1) as -> by lia.
    assert (la = 0) as -> by lia. assert (n = 0%nat) as -> by lia.
    rewrite Hshape. destruct x as [s e]. cbn [shape] in Hshape. subst s.
    revert HU. unfold unsqueeze. norm. eval_dims. norm.
    intros [= <-]. norm. done.
Qed.
End SpecUnfold.

(** ** Broadcasting *)

Section Broadcasting.
Import Torch.

Lemma bdim_same (n : nat) : bdim n n = Some n.
Proof. unfold bdim. by rewrite bool_decide_eq_true_2. Qed.

Lemma bdim_1_r (n : nat) : bdim n 1 = Some n.
Proof. unfold bdim. repeat case_bool_decide; congruence. Qed.

Lemma bdim_1_l (n : nat) : bdim 1 n = Some n.
Proof. unfold bdim. repeat case_bool_decide; congruence. Qed.

Lemma broadcast_rev_same (s : list nat) : broadcast_rev s s = Some s.
Proof.
  induction s as [|n s IH]; [reflexivity|].
  cbn. rewrite bdim_same, IH. reflexivity.
Qed.

Lemma broadcast_shapes_same (s : list nat) : broadcast_shapes s s = Some s.
Proof.
  unfold broadcast_shapes. rewrite broadcast_rev_same. cbn.
  by rewrite reverse_involutive.
Qed.

Lemma bix_lt (n i : nat) : (i < n)%nat → bix n i = i.
Proof. intros Hi. unfold bix. case_bool_decide; lia. Qed.

Lemma bix_1 (i : nat) : bix 1 i = 0%nat.
Proof. reflexivity. Qed.
End Broadcasting.

(** ** [psd] *)

Section Psd.
Import Torch MultiFrame.
Context {K : Type} `{Scalar K}.

(** C8, as the code has it.  [psd(x, n)] windows [x] causally along the
    time axis ([n - 1] leading zero frames, no look-ahead) and returns,
    for each bin, the matrix whose entry [(i, j)] is
    [x_frame[j] * conj(x_frame[i])]: the einsum writes its output as
    ["...mn"], with [m] the index of the conjugated operand. *)
Theorem psd_entries (x : tensor (complex K)) (B C T F : nat) (n : Z)
    (b c t f i j : nat) :
  shape x = [B; C; T; F] →
  1 <= n →
  (b < B)%nat → (c < C)%nat → (t < T)%nat → (f < F)%nat →
  (i < Z.to_nat n)%nat → (j < Z.to_nat n)%nat →
  ∃ R, psd x n = Some R
       ∧ shape R = [B; C; T; F; Z.to_nat n; Z.to_nat n]
       ∧ elem R [b; c; t; f; i; j]
         = Complex.cmul (Reference.frame (elem x) T n 0 b c t f j)
             (Complex.conj (Reference.frame (elem x) T n 0 b c t f i)).
Proof.
  intros Hshape Hn Hb Hc Ht Hf Hi Hj.
  destruct x as [s e]. cbn [shape] in Hshape. subst s.
  unfold psd, Reference.frame, pad. norm. repeat guard_true. norm.
  unfold unfold. norm. eval_dims. norm. guard_true. norm.
  unfold einsum_n_m_mn. norm. rewrite broadcast_shapes_same. norm.
  eexists; split; [reflexivity|]. norm. split.
  - repeat f_equal; try lia. rewrite Z.div_1_r. lia.
  - unfold bidx. norm. rewrite !bix_lt by (try rewrite Z.div_1_r; lia).
    change (Z.to_nat 1) with 1%nat. rewrite Nat.mul_1_r.
    rewrite (bool_decide_eq_true_2 (0 ≤ Z.of_nat f - 0 < Z.of_nat F)) by lia.
    replace (n - 1 - 0) with (n - 1) by lia.
    f_equal; [|f_equal];
      (case_bool_decide as Hc1; case_bool_decide as Hc2; try lia; norm;
       [|reflexivity]; repeat f_equal; lia).
Qed.
End Psd.

(** The specification's entry order,
    [entry (i, j) = x_frame[i] * conj(x_frame[j])], fails on the two-frame
    signal [1, i]: at [t = 1] the frame vector is [(1, i)], the code's
    entry [(0, 1)] is [i * conj(1) = i], the specification's is
    [1 * conj(i) = -i]. *)
Lemma psd_entry_order_counterexample :
  ¬ (∀ (x : Torch.tensor (complex Z)) (B C T F : nat) (n : Z) (b c t f i j : nat),
       Torch.shape x = [B; C; T; F] →
       1 <= n →
       (b < B)%nat → (c < C)%nat → (t < T)%nat → (f < F)%nat →
       (i < Z.to_nat n)%nat → (j < Z.to_nat n)%nat →
       ∃ R, MultiFrame.psd x n = Some R
            ∧ Torch.elem R [b; c; t; f; i; j]
              = Complex.cmul (Reference.frame (Torch.elem x) T n 0 b c t f i)
                  (Complex.conj (Reference.frame (Torch.elem x) T n 0 b c t f j))).
Proof.
  intros Hc.
  destruct (Hc Examples.signal_1_i 1%nat 1%nat 2%nat 1%nat 2
              0%nat 0%nat 1%nat 0%nat 0%nat 1%nat)
    as (R & HR & He); try (cbn; lia); try reflexivity.
  vm_compute in HR. injection HR as <-. vm_compute in He. discriminate He.
Qed.

(** ** [_tik_reg] *)

Section Sums.
Context {A : Type} (plus : A → A → A) (z : A).

Lemma sum_n_ext (n : nat) (f g : nat → A) :
  (∀ k, (k < n)%nat → f k = g k) → sum_n plus z n f = sum_n plus z n g.
Proof.
  induction n as [|n IH]; intros Hfg; [reflexivity|].
  cbn. rewrite IH by (intros; apply Hfg; lia). rewrite Hfg by lia. reflexivity.
Qed.
End Sums.

Section TikReg.
Import Torch MultiFrame.
Context {K : Type} `{Scalar K}.
Hypothesis Kring : ring_theory zero one add mul sub opp (@eq K).
Add Ring Kring_TikReg : Kring.

Lemma csum_zero (n : nat) : Complex.csum n (λ _, Complex.czero) = @Complex.czero K _.
Proof.
  induction n as [|n IH]; [reflexivity|].
  unfold Complex.csum in *. cbn. rewrite IH.
  unfold Complex.cadd, Complex.czero. cbn. f_equal; ring.
Qed.

(** C5.  For a square complex matrix [M], [_tik_reg(M, reg, eps)] is
    [M + (real(trace(M)) * reg + eps) * I], entry by entry; for the zero
    matrix it is [eps * I]: [eps] on the diagonal and zero elsewhere. *)
Theorem tik_reg_entries (mat : tensor (complex K)) (n : nat) (reg eps : K)
    (i j : nat) :
  shape mat = [n; n] →
  (i < n)%nat → (j < n)%nat →
  ∃ R, _tik_reg mat reg eps = Some R
       ∧ shape R = [n; n]
       ∧ elem R [i; j]
         = Complex.cadd (elem mat [i; j])
             (Complex.cmul
                (Complex.of_real
                   (Complex.re (Complex.csum n (λ k, elem mat [k; k])) * reg + eps)%K)
                (if bool_decide (i = j) then Complex.of_real one
                 else Complex.czero))
       ∧ ((∀ k l, (k < n)%nat → (l < n)%nat → elem mat [k; l] = Complex.czero) →
          elem R [i; j] = if bool_decide (i = j) then Complex.of_real eps
                          else Complex.czero).
Proof.
  intros Hshape Hi Hj.
  destruct mat as [s e]. cbn [shape] in Hshape. subst s.
  unfold _tik_reg, _compute_mat_trace, diagonal, Torch.sum, eye. run.
  rewrite !bdim_1_l. run. rewrite !bdim_same. run.
  eexists; split; [reflexivity|]. norm. split; [reflexivity|].
  unfold bidx. norm. rewrite !bix_lt by lia.
  rewrite Nat.min_id.
  split; [reflexivity|].
  intros Hz.
  rewrite Hz by lia.
  rewrite (sum_n_ext _ _ n _ (λ _, Complex.czero)) by (intros; apply Hz; lia).
  fold (@Complex.csum K _ n (λ _, Complex.czero)). rewrite csum_zero.
  case_bool_decide; unfold Complex.cadd, Complex.cmul, Complex.of_real,
    Complex.czero; cbn [Complex.re Complex.im]; f_equal; ring.
Qed.

(** The same on the per-bin matrices of a [B, C, T, F, n, n] tensor, the
    shape [psd] produces. *)
Lemma tik_reg_entries_batched (mat : tensor (complex K)) (B C T F n : nat)
    (reg eps : K) (b c t f i j : nat) :
  shape mat = [B; C; T; F; n; n] →
  (b < B)%nat → (c < C)%nat → (t < T)%nat → (f < F)%nat →
  (i < n)%nat → (j < n)%nat →
  ∃ R, _tik_reg mat reg eps = Some R
       ∧ shape R = [B; C; T; F; n; n]
       ∧ elem R [b; c; t; f; i; j]
         = Complex.cadd (elem mat [b; c; t; f; i; j])
             (Complex.cmul
                (Complex.of_real
                   (Complex.re (Complex.csum n (λ k, elem mat [b; c; t; f; k; k]))
                      * reg + eps)%K)
                (if bool_decide (i = j) then Complex.of_real one
                 else Complex.czero)).
Proof.
  intros Hshape Hb Hc Ht Hf Hi Hj.
  destruct mat as [s e]. cbn [shape] in Hshape. subst s.
  unfold _tik_reg, _compute_mat_trace, diagonal, Torch.sum, eye. run.
  rewrite !bdim_1_l. run. rewrite !bdim_same. run.
  eexists; split; [reflexivity|]. norm. split; [reflexivity|].
  unfold bidx. norm. rewrite !bix_lt by lia. rewrite ?bix_1. norm.
  rewrite Nat.min_id. reflexivity.
Qed.
End TikReg.

(** ** Row-major positions *)

Section Ravel.
Import Torch.

Lemma ravel_lt (shp idx : list nat) :
  valid shp idx → (ravel shp idx < numel shp)%nat.
Proof.
  unfold valid. intros Hv. induction Hv as [|i n idx shp Hi Hv IH]; [cbn; lia|].
  cbn [ravel]. change (numel (n :: shp)) with (n * numel shp)%nat.
  apply Nat.lt_le_trans with ((i + 1) * numel shp)%nat; [lia|].
  apply Nat.mul_le_mono_r. lia.
Qed.

Lemma unravel_ravel (shp idx : list nat) :
  valid shp idx → unravel shp (ravel shp idx) = idx.
Proof.
  unfold valid. intros Hv. induction Hv as [|i n idx shp Hi Hv IH]; [done|].
  cbn [ravel unravel].
  pose proof (ravel_lt shp idx Hv) as Hlt.
  assert (numel shp ≠ 0)%nat as Hnz by lia.
  rewrite Nat.div_add_l, Nat.div_small, Nat.add_0_r by lia.
  rewrite Nat.add_comm, Nat.Div0.mod_add, Nat.mod_small by lia.
  by rewrite IH.
Qed.

Lemma filter_neg1_of_nat (l : list nat) :
  filter (λ s : Z, s = -1) (map Z.of_nat l) = [].
Proof.
  induction l as [|n l IH]; [done|]. cbn [map].
  rewrite filter_cons_False by lia. exact IH.
Qed.

Lemma foldr_known_of_nat (l : list nat) :
  foldr (λ (s : Z) (p : nat), if s =? -1 then p else (Z.to_nat s * p)%nat) 1%nat
    (map Z.of_nat l) = numel l.
Proof.
  induction l as [|n l IH]; [done|]. cbn [map foldr].
  destruct (Z.eqb_spec (Z.of_nat n) (-1)) as [|_]; [lia|].
  rewrite IH, Nat2Z.id. reflexivity.
Qed.

(** The sizes [(a, -1, rest...)] on [a * m * numel rest] elements: the
    inferred size is [m]. *)
Lemma view_shape_infer (a m n : nat) (rest : list nat) :
  n = (a * m * numel rest)%nat →
  (a * numel rest ≠ 0)%nat →
  view_shape n (Z.of_nat a :: -1 :: map Z.of_nat rest) = Some (a :: m :: rest).
Proof.
  intros Hn Hnz. unfold view_shape.
  rewrite bool_decide_eq_true_2.
  2:{ apply Forall_cons_2; [lia|]. apply Forall_cons_2; [lia|].
      apply Forall_forall. intros z Hz. apply list_elem_of_In, in_map_iff in Hz.
      destruct Hz as (k & <- & _). lia. }
  cbn [foldr]. destruct (Z.eqb_spec (Z.of_nat a) (-1)) as [|_]; [lia|].
  change (-1 =? -1) with true. cbn iota. rewrite foldr_known_of_nat.
  rewrite filter_cons_False by lia. rewrite filter_cons_True by done.
  rewrite filter_neg1_of_nat. cbn [length].
  rewrite Nat2Z.id. assert (n = m * (a * numel rest))%nat as -> by lia.
  rewrite bool_decide_eq_true_2.
  2:{ split; [lia|]. apply Nat.Div0.mod_mul. }
  cbn [map]. change (-1 =? -1) with true. cbn iota.
  rewrite Nat.div_mul by lia.
  destruct (Z.eqb_spec (Z.of_nat a) (-1)) as [|_]; [lia|].
  rewrite Nat2Z.id. do 3 f_equal.
  clear. induction rest as [|k rest IH]; [done|]. cbn [map].
  destruct (Z.eqb_spec (Z.of_nat k) (-1)) as [|_]; [lia|].
  rewrite Nat2Z.id, IH. done.
Qed.
End Ravel.

(** ** Stages of the [forward] computations *)

Section Stages.
Import Torch MultiFrame.
Context {K : Type} `{Scalar K}.

Lemma view_as_complex_pairs (x : tensor K) (s : list nat) :
  shape x = s ++ [2%nat] →
  ∃ y, view_as_complex x = Some y
       ∧ shape y = s
       ∧ ∀ idx, length idx = length s → elem y idx = Reference.bin x idx.
Proof.
  intros Hs. unfold view_as_complex, rank. rewrite Hs, last_snoc. cbn.
  rewrite removelast_last, length_app. cbn.
  eexists; split; [reflexivity|]. split; [reflexivity|].
  intros idx Hlen. cbn. unfold Reference.bin.
  replace (length s + 1 - 1)%nat with (length idx) by lia.
  rewrite firstn_all. reflexivity.
Qed.

(** [spec_u.narrow(-2, 0, num_freqs)] on a frame stack. *)
Lemma narrow_freq {A} (u : tensor A) (B C T F N nf : nat) :
  shape u = [B; C; T; F; N] →
  (nf ≤ F)%nat →
  ∃ v, narrow (-2) 0 (Z.of_nat nf) u = Some v
       ∧ shape v = [B; C; T; nf; N]
       ∧ ∀ b c t f n, elem v [b; c; t; f; n] = elem u [b; c; t; f; n].
Proof.
  intros Hs Hnf. destruct u as [s e]. cbn [shape] in Hs. subst s.
  run. change (0 <? 0) with false. cbn iota. guard_true. rewrite Nat2Z.id.
  eexists; split; [reflexivity|]. split; [reflexivity|].
  intros b c t f n. norm. reflexivity.
Qed.

(** [coefs.view(B, -1, N, T, F)] splits the channel axis of the
    coefficients: channel [c * N + n] holds tap [n] of channel [c]. *)
Lemma view_coefs {A} (x : tensor A) (B C N T F : nat) :
  shape x = [B; (C * N)%nat; T; F] →
  (0 < B)%nat → (0 < N)%nat → (0 < T)%nat → (0 < F)%nat →
  ∃ v, view (Z.of_nat B :: -1 :: Z.of_nat N :: map Z.of_nat (drop 2 (shape x))) x
       = Some v
       ∧ shape v = [B; C; N; T; F]
       ∧ ∀ b c n t f,
           (b < B)%nat → (c < C)%nat → (n < N)%nat → (t < T)%nat → (f < F)%nat →
           elem v [b; c; n; t; f] = elem x [b; (c * N + n)%nat; t; f].
Proof.
  intros Hs HB HN HT HF. destruct x as [s e]. cbn [shape] in Hs. subst s.
  unfold view. cbn [shape drop].
  change (Z.of_nat N :: map Z.of_nat [T; F]) with (map Z.of_nat [N; T; F]).
  rewrite (view_shape_infer B C _ [N; T; F]).
  2:{ cbn. lia. }
  2:{ cbn. nia. }
  cbn [mbind option_bind]. eexists; split; [reflexivity|].
  split; [reflexivity|].
  intros b c n t f Hb Hc Hn Ht Hf. cbn [elem].
  replace (ravel [B; C; N; T; F] [b; c; n; t; f])
    with (ravel [B; (C * N)%nat; T; F] [b; (c * N + n)%nat; t; f])
    by (cbn; lia).
  rewrite unravel_ravel; [reflexivity|].
  unfold valid. repeat (apply Forall2_cons_2; [try lia|]); [nia|constructor].
Qed.

Lemma csum_ext (n : nat) (f g : nat → complex K) :
  (∀ k, (k < n)%nat → f k = g k) → Complex.csum n f = Complex.csum n g.
Proof. apply sum_n_ext. Qed.

(** [df]: the contraction ["...tfn,...ntf->...tf"] on a frame stack and
    the coefficient taps. *)
Lemma df_taps (spec coefs : tensor (complex K)) (B C T F N : nat) :
  shape spec = [B; C; T; F; N] →
  shape coefs = [B; C; N; T; F] →
  ∃ v, df spec coefs = Some v
       ∧ shape v = [B; C; T; F]
       ∧ ∀ b c t f,
           (b < B)%nat → (c < C)%nat → (t < T)%nat → (f < F)%nat →
           elem v [b; c; t; f]
           = Complex.csum N (λ n, Complex.cmul (elem spec [b; c; t; f; n])
                                    (elem coefs [b; c; n; t; f])).
Proof.
  intros Hs Hc. destruct spec as [s e]. destruct coefs as [s' e'].
  cbn [shape] in Hs, Hc. subst s s'.
  unfold df, einsum_tfn_ntf. norm. rewrite !bdim_same. norm.
  rewrite broadcast_shapes_same. norm.
  eexists; split; [reflexivity|]. split; [reflexivity|].
  intros b c t f Hb Hc Ht Hf. norm. unfold bidx. norm.
  apply csum_ext. intros k Hk. rewrite !bix_lt by lia. reflexivity.
Qed.
End Stages.

(** ** Writing the filtered band back *)

Section WriteBack.
Import Torch MultiFrame.
Context {K : Type} `{Scalar K}.

Lemma slice_stop_le (n len : nat) : (n ≤ len)%nat → slice_stop (Z.of_nat n) len = n.
Proof.
  intros Hn. unfold slice_stop. destruct (Z.ltb_spec (Z.of_nat n) 0); lia.
Qed.

Lemma expandable_same (s : list nat) : expandable s s = true.
Proof.
  unfold expandable. rewrite Nat.sub_diag. cbn [strip_ones].
  replace (strip_ones 0 s) with s by (by destruct s).
  rewrite Nat.sub_diag. cbn [drop]. apply bool_decide_eq_true_2.
  split; [done|]. induction s; constructor; auto.
Qed.

(** [spec[..., : nf, :] = v] on a spectrogram of (real, imag) pairs. *)
Lemma setitem_band (x v : tensor K) (B C T F nf : nat) :
  shape x = [B; C; T; F; 2%nat] →
  shape v = [B; C; T; nf; 2%nat] →
  (nf ≤ F)%nat →
  ∃ y, setitem_prefix2 (Z.of_nat nf) v x = Some y
       ∧ shape y = [B; C; T; F; 2%nat]
       ∧ ∀ b c t f k,
           (b < B)%nat → (c < C)%nat → (t < T)%nat → (f < F)%nat → (k < 2)%nat →
           elem y [b; c; t; f; k]
           = if bool_decide (f < nf)%nat then elem v [b; c; t; f; k]
             else elem x [b; c; t; f; k].
Proof.
  intros Hx Hv Hnf. destruct x as [s e]. destruct v as [s' e'].
  cbn [shape] in Hx, Hv. subst s s'.
  unfold setitem_prefix2. norm. guard_true. norm.
  rewrite slice_stop_le by done. rewrite expandable_same.
  eexists; split; [reflexivity|]. split; [reflexivity|].
  intros b c t f k Hb Hc Ht Hf Hk. norm.
  case_bool_decide; [|reflexivity].
  unfold vidx, bidx. norm.
  rewrite !bix_lt by lia. reflexivity.
Qed.

(** The last three statements of [DF.forward], [MfWf.forward] and
    [MfMvdr.forward]: in training mode the spectrogram is cloned and the
    clone is written and returned, otherwise the argument itself. *)
Lemma write_back_spec (mode : bool) (nf : Z) (σ : gmap nat (tensor K))
    (spec : nat) (x v y : tensor K) :
  σ !! spec = Some x →
  setitem_prefix2 nf v x = Some y →
  ∃ σ' out,
    ('(σ0, spec0) ← (if mode then clone_obj σ spec else Some (σ, spec));
     σ1 ← setitem_obj σ0 spec0 nf v;
     Some (σ1, spec0))
    = Some (σ', out)
    ∧ σ' !! out = Some y
    ∧ (if mode
       then (out ∉ dom σ) ∧ (∀ l, l ≠ out → σ' !! l = σ !! l)
       else out = spec ∧ σ' = <[spec := y]> σ).
Proof.
  intros Hx Hy. destruct mode.
  - unfold clone_obj. rewrite Hx. cbn [mbind option_bind].
    unfold setitem_obj. rewrite lookup_insert_eq. cbn [mbind option_bind].
    replace (clone x) with x by (by destruct x). rewrite Hy.
    cbn [mbind option_bind]. eexists _, _. split; [reflexivity|].
    split; [by rewrite lookup_insert_eq|]. split; [apply is_fresh|].
    intros l Hl. by rewrite !lookup_insert_ne.
  - cbn [mbind option_bind]. unfold setitem_obj. rewrite Hx.
    cbn [mbind option_bind]. rewrite Hy. cbn [mbind option_bind].
    eexists _, _. split; [reflexivity|].
    split; [by rewrite lookup_insert_eq|]. done.
Qed.
End WriteBack.

(** ** [DF.forward] *)

Section DFForward.
Import Torch MultiFrame.
Context {K : Type} `{Scalar K}.

(** C7.  For a [DF] module (in either mode) with
    [0 <= lookahead < frame_size = N], a spectrogram of shape
    [B, C, T, F, 2] and coefficients of shape [B, C * N, T, nf, 2],
    [forward] returns a spectrogram whose bin [(b, c, t, f)], [f < nf],
    is the sum over the frame index [n] of [window[n] * coef[n]]: the
    window is the frame stack of [spec_unfold], tap [n] of channel [c] is
    coefficient channel [c * N + n], and the taps are conjugated exactly
    when the module was built with [conj = True]. *)
Theorem DF_forward_taps (m : DF) (mode : bool) (σ : gmap nat (tensor K))
    (spec coefs : nat) (X Cf : tensor K) (B C T F N nf : nat) (la : Z)
    (conj : bool) (b c t f : nat) :
  DF_init (Z.of_nat nf) (Z.of_nat N) la conj = Some m →
  0 <= la < Z.of_nat N →
  (nf ≤ F)%nat →
  σ !! spec = Some X → shape X = [B; C; T; F; 2%nat] →
  σ !! coefs = Some Cf → shape Cf = [B; (C * N)%nat; T; nf; 2%nat] →
  (b < B)%nat → (c < C)%nat → (t < T)%nat → (f < nf)%nat →
  ∃ σ' out Y,
    DF_forward (DF_train mode m) σ spec coefs = Some (σ', out)
    ∧ σ' !! out = Some Y
    ∧ shape Y = [B; C; T; F; 2%nat]
    ∧ Reference.bin Y [b; c; t; f]
      = Complex.csum N (λ n,
          Complex.cmul
            (Reference.frame (Reference.bin X) T (Z.of_nat N) la b c t f n)
            ((if conj then Complex.conj else id)
               (Reference.bin Cf [b; (c * N + n)%nat; t; f]))).
Proof.
  intros Hinit Hla Hnf HX HsX HCf HsCf Hb Hc Ht Hf.
  unfold DF_init in Hinit. cbn [mbind option_bind] in Hinit.
  destruct (MultiFrameModule_init (Z.of_nat nf) (Z.of_nat N) la false)
    as [base|] eqn:Hbase; [|discriminate]. injection Hinit as <-.
  unfold DF_forward. cbn [DF_train DF_base DF_conj]. rewrite HX, HCf.
  cbn [mbind option_bind].
  destruct (view_as_complex_pairs X [B; C; T; F] HsX) as (Xc & -> & HsXc & HeXc).
  cbn [mbind option_bind].
  destruct (spec_unfold_stack base Xc B C T F _ _ la Hbase HsXc Hla)
    as (U & HU & HsU & HeU); [lia|].
  replace (spec_unfold (set_training mode base) Xc) with (spec_unfold base Xc)
    by reflexivity.
  rewrite HU. cbn [mbind option_bind].
  destruct (view_as_complex_pairs Cf [B; (C * N)%nat; T; nf] HsCf)
    as (Cc & -> & HsCc & HeCc).
  cbn [mbind option_bind].
  rewrite Nat2Z.id in HsU.
  replace (num_freqs (set_training mode base)) with (Z.of_nat nf)
    by (by injection Hbase as <-).
  replace (frame_size (set_training mode base)) with (Z.of_nat N)
    by (by injection Hbase as <-).
  destruct (narrow_freq U B C T F N nf HsU Hnf) as (Sf & -> & HsSf & HeSf).
  cbn [mbind option_bind].
  replace (shape Cc !! 0%nat) with (Some B) by (by rewrite HsCc).
  cbn [mbind option_bind].
  destruct (view_coefs Cc B C N T nf HsCc) as (Cv & -> & HsCv & HeCv);
    [lia..|].
  cbn [mbind option_bind].
  set (Cj := if conj then Torch.conj Cv else Cv).
  assert (HsCj : shape Cj = [B; C; N; T; nf]) by (subst Cj; by destruct conj).
  destruct (df_taps Sf Cj B C T nf N HsSf HsCj) as (V & -> & HsV & HeV).
  cbn [mbind option_bind].
  replace (training (set_training mode base)) with mode by reflexivity.
  destruct (setitem_band X (view_as_real V) B C T F nf HsX) as (Y & HY & HsY & HeY);
    [cbn; by rewrite HsV | done |].
  destruct (write_back_spec mode (Z.of_nat nf) σ spec X (view_as_real V) Y HX HY)
    as (σ' & out & -> & Hout & _).
  exists σ', out, Y. split; [reflexivity|]. split; [exact Hout|].
  split; [exact HsY|].
  unfold Reference.bin at 1. cbn [app].
  rewrite !HeY by lia. rewrite !bool_decide_eq_true_2 by lia.
  cbn [view_as_real elem]. unfold rank. rewrite HsV. norm.
  rewrite bool_decide_eq_true_2 by done. rewrite bool_decide_eq_false_2 by done.
  rewrite HeV by lia.
  transitivity (Complex.csum N (λ n,
      Complex.cmul
        (Reference.frame (Reference.bin X) T (Z.of_nat N) la b c t f n)
        ((if conj then Complex.conj else id)
           (Reference.bin Cf [b; (c * N + n)%nat; t; f])))).
  2: reflexivity.
  destruct (Complex.csum N _) as [re im] eqn:Hsum. cbn [Complex.re Complex.im].
  rewrite <- Hsum. apply csum_ext. intros n Hn.
  rewrite HeSf, HeU by lia.
  f_equal.
  - unfold Reference.frame. case_bool_decide; [|reflexivity].
    apply HeXc. reflexivity.
  - subst Cj. destruct conj; cbn [Torch.conj map1 elem];
      rewrite HeCv by lia; rewrite HeCc by reflexivity; reflexivity.
Qed.
End DFForward.

(** ** Stages of [MfWf.forward] and [MfMvdr.forward] *)

Section MatrixStages.
Import Torch MultiFrame.
Context {K : Type} `{Scalar K}.

Lemma view_shape_exact (l : list nat) (n : nat) :
  n = numel l → view_shape n (map Z.of_nat l) = Some l.
Proof.
  intros ->. unfold view_shape.
  rewrite bool_decide_eq_true_2.
  2:{ apply Forall_forall. intros z Hz. apply list_elem_of_In, in_map_iff in Hz.
      destruct Hz as (k & <- & _). lia. }
  rewrite filter_neg1_of_nat, foldr_known_of_nat. cbn [length].
  rewrite bool_decide_eq_true_2 by done. f_equal.
  induction l as [|k l IH]; [done|]. cbn [map]. by rewrite Nat2Z.id, IH.
Qed.

(** [ifc.unflatten(3, (N, 2))]. *)
Lemma unflatten_pairs {A} (x : tensor A) (Bi T F N : nat) :
  shape x = [Bi; T; F; (N * 2)%nat] →
  ∃ y, unflatten 3 [Z.of_nat N; 2] x = Some y
       ∧ shape y = [Bi; T; F; N; 2%nat]
       ∧ ∀ i t f n k,
           (i < Bi)%nat → (t < T)%nat → (f < F)%nat → (n < N)%nat → (k < 2)%nat →
           elem y [i; t; f; n; k] = elem x [i; t; f; (n * 2 + k)%nat].
Proof.
  intros Hs. destruct x as [s e]. cbn [shape] in Hs. subst s.
  unfold unflatten. norm. eval_dims. norm.
  change [Z.of_nat N; 2] with (map Z.of_nat [N; 2%nat]).
  rewrite view_shape_exact by (cbn; lia). norm.
  eexists; split; [reflexivity|]. split; [reflexivity|].
  intros i t f n k Hi Ht Hf Hn Hk. norm.
  replace (ravel [Bi; T; F; N; 2%nat] [i; t; f; n; k])
    with (ravel [Bi; T; F; (N * 2)%nat] [i; t; f; (n * 2 + k)%nat])
    by (cbn; lia).
  rewrite unravel_ravel; [reflexivity|].
  unfold valid. repeat (apply Forall2_cons_2; [lia|]). constructor.
Qed.

(** [iRnn.unflatten(3, (N, N, 2))]. *)
Lemma unflatten_matrix {A} (x : tensor A) (Bi T F N : nat) :
  shape x = [Bi; T; F; (N * N * 2)%nat] →
  ∃ y, unflatten 3 [Z.of_nat N; Z.of_nat N; 2] x = Some y
       ∧ shape y = [Bi; T; F; N; N; 2%nat]
       ∧ ∀ i t f a b k,
           (i < Bi)%nat → (t < T)%nat → (f < F)%nat →
           (a < N)%nat → (b < N)%nat → (k < 2)%nat →
           elem y [i; t; f; a; b; k] = elem x [i; t; f; ((a * N + b) * 2 + k)%nat].
Proof.
  intros Hs. destruct x as [s e]. cbn [shape] in Hs. subst s.
  unfold unflatten. norm. eval_dims. norm.
  change [Z.of_nat N; Z.of_nat N; 2] with (map Z.of_nat [N; N; 2%nat]).
  rewrite view_shape_exact by (cbn; lia). norm.
  eexists; split; [reflexivity|]. split; [reflexivity|].
  intros i t f a b k Hi Ht Hf Ha Hb Hk. norm.
  replace (ravel [Bi; T; F; N; N; 2%nat] [i; t; f; a; b; k])
    with (ravel [Bi; T; F; (N * N * 2)%nat] [i; t; f; ((a * N + b) * 2 + k)%nat])
    by (cbn; lia).
  rewrite unravel_ravel; [reflexivity|].
  unfold valid. repeat (apply Forall2_cons_2; [try lia|]); [nia|constructor].
Qed.

(** ["...nm,...m->...n"] on per-bin matrices and vectors. *)
Lemma einsum_matvec (a v : tensor (complex K)) (Bi T F N : nat) :
  shape a = [Bi; T; F; N; N] →
  shape v = [Bi; T; F; N] →
  ∃ w, einsum_nm_m a v = Some w
       ∧ shape w = [Bi; T; F; N]
       ∧ ∀ i t f n,
           (i < Bi)%nat → (t < T)%nat → (f < F)%nat →
           elem w [i; t; f; n]
           = Reference.matvec N (λ p q, elem a [i; t; f; p; q])
               (λ q, elem v [i; t; f; q]) n.
Proof.
  intros Ha Hv. destruct a as [s e]. destruct v as [s' e'].
  cbn [shape] in Ha, Hv. subst s s'.
  unfold einsum_nm_m. norm. rewrite !bdim_same. norm.
  rewrite broadcast_shapes_same. norm.
  eexists; split; [reflexivity|]. split; [reflexivity|].
  intros i t f n Hi Ht Hf. norm. unfold bidx, Reference.matvec. norm.
  apply csum_ext. intros k Hk. rewrite !bix_lt by lia. reflexivity.
Qed.

(** ["...n,...n->..."] on per-bin vectors of the same batch shape. *)
Lemma einsum_dot (a v : tensor (complex K)) (Bi T F N : nat) :
  shape a = [Bi; T; F; N] →
  shape v = [Bi; T; F; N] →
  ∃ w, einsum_n_n a v = Some w
       ∧ shape w = [Bi; T; F]
       ∧ ∀ i t f,
           (i < Bi)%nat → (t < T)%nat → (f < F)%nat →
           elem w [i; t; f]
           = Reference.dotc N (λ n, elem a [i; t; f; n]) (λ n, elem v [i; t; f; n]).
Proof.
  intros Ha Hv. destruct a as [s e]. destruct v as [s' e'].
  cbn [shape] in Ha, Hv. subst s s'.
  unfold einsum_n_n. norm. rewrite !bdim_same. norm.
  rewrite broadcast_shapes_same. norm.
  eexists; split; [reflexivity|]. split; [reflexivity|].
  intros i t f Hi Ht Hf. norm. unfold bidx, Reference.dotc. norm.
  apply csum_ext. intros k Hk. rewrite !bix_lt by lia. reflexivity.
Qed.

(** [apply_coefs] on a frame stack [B, C, T, F, N] and weights
    [Bi, T, F, N]: the batch axis of the weights is aligned with the
    channel axis of the stack. *)
Lemma apply_coefs_weights (spec w : tensor (complex K)) (B C T F N Bi : nat) :
  shape spec = [B; C; T; F; N] →
  shape w = [Bi; T; F; N] →
  Bi = 1%nat ∨ Bi = C →
  ∃ v, apply_coefs spec w = Some v
       ∧ shape v = [B; C; T; F]
       ∧ ∀ b c t f,
           (b < B)%nat → (c < C)%nat → (t < T)%nat → (f < F)%nat →
           elem v [b; c; t; f]
           = Complex.csum N (λ n, Complex.cmul (elem spec [b; c; t; f; n])
                                    (elem w [bix Bi c; t; f; n])).
Proof.
  intros Hs Hw HBi. destruct spec as [s e]. destruct w as [s' e'].
  cbn [shape] in Hs, Hw. subst s s'.
  unfold apply_coefs, einsum_n_n. norm. rewrite !bdim_same. norm.
  unfold broadcast_shapes. norm. rewrite !bdim_same. norm.
  assert (bdim C Bi = Some C) as ->
    by (destruct HBi as [-> | ->]; [apply bdim_1_r|apply bdim_same]).
  norm.
  eexists; split; [reflexivity|]. split; [reflexivity|].
  intros b c t f Hb Hc Ht Hf. norm. unfold bidx. norm.
  apply csum_ext. intros k Hk. rewrite !bix_lt by lia. reflexivity.
Qed.
End MatrixStages.

Section WeightStages.
Import Torch MultiFrame.
Context {K : Type} `{Scalar K}.

Lemma unsqueeze_last3 {A} (x : tensor A) (Bi T F : nat) :
  shape x = [Bi; T; F] →
  ∃ d, unsqueeze (-1) x = Some d
       ∧ shape d = [Bi; T; F; 1%nat]
       ∧ ∀ i t f k, elem d [i; t; f; k] = elem x [i; t; f].
Proof.
  intros Hs. destruct x as [s e]. cbn [shape] in Hs. subst s. run.
  eexists; split; [reflexivity|]. split; [reflexivity|]. done.
Qed.

(** [numerator / d] with [d] of shape [Bi, T, F, 1]. *)
Lemma map2_last_broadcast {A B C} (g : A → B → C) (a : tensor A) (d : tensor B)
    (Bi T F N : nat) :
  shape a = [Bi; T; F; N] →
  shape d = [Bi; T; F; 1%nat] →
  ∃ w, map2 g a d = Some w
       ∧ shape w = [Bi; T; F; N]
       ∧ ∀ i t f n,
           (i < Bi)%nat → (t < T)%nat → (f < F)%nat → (n < N)%nat →
           elem w [i; t; f; n] = g (elem a [i; t; f; n]) (elem d [i; t; f; 0%nat]).
Proof.
  intros Ha Hd. destruct a as [s e]. destruct d as [s' e'].
  cbn [shape] in Ha, Hd. subst s s'.
  unfold map2, broadcast_shapes. norm. rewrite bdim_1_r, !bdim_same. norm.
  eexists; split; [reflexivity|]. split; [reflexivity|].
  intros i t f n Hi Ht Hf Hn. unfold bidx. norm.
  rewrite !bix_lt by lia. rewrite bix_1. reflexivity.
Qed.

Lemma matvec_ext (N : nat) (m m' : nat → nat → complex K) (v v' : nat → complex K)
    (i : nat) :
  (∀ j, (j < N)%nat → m i j = m' i j) →
  (∀ j, (j < N)%nat → v j = v' j) →
  Reference.matvec N m v i = Reference.matvec N m' v' i.
Proof.
  intros Hm Hv. unfold Reference.matvec. apply csum_ext. intros j Hj.
  by rewrite Hm, Hv.
Qed.

Lemma dotc_ext (N : nat) (v v' w w' : nat → complex K) :
  (∀ j, (j < N)%nat → v j = v' j) →
  (∀ j, (j < N)%nat → w j = w' j) →
  Reference.dotc N v w = Reference.dotc N v' w'.
Proof.
  intros Hv Hw. unfold Reference.dotc. apply csum_ext. intros j Hj.
  by rewrite Hv, Hw.
Qed.
End WeightStages.

(** ** The MVDR weights *)

Section MvdrAlgebra.
Context {K : Type} `{Scalar K} `{Division K}.
Hypothesis Kfield : field_theory zero one add mul sub opp div inv (@eq K).
Add Field Kfield_Mvdr : Kfield.

(** Dividing every term of an inner product by a real [r]. *)
Lemma csum_cdiv_real (k : nat) (a b : nat → complex K) (r : K) :
  r ≠ zero →
  Complex.csum k (λ n, Complex.cmul (a n) (Complex.cdiv (b n) (Complex.of_real r)))
  = Complex.cdiv (Complex.csum k (λ n, Complex.cmul (a n) (b n))) (Complex.of_real r).
Proof.
  intros Hr. unfold Complex.csum. induction k as [|k IH].
  - cbn. unfold Complex.cdiv, Complex.czero, Complex.of_real.
    cbn [Complex.re Complex.im]. f_equal; field; auto.
  - cbn [sum_n]. rewrite IH.
    unfold Complex.cdiv, Complex.cadd, Complex.cmul, Complex.of_real.
    cbn [Complex.re Complex.im]. f_equal; field; auto.
Qed.

(** The inner product of [conj(ifc)] with the MVDR weight is the
    quadratic form [d = conj(ifc) . iRnn . ifc] over [Re d + eps]; when
    [d] is real, as it is for a Hermitian [iRnn], it misses 1 by exactly
    [eps / (d + eps)]. *)
Lemma mvdr_distortionless (N : nat) (eps : K) (iRnn : nat → nat → complex K)
    (ifc : nat → complex K) :
  let d := Reference.dotc N (λ k, Complex.conj (ifc k)) (Reference.matvec N iRnn ifc) in
  let g := Reference.dotc N (λ k, Complex.conj (ifc k))
             (Reference.mvdr_weight N eps iRnn ifc) in
  (Complex.re d + eps)%K ≠ zero →
  g = Complex.cdiv d (Complex.of_real (Complex.re d + eps)%K)
  ∧ (Complex.im d = zero →
     Complex.im g = zero
     ∧ (one - Complex.re g)%K = (eps / (Complex.re d + eps))%K).
Proof.
  intros d g Hr.
  assert (Hg : g = Complex.cdiv d (Complex.of_real (Complex.re d + eps)%K)).
  { subst g d. unfold Reference.dotc, Reference.mvdr_weight.
    apply csum_cdiv_real. exact Hr. }
  split; [exact Hg|]. intros Him. rewrite Hg.
  unfold Complex.cdiv, Complex.of_real. cbn [Complex.re Complex.im].
  rewrite Him. split; field; auto.
Qed.
End MvdrAlgebra.

(** ** [MfMvdr.forward] *)

Section MvdrForward.
Import Torch MultiFrame.
Context {K : Type} `{Scalar K} `{Division K}.
Hypothesis Kfield : field_theory zero one add mul sub opp div inv (@eq K).

(** C6.  For an [MfMvdr] module with [0 <= lookahead < frame_size = N], a
    spectrogram [B, C, T, F, 2], an inter-frame correlation vector
    [Bi, T, nf, N * 2] and an inverse noise covariance
    [Bi, T, nf, N * N * 2] (each the flattened (real, imag) pairs of a
    vector and of a row-major matrix per bin; [Bi] is 1 or [C], the
    statistics of bin [(b, c, t, f)] being those at [(c, t, f)], or at
    [(0, t, f)] for [Bi = 1]):
    [forward] returns a spectrogram whose bin [(b, c, t, f)], [f < nf],
    is [sum_n window[n] * w[n]] with
    [w = numerator / (Re(conj(ifc) . numerator) + eps)] and
    [numerator = iRnn . ifc].  When the denominator is not zero and the
    quadratic form [d = conj(ifc) . iRnn . ifc] is real, the weight
    satisfies [conj(ifc) . w = d / (d + eps)]: it misses the
    distortionless value 1 by [eps / (d + eps)]. *)
Theorem MfMvdr_forward_weights (m : MfMvdr K) (mode : bool)
    (σ : gmap nat (tensor K)) (spec ifc iRnn : nat) (X Ifc IRnn : tensor K)
    (B C T F N nf Bi : nat) (la : Z) (eps : K) (b c t f : nat) :
  MfMvdr_init (Z.of_nat nf) (Z.of_nat N) la eps = Some m →
  0 <= la < Z.of_nat N →
  (nf ≤ F)%nat →
  σ !! spec = Some X → shape X = [B; C; T; F; 2%nat] →
  σ !! ifc = Some Ifc → shape Ifc = [Bi; T; nf; (N * 2)%nat] →
  σ !! iRnn = Some IRnn → shape IRnn = [Bi; T; nf; (N * N * 2)%nat] →
  Bi = 1%nat ∨ Bi = C →
  (b < B)%nat → (c < C)%nat → (t < T)%nat → (f < nf)%nat →
  let vec := λ n, Reference.pair_at Ifc [bix Bi c; t; f] n in
  let mat := λ p q, Reference.pair_at IRnn [bix Bi c; t; f] (p * N + q)%nat in
  let w := Reference.mvdr_weight N eps mat vec in
  let d := Reference.dotc N (λ k, Complex.conj (vec k)) (Reference.matvec N mat vec) in
  let g := Reference.dotc N (λ k, Complex.conj (vec k)) w in
  (∃ σ' out Y,
     MfMvdr_forward (MfMvdr_train mode m) σ spec ifc iRnn = Some (σ', out)
     ∧ σ' !! out = Some Y
     ∧ shape Y = [B; C; T; F; 2%nat]
     ∧ Reference.bin Y [b; c; t; f]
       = Complex.csum N (λ n,
           Complex.cmul
             (Reference.frame (Reference.bin X) T (Z.of_nat N) la b c t f n)
             (w n)))
  ∧ ((Complex.re d + eps)%K ≠ zero → Complex.im d = zero →
     Complex.im g = zero
     ∧ (one - Complex.re g)%K = (eps / (Complex.re d + eps))%K).
Proof.
  intros Hinit Hla Hnf HX HsX HIfc HsIfc HIR HsIR HBi Hb Hc Ht Hf vec mat w d g.
  split.
  2:{ intros Hr Him.
      by destruct (mvdr_distortionless Kfield N eps mat vec Hr) as [_ Hd]; apply Hd. }
  assert (Hi : (bix Bi c < Bi)%nat).
  { destruct HBi as [-> | ->]; [rewrite bix_1; lia|by rewrite bix_lt]. }
  unfold MfMvdr_init in Hinit. cbn [mbind option_bind] in Hinit.
  destruct (MultiFrameModule_init (Z.of_nat nf) (Z.of_nat N) la false)
    as [base|] eqn:Hbase; [|discriminate]. injection Hinit as <-.
  unfold MfMvdr_forward. cbn [MfMvdr_train MfMvdr_base MfMvdr_eps].
  rewrite HX, HIfc, HIR. cbn [mbind option_bind].
  destruct (view_as_complex_pairs X [B; C; T; F] HsX) as (Xc & -> & HsXc & HeXc).
  cbn [mbind option_bind].
  destruct (spec_unfold_stack base Xc B C T F _ _ la Hbase HsXc Hla)
    as (U & HU & HsU & HeU); [lia|].
  replace (spec_unfold (set_training mode base) Xc) with (spec_unfold base Xc)
    by reflexivity.
  rewrite HU. cbn [mbind option_bind]. rewrite Nat2Z.id in HsU.
  replace (num_freqs (set_training mode base)) with (Z.of_nat nf)
    by (by injection Hbase as <-).
  replace (frame_size (set_training mode base)) with (Z.of_nat N)
    by (by injection Hbase as <-).
  destruct (unflatten_matrix IRnn Bi T nf N HsIR) as (Ru & -> & HsRu & HeRu).
  cbn [mbind option_bind].
  destruct (view_as_complex_pairs Ru [Bi; T; nf; N; N] HsRu)
    as (Rc & -> & HsRc & HeRc).
  cbn [mbind option_bind].
  destruct (unflatten_pairs Ifc Bi T nf N HsIfc) as (Iu & -> & HsIu & HeIu).
  cbn [mbind option_bind].
  destruct (view_as_complex_pairs Iu [Bi; T; nf; N] HsIu)
    as (Ic & -> & HsIc & HeIc).
  cbn [mbind option_bind].
  destruct (narrow_freq U B C T F N nf HsU Hnf) as (Sf & -> & HsSf & HeSf).
  cbn [mbind option_bind].
  destruct (einsum_matvec Rc Ic Bi T nf N HsRc HsIc) as (Num & -> & HsNum & HeNum).
  cbn [mbind option_bind].
  destruct (einsum_dot (Torch.conj Ic) Num Bi T nf N) as (Den & -> & HsDen & HeDen);
    [done | done |].
  cbn [mbind option_bind].
  destruct (unsqueeze_last3 (Torch.real Den) Bi T nf) as (D & -> & HsD & HeD);
    [done|].
  cbn [mbind option_bind].
  destruct (map2_last_broadcast
              (λ (a : complex K) (r : K), Complex.cdiv a (Complex.of_real r))
              Num (map1 (λ x, x + eps)%K D) Bi T nf N HsNum)
    as (W & -> & HsW & HeW); [done|].
  cbn [mbind option_bind].
  destruct (apply_coefs_weights Sf W B C T nf N Bi HsSf HsW HBi)
    as (V & -> & HsV & HeV).
  cbn [mbind option_bind].
  replace (training (set_training mode base)) with mode by reflexivity.
  destruct (setitem_band X (view_as_real V) B C T F nf HsX) as (Y & HY & HsY & HeY);
    [cbn; by rewrite HsV | done |].
  destruct (write_back_spec mode (Z.of_nat nf) σ spec X (view_as_real V) Y HX HY)
    as (σ' & out & -> & Hout & _).
  exists σ', out, Y. split; [reflexivity|]. split; [exact Hout|].
  split; [exact HsY|].
  unfold Reference.bin at 1. cbn [app].
  rewrite !HeY by lia. rewrite !bool_decide_eq_true_2 by lia.
  cbn [view_as_real elem]. unfold rank. rewrite HsV. norm.
  rewrite bool_decide_eq_true_2 by done. rewrite bool_decide_eq_false_2 by done.
  rewrite HeV by lia.
  transitivity (Complex.csum N (λ n,
      Complex.cmul
        (Reference.frame (Reference.bin X) T (Z.of_nat N) la b c t f n) (w n))).
  2: reflexivity.
  destruct (Complex.csum N _) as [re im] eqn:Hsum. cbn [Complex.re Complex.im].
  rewrite <- Hsum. apply csum_ext. intros n Hn.
  rewrite HeSf, HeU by lia.
  assert (Hvec : ∀ q, (q < N)%nat → elem Ic [bix Bi c; t; f; q] = vec q).
  { intros q Hq. rewrite HeIc by reflexivity. unfold Reference.bin. cbn [app].
    rewrite !HeIu by lia. subst vec. unfold Reference.pair_at. cbn [app].
    by rewrite Nat.add_0_r. }
  assert (Hmat : ∀ p q, (p < N)%nat → (q < N)%nat →
                   elem Rc [bix Bi c; t; f; p; q] = mat p q).
  { intros p q Hp Hq. rewrite HeRc by reflexivity. unfold Reference.bin. cbn [app].
    rewrite !HeRu by lia. subst mat. unfold Reference.pair_at. cbn [app].
    by rewrite Nat.add_0_r. }
  assert (Hnum : ∀ p, (p < N)%nat →
                   elem Num [bix Bi c; t; f; p] = Reference.matvec N mat vec p).
  { intros p Hp. rewrite HeNum by lia. apply matvec_ext; intros; auto. }
  f_equal.
  - unfold Reference.frame. case_bool_decide; [|reflexivity].
    apply HeXc. reflexivity.
  - rewrite HeW by lia. cbn [map1 elem]. rewrite HeD. cbn [Torch.real map1 elem].
    rewrite HeDen by lia. subst w. unfold Reference.mvdr_weight.
    rewrite Hnum by lia. do 4 f_equal.
    apply dotc_ext.
    + intros j Hj. cbn [Torch.conj map1 elem]. by rewrite Hvec.
    + intros j Hj. by apply Hnum.
Qed.
End MvdrForward.

(** ** [MfWf.forward] *)

Section MfWfForward.
Import Torch MultiFrame.
Context {K : Type} `{Scalar K}.

(** X1.  [MfWf.forward] on well-shaped arguments (a spectrogram
    [B, C, T, F, 2], an inter-frame correlation vector [Bi, T, nf, N * 2]
    and an inverse covariance [Bi, T, nf, N * N * 2], [Bi] being 1 or
    [C]): each bin below [num_freqs] becomes [sum_n window[n] * w[n]]
    with the Wiener weights [w = iRxx . ifc]. *)
Lemma MfWf_forward_weights (m : MfWf) (mode : bool)
    (σ : gmap nat (tensor K)) (spec ifc iRxx : nat) (X Ifc IRxx : tensor K)
    (B C T F N nf Bi : nat) (la : Z) (b c t f : nat) :
  MfWf_init (Z.of_nat nf) (Z.of_nat N) la = Some m →
  0 <= la < Z.of_nat N →
  (nf ≤ F)%nat →
  σ !! spec = Some X → shape X = [B; C; T; F; 2%nat] →
  σ !! ifc = Some Ifc → shape Ifc = [Bi; T; nf; (N * 2)%nat] →
  σ !! iRxx = Some IRxx → shape IRxx = [Bi; T; nf; (N * N * 2)%nat] →
  Bi = 1%nat ∨ Bi = C →
  (b < B)%nat → (c < C)%nat → (t < T)%nat → (f < nf)%nat →
  let vec := λ n, Reference.pair_at Ifc [bix Bi c; t; f] n in
  let mat := λ p q, Reference.pair_at IRxx [bix Bi c; t; f] (p * N + q)%nat in
  ∃ σ' out Y,
    MfWf_forward (MfWf_train mode m) σ spec ifc iRxx = Some (σ', out)
    ∧ σ' !! out = Some Y
    ∧ shape Y = [B; C; T; F; 2%nat]
    ∧ Reference.bin Y [b; c; t; f]
      = Complex.csum N (λ n,
          Complex.cmul
            (Reference.frame (Reference.bin X) T (Z.of_nat N) la b c t f n)
            (Reference.matvec N mat vec n)).
Proof.
  intros Hinit Hla Hnf HX HsX HIfc HsIfc HIR HsIR HBi Hb Hc Ht Hf vec mat.
  assert (Hi : (bix Bi c < Bi)%nat).
  { destruct HBi as [-> | ->]; [rewrite bix_1; lia|by rewrite bix_lt]. }
  unfold MfWf_init in Hinit. cbn [mbind option_bind] in Hinit.
  destruct (MultiFrameModule_init (Z.of_nat nf) (Z.of_nat N) la false)
    as [base|] eqn:Hbase; [|discriminate]. injection Hinit as <-.
  unfold MfWf_forward. cbn [MfWf_train MfWf_base].
  rewrite HX, HIfc, HIR. cbn [mbind option_bind].
  destruct (view_as_complex_pairs X [B; C; T; F] HsX) as (Xc & -> & HsXc & HeXc).
  cbn [mbind option_bind].
  destruct (spec_unfold_stack base Xc B C T F _ _ la Hbase HsXc Hla)
    as (U & HU & HsU & HeU); [lia|].
  replace (spec_unfold (set_training mode base) Xc) with (spec_unfold base Xc)
    by reflexivity.
  rewrite HU. cbn [mbind option_bind]. rewrite Nat2Z.id in HsU.
  replace (num_freqs (set_training mode base)) with (Z.of_nat nf)
    by (by injection Hbase as <-).
  replace (frame_size (set_training mode base)) with (Z.of_nat N)
    by (by injection Hbase as <-).
  destruct (unflatten_matrix IRxx Bi T nf N HsIR) as (Ru & -> & HsRu & HeRu).
  cbn [mbind option_bind].
  destruct (view_as_complex_pairs Ru [Bi; T; nf; N; N] HsRu)
    as (Rc & -> & HsRc & HeRc).
  cbn [mbind option_bind].
  destruct (unflatten_pairs Ifc Bi T nf N HsIfc) as (Iu & -> & HsIu & HeIu).
  cbn [mbind option_bind].
  destruct (view_as_complex_pairs Iu [Bi; T; nf; N] HsIu)
    as (Ic & -> & HsIc & HeIc).
  cbn [mbind option_bind].
  destruct (narrow_freq U B C T F N nf HsU Hnf) as (Sf & -> & HsSf & HeSf).
  cbn [mbind option_bind].
  destruct (einsum_matvec Rc Ic Bi T nf N HsRc HsIc) as (W & -> & HsW & HeW).
  cbn [mbind option_bind].
  destruct (apply_coefs_weights Sf W B C T nf N Bi HsSf HsW HBi)
    as (V & -> & HsV & HeV).
  cbn [mbind option_bind].
  replace (training (set_training mode base)) with mode by reflexivity.
  destruct (setitem_band X (view_as_real V) B C T F nf HsX) as (Y & HY & HsY & HeY);
    [cbn; by rewrite HsV | done |].
  destruct (write_back_spec mode (Z.of_nat nf) σ spec X (view_as_real V) Y HX HY)
    as (σ' & out & -> & Hout & _).
  exists σ', out, Y. split; [reflexivity|]. split; [exact Hout|].
  split; [exact HsY|].
  unfold Reference.bin at 1. cbn [app].
  rewrite !HeY by lia. rewrite !bool_decide_eq_true_2 by lia.
  cbn [view_as_real elem]. unfold rank. rewrite HsV. norm.
  rewrite bool_decide_eq_true_2 by done. rewrite bool_decide_eq_false_2 by done.
  rewrite HeV by lia.
  transitivity (Complex.csum N (λ n,
      Complex.cmul
        (Reference.frame (Reference.bin X) T (Z.of_nat N) la b c t f n)
        (Reference.matvec N mat vec n))).
  2: reflexivity.
  destruct (Complex.csum N _) as [re im] eqn:Hsum. cbn [Complex.re Complex.im].
  rewrite <- Hsum. apply csum_ext. intros n Hn.
  rewrite HeSf, HeU by lia.
  f_equal.
  - unfold Reference.frame. case_bool_decide; [|reflexivity].
    apply HeXc. reflexivity.
  - rewrite HeW by lia. apply matvec_ext.
    + intros q Hq. rewrite HeRc by reflexivity. unfold Reference.bin. cbn [app].
      rewrite !HeRu by lia. subst mat. unfold Reference.pair_at. cbn [app].
      by rewrite Nat.add_0_r.
    + intros q Hq. rewrite HeIc by reflexivity. unfold Reference.bin. cbn [app].
      rewrite !HeIu by lia. subst vec. unfold Reference.pair_at. cbn [app].
      by rewrite Nat.add_0_r.
Qed.
End MfWfForward.

(** ** [DFreal.forward] *)

Section DFrealForward.
Import Torch MultiFrame.
Context {K : Type} `{Scalar K}.

(** [spec_unfold_real] on a spectrogram of (real, imag) pairs: the frame
    axis comes third. *)
Lemma spec_unfold_real_stack (self : MultiFrameModule) (x : tensor K)
    (B C T F : nat) (nf N la : Z) :
  MultiFrameModule_init nf N la true = Some self →
  shape x = [B; C; T; F; 2%nat] →
  1 < N → 0 <= la < N → (0 < T)%nat →
  ∃ U, spec_unfold_real self x = Some U
       ∧ shape U = [B; C; Z.to_nat N; T; F; 2%nat]
       ∧ ∀ b c n t f k,
           (b < B)%nat → (c < C)%nat → (n < Z.to_nat N)%nat → (t < T)%nat →
           (f < F)%nat → (k < 2)%nat →
           elem U [b; c; n; t; f; k]
           = let s := Z.of_nat t + Z.of_nat n - (N - 1 - la) in
             if bool_decide (0 <= s < Z.of_nat T) then elem x [b; c; Z.to_nat s; f; k]
             else zero.
Proof.
  intros Hinit Hshape HN Hla HT. injection Hinit as <-.
  destruct x as [s e]. cbn [shape] in Hshape. subst s.
  unfold spec_unfold_real. norm. rewrite bool_decide_eq_true_2 by lia.
  unfold apply_pad, pad. norm. repeat guard_true. norm.
  unfold unfold. norm. eval_dims. norm. guard_true. norm.
  unfold permute. norm. cbn [mapM]. eval_dims.
  cbn [mret option_ret mbind option_bind].
  rewrite bool_decide_eq_true_2
    by (split; [reflexivity | apply (bool_decide_unpack _); vm_compute; exact I]).
  eexists; split; [reflexivity|]. norm. cbn [find_pos Nat.eqb]. norm. split.
  - repeat f_equal; try lia. rewrite Z.div_1_r. lia.
  - intros b c n t f k Hb Hc Hn Ht Hf Hk. norm.
    change (Z.to_nat 1) with 1%nat. rewrite Nat.mul_1_r.
    rewrite (bool_decide_eq_true_2 (0 ≤ Z.of_nat k - 0 < Z.of_nat 2)) by lia.
    rewrite (bool_decide_eq_true_2 (0 ≤ Z.of_nat f - 0 < Z.of_nat F)) by lia.
    case_bool_decide as Hc1; case_bool_decide as Hc2; try lia; norm; [|reflexivity].
    repeat f_equal; lia.
Qed.

(** [coefs.view(B, -1, N, T, F, 2)] on coefficients of (real, imag)
    pairs. *)
Lemma view_coefs_real {A} (x : tensor A) (B C N T F : nat) :
  shape x = [B; (C * N)%nat; T; F; 2%nat] →
  (0 < B)%nat → (0 < N)%nat → (0 < T)%nat → (0 < F)%nat →
  ∃ v, view ([Z.of_nat B; -1; Z.of_nat N] ++ map Z.of_nat (drop 2 (shape x))) x
       = Some v
       ∧ shape v = [B; C; N; T; F; 2%nat]
       ∧ ∀ b c n t f k,
           (b < B)%nat → (c < C)%nat → (n < N)%nat → (t < T)%nat → (f < F)%nat →
           (k < 2)%nat →
           elem v [b; c; n; t; f; k] = elem x [b; (c * N + n)%nat; t; f; k].
Proof.
  intros Hs HB HN HT HF. destruct x as [s e]. cbn [shape] in Hs. subst s.
  unfold view. cbn [shape drop app].
  change (Z.of_nat N :: map Z.of_nat [T; F; 2%nat])
    with (map Z.of_nat [N; T; F; 2%nat]).
  rewrite (view_shape_infer B C _ [N; T; F; 2%nat]).
  2:{ cbn. lia. }
  2:{ cbn. nia. }
  cbn [mbind option_bind]. eexists; split; [reflexivity|].
  split; [reflexivity|].
  intros b c n t f k Hb Hc Hn Ht Hf Hk. cbn [elem].
  replace (ravel [B; C; N; T; F; 2%nat] [b; c; n; t; f; k])
    with (ravel [B; (C * N)%nat; T; F; 2%nat] [b; (c * N + n)%nat; t; f; k])
    by (cbn; lia).
  rewrite unravel_ravel; [reflexivity|].
  unfold valid. repeat (apply Forall2_cons_2; [try lia|]); [nia|constructor].
Qed.

(** [spec_u.narrow(-2, 0, num_freqs)] on the real frame stack. *)
Lemma narrow_freq_real {A} (u : tensor A) (B C N T F nf : nat) :
  shape u = [B; C; N; T; F; 2%nat] →
  (nf ≤ F)%nat →
  ∃ v, narrow (-2) 0 (Z.of_nat nf) u = Some v
       ∧ shape v = [B; C; N; T; nf; 2%nat]
       ∧ ∀ b c n t f k, elem v [b; c; n; t; f; k] = elem u [b; c; n; t; f; k].
Proof.
  intros Hs Hnf. destruct u as [s e]. cbn [shape] in Hs. subst s.
  run. change (0 <? 0) with false. cbn iota. guard_true. rewrite Nat2Z.id.
  eexists; split; [reflexivity|]. split; [reflexivity|].
  intros b c n t f k. norm. reflexivity.
Qed.

(** [df_real] on a frame stack and taps of the same shape: the real part
    is [sum (s.re * c.re) - sum (s.im * c.im)], the imaginary part
    [sum (s.re * c.im) + sum (s.im * c.re)], the sums over the frame
    axis; what [torch.empty] held is overwritten. *)
Lemma df_real_taps (junk : list nat → K) (spec coefs : tensor K) (B C N T F : nat) :
  shape spec = [B; C; N; T; F; 2%nat] →
  shape coefs = [B; C; N; T; F; 2%nat] →
  ∃ v, df_real junk spec coefs = Some v
       ∧ shape v = [B; C; T; F; 2%nat]
       ∧ ∀ b c t f,
           (b < B)%nat → (c < C)%nat → (t < T)%nat → (f < F)%nat →
           let s k n := elem spec [b; c; n; t; f; k] in
           let w k n := elem coefs [b; c; n; t; f; k] in
           let dot p q := sum_n add zero N (λ n, s p n * w q n)%K in
           elem v [b; c; t; f; 0%nat] = sub (dot 0%nat 0%nat) (dot 1%nat 1%nat)
           ∧ elem v [b; c; t; f; 1%nat] = add (dot 0%nat 1%nat) (dot 1%nat 0%nat).
Proof.
  intros Hs Hc. destruct spec as [s e]. destruct coefs as [s' e'].
  cbn [shape] in Hs, Hc. subst s s'.
  unfold df_real, select_last, Torch.sum, setitem_last, update_last, empty.
  repeat (progress (rewrite ?bdim_same, ?expandable_same; cbn [andb]; run)).
  eexists; split; [reflexivity|]. split; [reflexivity|].
  intros b c t f Hb Hc Ht Hf. cbn zeta. norm.
  rewrite ?(bool_decide_eq_true_2 (0%nat = 0%nat)) by done.
  rewrite ?(bool_decide_eq_true_2 (1%nat = 1%nat)) by done.
  rewrite ?(bool_decide_eq_false_2 (0%nat = 1%nat)) by done.
  rewrite ?(bool_decide_eq_false_2 (1%nat = 0%nat)) by done.
  unfold vidx, bidx. norm.
  rewrite !(bix_lt B b), !(bix_lt C c), !(bix_lt T t), !(bix_lt F f) by lia.
  split; f_equal; apply sum_n_ext; intros k Hk; rewrite !(bix_lt N k) by lia;
    reflexivity.
Qed.

(** [DFreal.forward] on well-shaped arguments (the class needs
    [frame_size > 1]): it returns its argument, whose bins below
    [num_freqs] now hold the real-split deep filter
    [re = sum (win.re * coef.re) - sum (win.im * coef.im)],
    [im = sum (win.re * coef.im) + sum (win.im * coef.re)].  The [conj]
    flag has no effect: the coefficients are real tensors. *)
Lemma DFreal_forward_taps (junk : list nat → K) (m : DFreal) (mode : bool)
    (σ : gmap nat (tensor K)) (spec coefs : nat) (X Cf : tensor K)
    (B C T F N nf : nat) (la : Z) (conj : bool) (b c t f : nat) :
  DFreal_init (Z.of_nat nf) (Z.of_nat N) la conj = Some m →
  (1 < N)%nat →
  0 <= la < Z.of_nat N →
  (nf ≤ F)%nat →
  σ !! spec = Some X → shape X = [B; C; T; F; 2%nat] →
  σ !! coefs = Some Cf → shape Cf = [B; (C * N)%nat; T; nf; 2%nat] →
  (b < B)%nat → (c < C)%nat → (t < T)%nat → (f < nf)%nat →
  ∃ Y,
    DFreal_forward junk (DFreal_train mode m) σ spec coefs
    = Some (<[spec := Y]> σ, spec)
    ∧ shape Y = [B; C; T; F; 2%nat]
    ∧ let win n := Reference.frame (Reference.bin X) T (Z.of_nat N) la b c t f n in
      let coef n := Reference.bin Cf [b; (c * N + n)%nat; t; f] in
      let dot (p q : complex K → K) :=
        sum_n add zero N (λ n, p (win n) * q (coef n))%K in
      elem Y [b; c; t; f; 0%nat]
      = sub (dot Complex.re Complex.re) (dot Complex.im Complex.im)
      ∧ elem Y [b; c; t; f; 1%nat]
        = add (dot Complex.re Complex.im) (dot Complex.im Complex.re).
Proof.
  intros Hinit HN Hla Hnf HX HsX HCf HsCf Hb Hc Ht Hf.
  unfold DFreal_init in Hinit. cbn [mbind option_bind] in Hinit.
  destruct (MultiFrameModule_init (Z.of_nat nf) (Z.of_nat N) la true)
    as [base|] eqn:Hbase; [|discriminate]. injection Hinit as <-.
  unfold DFreal_forward. cbn [DFreal_train DFreal_base DFreal_conj].
  rewrite HX, HCf. cbn [mbind option_bind].
  destruct (spec_unfold_real_stack base X B C T F _ _ la Hbase HsX)
    as (U & HU & HsU & HeU); [lia..|].
  replace (spec_unfold_real (set_training mode base) X)
    with (spec_unfold_real base X) by reflexivity.
  rewrite HU. cbn [mbind option_bind]. rewrite Nat2Z.id in HsU, HeU.
  replace (num_freqs (set_training mode base)) with (Z.of_nat nf)
    by (by injection Hbase as <-).
  replace (frame_size (set_training mode base)) with (Z.of_nat N)
    by (by injection Hbase as <-).
  destruct (narrow_freq_real U B C N T F nf HsU Hnf) as (Sf & -> & HsSf & HeSf).
  cbn [mbind option_bind].
  replace (shape Cf !! 0%nat) with (Some B) by (by rewrite HsCf).
  cbn [mbind option_bind].
  destruct (view_coefs_real Cf B C N T nf HsCf) as (Cv & -> & HsCv & HeCv);
    [lia..|].
  cbn [mbind option_bind].
  replace (if conj then Cv else Cv) with Cv by (by destruct conj).
  destruct (df_real_taps junk Sf Cv B C N T nf HsSf HsCv) as (V & -> & HsV & HeV).
  cbn [mbind option_bind].
  destruct (setitem_band X V B C T F nf HsX HsV Hnf) as (Y & HY & HsY & HeY).
  unfold setitem_obj. rewrite HX. cbn [mbind option_bind]. rewrite HY.
  cbn [mbind option_bind].
  exists Y. split; [reflexivity|]. split; [exact HsY|]. cbn zeta.
  rewrite !HeY by lia. rewrite !bool_decide_eq_true_2 by lia.
  destruct (HeV b c t f) as [-> ->]; try lia.
  assert (Hwin : ∀ n k, (n < N)%nat → (k < 2)%nat →
                   elem Sf [b; c; n; t; f; k]
                   = (if bool_decide (k = 0%nat) then Complex.re else Complex.im)
                       (Reference.frame (Reference.bin X) T (Z.of_nat N) la b c t f n)).
  { intros n k Hn Hk. rewrite HeSf, HeU by lia. cbn zeta.
    unfold Reference.frame, Reference.bin. cbn [app].
    destruct k as [|[|k]]; [| |lia]; case_bool_decide; reflexivity. }
  assert (Hcoef : ∀ n k, (n < N)%nat → (k < 2)%nat →
                    elem Cv [b; c; n; t; f; k]
                    = (if bool_decide (k = 0%nat) then Complex.re else Complex.im)
                        (Reference.bin Cf [b; (c * N + n)%nat; t; f])).
  { intros n k Hn Hk. rewrite HeCv by lia. unfold Reference.bin. cbn [app].
    destruct k as [|[|k]]; [| |lia]; reflexivity. }
  split; f_equal; apply sum_n_ext; intros n Hn;
    rewrite Hwin, Hcoef by lia; reflexivity.
Qed.
End DFrealForward.

(** ** [forward] as a tensor computation followed by a write-back *)

Ltac split_binds :=
  repeat match goal with
  | |- mbind _ ?o = _ => destruct o; cbn [mbind option_bind]; [|reflexivity]
  end.

(** One step of a computation that fails further on. *)
Ltac skip_bind :=
  match goal with
  | |- mbind _ ?o = None => destruct o eqn:?; cbn [mbind option_bind]; [|reflexivity]
  end.

Section Decompose.
Import Torch MultiFrame.
Context {K : Type} `{Scalar K}.

Lemma DF_forward_decompose (self : DF) (σ : gmap nat (tensor K)) (spec coefs : nat) :
  DF_forward self σ spec coefs
  = X ← σ !! spec; Cf ← σ !! coefs; v ← DF_filter self X Cf;
    write_back (training (DF_base self)) (num_freqs (DF_base self)) σ spec v.
Proof.
  unfold DF_forward, DF_filter, write_back. split_binds. reflexivity.
Qed.

Lemma MfWf_forward_decompose (self : MfWf) (σ : gmap nat (tensor K))
    (spec ifc iRxx : nat) :
  MfWf_forward self σ spec ifc iRxx
  = X ← σ !! spec; Iv ← σ !! ifc; Rv ← σ !! iRxx; v ← MfWf_filter self X Iv Rv;
    write_back (training (MfWf_base self)) (num_freqs (MfWf_base self)) σ spec v.
Proof.
  unfold MfWf_forward, MfWf_filter, write_back. split_binds. reflexivity.
Qed.

Lemma MfMvdr_forward_decompose `{Division K} (self : MfMvdr K)
    (σ : gmap nat (tensor K)) (spec ifc iRnn : nat) :
  MfMvdr_forward self σ spec ifc iRnn
  = X ← σ !! spec; Iv ← σ !! ifc; Rv ← σ !! iRnn; v ← MfMvdr_filter self X Iv Rv;
    write_back (training (MfMvdr_base self)) (num_freqs (MfMvdr_base self)) σ spec v.
Proof.
  unfold MfMvdr_forward, MfMvdr_filter, write_back. split_binds. reflexivity.
Qed.

(** [DFreal.forward] has no clone: it is the write-back of evaluation
    mode, whatever the mode of the module. *)
Lemma DFreal_forward_decompose (junk : list nat → K) (self : DFreal)
    (σ : gmap nat (tensor K)) (spec coefs : nat) :
  DFreal_forward junk self σ spec coefs
  = X ← σ !! spec; Cf ← σ !! coefs; v ← DFreal_filter junk self X Cf;
    write_back false (num_freqs (DFreal_base self)) σ spec v.
Proof.
  unfold DFreal_forward, DFreal_filter, write_back. split_binds. reflexivity.
Qed.
End Decompose.

(** ** Effects of [forward] on the tensor objects *)

Section Effects.
Import Torch MultiFrame.
Context {K : Type} `{Scalar K} `{Division K}.

Lemma setitem_prefix2_inv {A} (n : Z) (v x y : tensor A) :
  setitem_prefix2 n v x = Some y →
  shape y = shape x
  ∧ ∀ idx, (slice_stop n (shape x !!! (rank x - 2)%nat) ≤ idx !!! (rank x - 2)%nat)%nat →
           elem y idx = elem x idx.
Proof.
  unfold setitem_prefix2. case_bool_decide; [|discriminate].
  destruct (expandable _ _); [|discriminate]. intros [= <-].
  split; [reflexivity|]. intros idx Hidx. cbn [elem].
  rewrite bool_decide_eq_false_2 by lia. reflexivity.
Qed.

Lemma write_back_inv (mode : bool) (nf : Z) (σ σ' : gmap nat (tensor K))
    (spec out : nat) (v : tensor K) :
  write_back mode nf σ spec v = Some (σ', out) →
  ∃ X Y, σ !! spec = Some X
         ∧ setitem_prefix2 nf v X = Some Y
         ∧ σ' !! out = Some Y
         ∧ (if mode then (out ∉ dom σ) ∧ σ' = <[out := Y]> σ
            else out = spec ∧ σ' = <[spec := Y]> σ).
Proof.
  unfold write_back. destruct mode.
  - unfold clone_obj. destruct (σ !! spec) as [X|] eqn:HX; [|discriminate].
    cbn [mbind option_bind]. unfold setitem_obj. rewrite lookup_insert_eq.
    cbn [mbind option_bind]. replace (clone X) with X by (by destruct X).
    destruct (setitem_prefix2 nf v X) as [Y|] eqn:HY; [|discriminate].
    cbn [mbind option_bind]. intros [= <- <-]. exists X, Y.
    split; [done|]. split; [done|]. split; [by rewrite lookup_insert_eq|].
    split; [apply is_fresh|]. by rewrite insert_insert_eq.
  - cbn [mbind option_bind]. unfold setitem_obj.
    destruct (σ !! spec) as [X|] eqn:HX; [|discriminate].
    cbn [mbind option_bind].
    destruct (setitem_prefix2 nf v X) as [Y|] eqn:HY; [|discriminate].
    cbn [mbind option_bind]. intros [= <- <-]. exists X, Y.
    split; [done|]. split; [done|]. split; [by rewrite lookup_insert_eq|]. done.
Qed.

(** The written object depends on the store through the spectrogram
    only. *)
Lemma write_back_agree (mode : bool) (nf : Z) (σ σ' τ : gmap nat (tensor K))
    (spec out : nat) (v : tensor K) :
  τ !! spec = σ !! spec →
  write_back mode nf σ spec v = Some (σ', out) →
  ∃ τ' p, write_back mode nf τ spec v = Some (τ', p) ∧ τ' !! p = σ' !! out.
Proof.
  intros Hag Hwb. destruct (write_back_inv _ _ _ _ _ _ _ Hwb)
    as (X & Y & HX & HY & Hout & _).
  rewrite <- Hag in HX. unfold write_back.
  destruct (write_back_spec mode nf τ spec X v Y HX HY) as (τ' & p & -> & Hp & _).
  exists τ', p. split; [reflexivity|]. by rewrite Hp, Hout.
Qed.

(** Every [forward] is a tensor computation on the contents of its
    arguments followed by a write-back. *)
Lemma forward_inv (junk : list nat → K) (flt : filter K) (σ σ' : gmap nat (tensor K))
    (spec out : nat) (args : list nat) :
  forward junk flt σ spec args = Some (σ', out) →
  ∃ (filt : tensor K → list (tensor K) → option (tensor K)) X As v,
    σ !! spec = Some X
    ∧ mapM (λ a, σ !! a) args = Some As
    ∧ filt X As = Some v
    ∧ write_back (clones flt) (num_freqs (base_of flt)) σ spec v = Some (σ', out)
    ∧ ∀ τ, forward junk flt τ spec args
           = X' ← τ !! spec; As' ← mapM (λ a, τ !! a) args; v' ← filt X' As';
             write_back (clones flt) (num_freqs (base_of flt)) τ spec v'.
Proof.
  destruct flt as [m|m|m|m|m]; destruct args as [|a [|a' [|a'' args]]];
    cbn [forward]; try discriminate.
  - (* DF *)
    rewrite DF_forward_decompose. intros Hf.
    destruct (σ !! spec) as [X|] eqn:HX; [|discriminate].
    destruct (σ !! a) as [Cf|] eqn:HCf; [|discriminate].
    cbn [mbind option_bind] in Hf.
    destruct (DF_filter m X Cf) as [v|] eqn:Hv; [|discriminate].
    exists (λ X As, match As with [Cf] => DF_filter m X Cf | _ => None end),
      X, [Cf], v.
    split; [done|]. split; [cbn; by rewrite HCf|]. split; [done|].
    split; [exact Hf|]. intros τ. rewrite DF_forward_decompose.
    destruct (τ !! spec); [|done]. cbn. destruct (τ !! a); done.
  - (* DFreal *)
    rewrite DFreal_forward_decompose. intros Hf.
    destruct (σ !! spec) as [X|] eqn:HX; [|discriminate].
    destruct (σ !! a) as [Cf|] eqn:HCf; [|discriminate].
    cbn [mbind option_bind] in Hf.
    destruct (DFreal_filter junk m X Cf) as [v|] eqn:Hv; [|discriminate].
    exists (λ X As, match As with [Cf] => DFreal_filter junk m X Cf | _ => None end),
      X, [Cf], v.
    split; [done|]. split; [cbn; by rewrite HCf|]. split; [done|].
    split; [exact Hf|]. intros τ. rewrite DFreal_forward_decompose.
    destruct (τ !! spec); [|done]. cbn. destruct (τ !! a); done.
  - (* MfWf *)
    rewrite MfWf_forward_decompose. intros Hf.
    destruct (σ !! spec) as [X|] eqn:HX; [|discriminate].
    destruct (σ !! a) as [Iv|] eqn:HI; [|discriminate].
    destruct (σ !! a') as [Rv|] eqn:HR; [|discriminate].
    cbn [mbind option_bind] in Hf.
    destruct (MfWf_filter m X Iv Rv) as [v|] eqn:Hv; [|discriminate].
    exists (λ X As, match As with [Iv; Rv] => MfWf_filter m X Iv Rv | _ => None end),
      X, [Iv; Rv], v.
    split; [done|]. split; [cbn; by rewrite HI, HR|]. split; [done|].
    split; [exact Hf|]. intros τ. rewrite MfWf_forward_decompose.
    destruct (τ !! spec); [|done]. cbn. destruct (τ !! a); [|done]. cbn.
    destruct (τ !! a'); done.
  - (* MfMvdr *)
    rewrite MfMvdr_forward_decompose. intros Hf.
    destruct (σ !! spec) as [X|] eqn:HX; [|discriminate].
    destruct (σ !! a) as [Iv|] eqn:HI; [|discriminate].
    destruct (σ !! a') as [Rv|] eqn:HR; [|discriminate].
    cbn [mbind option_bind] in Hf.
    destruct (MfMvdr_filter m X Iv Rv) as [v|] eqn:Hv; [|discriminate].
    exists (λ X As, match As with [Iv; Rv] => MfMvdr_filter m X Iv Rv | _ => None end),
      X, [Iv; Rv], v.
    split; [done|]. split; [cbn; by rewrite HI, HR|]. split; [done|].
    split; [exact Hf|]. intros τ. rewrite MfMvdr_forward_decompose.
    destruct (τ !! spec); [|done]. cbn. destruct (τ !! a); [|done]. cbn.
    destruct (τ !! a'); done.
Qed.

Lemma mapM_lookup_agree (σ τ : gmap nat (tensor K)) (args : list nat) :
  Forall (λ a, τ !! a = σ !! a) args →
  mapM (λ a, τ !! a) args = mapM (λ a, σ !! a) args.
Proof.
  induction 1 as [|a args Ha _ IH]; [done|]. cbn. by rewrite Ha, IH.
Qed.

Lemma mapM_lookup_dom (σ : gmap nat (tensor K)) (args : list nat) (As : list (tensor K)) :
  mapM (λ a, σ !! a) args = Some As → Forall (λ a, a ∈ dom σ) args.
Proof.
  revert As. induction args as [|a args IH]; intros As; [constructor|].
  cbn. destruct (σ !! a) eqn:Ha; [|discriminate]. cbn.
  destruct (mapM _ args) eqn:Hm; [|discriminate]. intros _.
  constructor; [by apply elem_of_dom|]. by eapply IH.
Qed.

(** The output of a call is determined by the contents of the arguments,
    the module and its mode. *)
Lemma forward_agree (junk : list nat → K) (flt : filter K)
    (σ σ' τ : gmap nat (tensor K)) (spec out : nat) (args : list nat) :
  forward junk flt σ spec args = Some (σ', out) →
  τ !! spec = σ !! spec →
  Forall (λ a, τ !! a = σ !! a) args →
  ∃ τ' p, forward junk flt τ spec args = Some (τ', p) ∧ τ' !! p = σ' !! out.
Proof.
  intros Hf Hspec Hargs.
  destruct (forward_inv _ _ _ _ _ _ _ Hf) as (filt & X & As & v & HX & HAs & Hv & Hwb & Hall).
  rewrite Hall, Hspec, HX. cbn [mbind option_bind].
  rewrite (mapM_lookup_agree σ τ args Hargs), HAs. cbn [mbind option_bind].
  rewrite Hv. cbn [mbind option_bind].
  eapply write_back_agree; [|exact Hwb]. exact Hspec.
Qed.

(** Passthrough: whatever a call returns agrees with its spectrogram
    argument at every index whose frequency component is not below
    [num_freqs] (the stop of the slice [: num_freqs]). *)
Lemma forward_passthrough (junk : list nat → K) (flt : filter K)
    (σ σ' : gmap nat (tensor K)) (spec out : nat) (args : list nat) :
  forward junk flt σ spec args = Some (σ', out) →
  ∃ X Y, σ !! spec = Some X
         ∧ σ' !! out = Some Y
         ∧ shape Y = shape X
         ∧ ∀ idx,
             (slice_stop (num_freqs (base_of flt)) (shape X !!! (rank X - 2)%nat)
              ≤ idx !!! (rank X - 2)%nat)%nat →
             elem Y idx = elem X idx.
Proof.
  intros Hf.
  destruct (forward_inv _ _ _ _ _ _ _ Hf) as (filt & X & As & v & HX & HAs & Hv & Hwb & _).
  destruct (write_back_inv _ _ _ _ _ _ _ Hwb) as (X' & Y & HX' & HY & Hout & _).
  rewrite HX in HX'. injection HX' as <-.
  destruct (setitem_prefix2_inv _ _ _ _ HY) as [Hs He].
  exists X, Y. done.
Qed.
End Effects.

(** ** Purity, aliasing and passthrough *)

Section Calls.
Import Torch MultiFrame.
Context {K : Type} `{Scalar K} `{Division K}.

(** A call on any store that holds the same argument contents returns
    the same output.  When the module clones ([DF], [MfWf], [MfMvdr] in
    training mode) the call moreover leaves every existing tensor
    unchanged, so the same call on the same objects returns the same
    output again. *)
Lemma forward_repeatable (junk : list nat → K) (flt : filter K)
    (σ σ1 : gmap nat (tensor K)) (spec o1 : nat) (args : list nat) :
  forward junk flt σ spec args = Some (σ1, o1) →
  (∀ τ, τ !! spec = σ !! spec →
        Forall (λ a, τ !! a = σ !! a) args →
        ∃ τ1 p1, forward junk flt τ spec args = Some (τ1, p1)
                 ∧ τ1 !! p1 = σ1 !! o1)
  ∧ (clones flt = true →
     (∀ l, l ∈ dom σ → σ1 !! l = σ !! l)
     ∧ ∃ σ2 o2, forward junk flt σ1 spec args = Some (σ2, o2)
                ∧ σ2 !! o2 = σ1 !! o1).
Proof.
  intros Hf. split.
  - intros τ Hspec Hargs. by eapply forward_agree.
  - intros Hcl.
    destruct (forward_inv _ _ _ _ _ _ _ Hf)
      as (filt & X & As & v & HX & HAs & Hv & Hwb & _).
    rewrite Hcl in Hwb.
    destruct (write_back_inv _ _ _ _ _ _ _ Hwb) as (X' & Y & _ & _ & _ & Hfresh & ->).
    assert (Hkeep : ∀ l, l ∈ dom σ → <[o1 := Y]> σ !! l = σ !! l).
    { intros l Hl. apply lookup_insert_ne. intros ->. done. }
    split; [exact Hkeep|].
    eapply forward_agree; [exact Hf | |].
    + apply Hkeep. by apply elem_of_dom.
    + eapply Forall_impl; [by eapply mapM_lookup_dom|]. intros a Ha. by apply Hkeep.
Qed.

(** A call of a [CRM] module raises: the class has no [forward]. *)
Lemma forward_CRM (junk : list nat → K) (m : CRM) (σ : gmap nat (tensor K))
    (spec : nat) (args : list nat) :
  forward junk (FCRM m) σ spec args = None.
Proof. destruct args as [|? [|? ?]]; reflexivity. Qed.
End Calls.

(** In evaluation mode [DF.forward] writes into its argument.  A second
    call on the same object therefore has the filtered spectrogram as its
    input: with one tap [i] on the current frame and one tap [1] on the
    previous one, bin [(t, f) = (0, 0)] is [1 + 2i] before the first
    call, [-2 + i] after it and [-1 - 2i] after the second. *)
Example DF_forward_eval_twice :
  Examples.out_elem Examples.df_once [0; 0; 0; 0; 0]%nat = Some (-2)
  ∧ Examples.out_elem Examples.df_twice [0; 0; 0; 0; 0]%nat = Some (-1).
Proof. split; vm_compute; reflexivity. Qed.

(** ** Determinism of [forward] *)

Section Determinism.
Import Torch MultiFrame.
Context {K : Type} `{Scalar K} `{Division K}.

(** The contents written do not depend on the mode of the write-back, and
    depend on the store through the spectrogram only. *)
Lemma write_back_mode_agree (mode mode' : bool) (nf : Z)
    (σ σ' τ : gmap nat (tensor K)) (spec out : nat) (v : tensor K) :
  τ !! spec = σ !! spec →
  write_back mode nf σ spec v = Some (σ', out) →
  ∃ τ' p, write_back mode' nf τ spec v = Some (τ', p) ∧ τ' !! p = σ' !! out.
Proof.
  intros Hag Hwb. destruct (write_back_inv _ _ _ _ _ _ _ Hwb)
    as (X & Y & HX & HY & Hout & _).
  rewrite <- Hag in HX. unfold write_back.
  destruct (write_back_spec mode' nf τ spec X v Y HX HY) as (τ' & p & -> & Hp & _).
  exists τ', p. split; [reflexivity|]. by rewrite Hp, Hout.
Qed.

Lemma forward_returns_content (junk : list nat → K) (flt : filter K)
    (σ σ' : gmap nat (tensor K)) (spec out : nat) (args : list nat) :
  forward junk flt σ spec args = Some (σ', out) → is_Some (σ' !! out).
Proof.
  intros Hf.
  destruct (forward_inv _ _ _ _ _ _ _ Hf) as (filt & X & As & v & _ & _ & _ & Hwb & _).
  destruct (write_back_inv _ _ _ _ _ _ _ Hwb) as (X' & Y & _ & _ & Hout & _).
  by exists Y.
Qed.

(** C9.  The output of a call is a function of the contents of its
    tensor arguments and of the configuration of the module: on two
    stores that hold the same contents at the argument objects, a call of
    the same module raises on both or returns on both, and the two
    returned tensors are equal.  Nothing else enters: not the rest of
    the store, not which objects hold the arguments, and not the training
    flag, which decides where the result is written and not what it is:
    the same module in the other mode returns the same tensor. *)
Theorem forward_deterministic (junk : list nat → K) (σ τ : gmap nat (tensor K))
    (spec : nat) (args : list nat) :
  τ !! spec = σ !! spec →
  Forall (λ a, τ !! a = σ !! a) args →
  (∀ flt,
     (is_Some (forward junk flt σ spec args) ↔ is_Some (forward junk flt τ spec args))
     ∧ ∀ σ1 o1 τ1 p1,
         forward junk flt σ spec args = Some (σ1, o1) →
         forward junk flt τ spec args = Some (τ1, p1) →
         τ1 !! p1 = σ1 !! o1 ∧ is_Some (σ1 !! o1))
  ∧ (∀ mode mode' flt flt',
       (∃ m, flt = FDF (DF_train mode m) ∧ flt' = FDF (DF_train mode' m))
       ∨ (∃ m, flt = FDFreal (DFreal_train mode m) ∧ flt' = FDFreal (DFreal_train mode' m))
       ∨ (∃ m, flt = FMfWf (MfWf_train mode m) ∧ flt' = FMfWf (MfWf_train mode' m))
       ∨ (∃ m, flt = FMfMvdr (MfMvdr_train mode m)
               ∧ flt' = FMfMvdr (MfMvdr_train mode' m)) →
       ∀ σ1 o1,
         forward junk flt σ spec args = Some (σ1, o1) →
         ∃ τ1 p1, forward junk flt' τ spec args = Some (τ1, p1)
                  ∧ τ1 !! p1 = σ1 !! o1).
Proof.
  intros Hspec Hargs.
  assert (Hargs' : Forall (λ a, σ !! a = τ !! a) args)
    by (eapply Forall_impl; [exact Hargs|]; intros a Ha; by symmetry).
  split.
  - intros flt. split; [split|].
    + intros [[σ1 o1] Hf].
      destruct (forward_agree junk flt σ σ1 τ spec o1 args Hf Hspec Hargs)
        as (τ1 & p1 & Hg & _). eauto.
    + intros [[τ1 p1] Hf].
      destruct (forward_agree junk flt τ τ1 σ spec p1 args Hf (eq_sym Hspec) Hargs')
        as (σ1 & o1 & Hg & _). eauto.
    + intros σ1 o1 τ1 p1 Hf Hg.
      destruct (forward_agree junk flt σ σ1 τ spec o1 args Hf Hspec Hargs)
        as (τ1' & p1' & Hg' & Heq).
      rewrite Hg in Hg'. injection Hg' as <- <-.
      split; [exact Heq|]. by eapply forward_returns_content.
  - intros mode mode' flt flt' Hcfg σ1 o1 Hf.
    destruct Hcfg as [(m & -> & ->)|[(m & -> & ->)|[(m & -> & ->)|(m & -> & ->)]]];
      destruct args as [|a [|a' [|a'' args]]]; cbn [forward] in Hf |- *;
      try discriminate.
    + (* DF *)
      rewrite DF_forward_decompose in Hf |- *.
      rewrite Hspec, (Forall_inv Hargs).
      destruct (σ !! spec) as [X|] eqn:HX; [|discriminate].
      destruct (σ !! a) as [Cf|]; [|discriminate].
      cbn [mbind option_bind] in Hf |- *.
      change (DF_filter (DF_train mode' m) X Cf)
        with (DF_filter (DF_train mode m) X Cf).
      destruct (DF_filter (DF_train mode m) X Cf) as [v|]; [|discriminate].
      cbn [mbind option_bind] in Hf |- *.
      exact (write_back_mode_agree _ mode' _ _ _ _ _ _ _
               (eq_trans Hspec (eq_sym HX)) Hf).
    + (* DFreal *)
      rewrite DFreal_forward_decompose in Hf |- *.
      rewrite Hspec, (Forall_inv Hargs).
      destruct (σ !! spec) as [X|] eqn:HX; [|discriminate].
      destruct (σ !! a) as [Cf|]; [|discriminate].
      cbn [mbind option_bind] in Hf |- *.
      change (DFreal_filter junk (DFreal_train mode' m) X Cf)
        with (DFreal_filter junk (DFreal_train mode m) X Cf).
      destruct (DFreal_filter junk (DFreal_train mode m) X Cf) as [v|]; [|discriminate].
      cbn [mbind option_bind] in Hf |- *.
      exact (write_back_mode_agree _ false _ _ _ _ _ _ _
               (eq_trans Hspec (eq_sym HX)) Hf).
    + (* MfWf *)
      rewrite MfWf_forward_decompose in Hf |- *.
      rewrite Hspec, (Forall_inv Hargs), (Forall_inv (Forall_inv_tail Hargs)).
      destruct (σ !! spec) as [X|] eqn:HX; [|discriminate].
      destruct (σ !! a) as [Iv|]; [|discriminate].
      destruct (σ !! a') as [Rv|]; [|discriminate].
      cbn [mbind option_bind] in Hf |- *.
      change (MfWf_filter (MfWf_train mode' m) X Iv Rv)
        with (MfWf_filter (MfWf_train mode m) X Iv Rv).
      destruct (MfWf_filter (MfWf_train mode m) X Iv Rv) as [v|]; [|discriminate].
      cbn [mbind option_bind] in Hf |- *.
      exact (write_back_mode_agree _ mode' _ _ _ _ _ _ _
               (eq_trans Hspec (eq_sym HX)) Hf).
    + (* MfMvdr *)
      rewrite MfMvdr_forward_decompose in Hf |- *.
      rewrite Hspec, (Forall_inv Hargs), (Forall_inv (Forall_inv_tail Hargs)).
      destruct (σ !! spec) as [X|] eqn:HX; [|discriminate].
      destruct (σ !! a) as [Iv|]; [|discriminate].
      destruct (σ !! a') as [Rv|]; [|discriminate].
      cbn [mbind option_bind] in Hf |- *.
      change (MfMvdr_filter (MfMvdr_train mode' m) X Iv Rv)
        with (MfMvdr_filter (MfMvdr_train mode m) X Iv Rv).
      destruct (MfMvdr_filter (MfMvdr_train mode m) X Iv Rv) as [v|]; [|discriminate].
      cbn [mbind option_bind] in Hf |- *.
      exact (write_back_mode_agree _ mode' _ _ _ _ _ _ _
               (eq_trans Hspec (eq_sym HX)) Hf).
Qed.
End Determinism.

(** C2, at the failing input.  [CRM(num_freqs=1)] never returns from a
    call, and its [forward_impl], applied to a spectrogram with the two
    bins [1 + 2i], multiplies both by the mask [3 - i]: bin 1, which is
    not below [num_freqs], becomes [5 + 5i]. *)
Theorem CRM_no_passthrough :
  MultiFrame.CRM_init 1 1 0 = Some Examples.crm_1
  ∧ (∀ junk σ spec args,
       MultiFrame.forward (K:=Qc) junk (MultiFrame.FCRM Examples.crm_1) σ spec args = None)
  ∧ ∃ Y, MultiFrame.CRM_forward_impl Examples.crm_1 Examples.two_bins Examples.mask
         = Some Y
         ∧ Torch.elem Examples.two_bins [0; 0; 0; 1]%nat = Complex.mk 1 2
         ∧ Torch.elem Y [0; 0; 0; 1]%nat = Complex.mk 5 5.
Proof.
  split; [reflexivity|]. split; [intros; apply forward_CRM|].
  eexists. split; [vm_compute; reflexivity|]. split; reflexivity.
Qed.

(** ** [as_windowed] along the other dimensions, and for other steps *)

Section AsWindowedBranches.
Import Strided.

Lemma index_neg (n : nat) (i : Z) :
  - Z.of_nat n <= i < 0 → PyList.index n i = Some (Z.to_nat (Z.of_nat n + i)).
Proof.
  intros Hi. unfold PyList.index.
  replace (0 <=? i) with false by lia. cbn [andb].
  replace (- Z.of_nat n <=? i) with true by lia.
  replace (i <? 0) with true by lia. reflexivity.
Qed.

Lemma as_windowed_layout_last (B T sB sT L step : Z) :
  step ≠ 0 →
  as_windowed_layout [B; T] [sB; sT] L step (-1)
  = Some ([B; T - L + 1; L], [sB; sT; sT * step]).
Proof.
  intros Hs. unfold as_windowed_layout.
  destruct (int_truediv_self (T - L) step Hs) as (q & -> & Hq).
  unfold PyList.getitem, PyList.setitem, PyList.append. cbn [length app].
  rewrite !index_neg by (cbn; lia).
  change (Z.to_nat (Z.of_nat 2 + -1)) with 1%nat.
  change (Z.to_nat (Z.of_nat 3 + -1)) with 2%nat.
  cbn [lookup list_lookup mbind option_bind insert list_insert].
  rewrite Hq.
  rewrite bool_decide_eq_false_2 by lia. rewrite bool_decide_eq_true_2 by lia.
  cbn [lookup list_lookup mbind option_bind insert list_insert length app].
  rewrite !index_neg by (cbn; lia).
  change (Z.to_nat (Z.of_nat 3 + -1)) with 2%nat.
  cbn [lookup list_lookup mbind option_bind insert list_insert length app].
  reflexivity.
Qed.

Lemma as_windowed_layout_dim0 (T sT : Z) (rest srest : list Z) (L step : Z) :
  step ≠ 0 →
  as_windowed_layout (T :: rest) (sT :: srest) L step 0
  = Some (L :: (T - L + 1) :: rest, sT * step :: sT :: srest).
Proof.
  intros Hs. unfold as_windowed_layout.
  destruct (int_truediv_self (T - L) step Hs) as (q & -> & Hq).
  unfold PyList.getitem, PyList.setitem. cbn [length].
  rewrite !index_nonneg by lia. change (Z.to_nat 0) with 0%nat.
  cbn [lookup list_lookup mbind option_bind insert list_insert].
  rewrite Hq.
  rewrite bool_decide_eq_false_2 by lia. rewrite bool_decide_eq_false_2 by lia.
  cbn [lookup list_lookup mbind option_bind insert list_insert].
  unfold PyList.insert, PyList.insert_pos. cbn [length].
  change (0 <? 0) with false. cbn iota.
  replace (Z.to_nat (Z.min 0 (Z.of_nat (S (length rest))))) with 0%nat by lia.
  replace (Z.to_nat (Z.min 0 (Z.of_nat (S (length srest))))) with 0%nat by lia.
  cbn [take drop app length].
  rewrite !index_nonneg by lia. change (Z.to_nat 0) with 0%nat.
  reflexivity.
Qed.

Lemma Forall_nonneg3 (a b c : Z) :
  0 <= a → 0 <= b → 0 <= c → Forall (λ n, 0 <= n) [a; b; c].
Proof. intros. repeat constructor; done. Qed.

Lemma Exists_zero3 (a b c : Z) :
  Exists (λ n, n = 0) [a; b; c] ↔ a = 0 ∨ b = 0 ∨ c = 0.
Proof.
  rewrite !Exists_cons, Exists_nil. tauto.
Qed.

(** X2.  Along [dim = 1], on a contiguous [B x T] tensor at the start of
    a storage of [S] elements, with [1 <= L <= T] and [step >= 1]:
    [as_windowed] asks [as_strided] for [T - L + 1] windows whatever the
    step, and returns exactly when the storage holds them,
    [(B - 1) * T + (T - L) * step + L <= S]; otherwise the call raises.
    For a tensor that fills its storage ([S = B * T]) that is exactly
    when [step = 1] or [L = T].  When the call returns, the view has
    shape [B, T - L + 1, L] and element [(b, i, j)] is storage element
    [b * T + i * step + j]: that is [x[b, i * step + j]] while
    [i * step + j < T], and an element past row [b] otherwise. *)
Theorem as_windowed_dim1_returns_iff {A} (l : list A) (B T L step : Z) :
  1 <= B → 1 <= L <= T → 1 <= step → B * T <= Z.of_nat (length l) →
  let x := contiguous2 l B T in
  (is_Some (as_windowed x L step 1)
   ↔ (B - 1) * T + (T - L) * step + L <= Z.of_nat (length l))
  ∧ (Z.of_nat (length l) = B * T →
     (is_Some (as_windowed x L step 1) ↔ step = 1 ∨ L = T))
  ∧ ∀ v, as_windowed x L step 1 = Some v →
      shape v = [B; T - L + 1; L]
      ∧ ∀ b i j, 0 <= b < B → 0 <= i < T - L + 1 → 0 <= j < L →
          get v [b; i; j] = l !! Z.to_nat (b * T + i * step + j)
          ∧ is_Some (l !! Z.to_nat (b * T + i * step + j))
          ∧ (i * step + j < T → get v [b; i; j] = get x [b; i * step + j]).
Proof.
  intros HB HL Hstep Hlen x. subst x. unfold as_windowed.
  cbn [contiguous2 shape stride].
  rewrite as_windowed_layout_dim1 by lia.
  cbn [mbind option_bind]. unfold as_strided.
  cbn [contiguous2 storage offset length].
  unfold storage_needed. rewrite (bool_decide_eq_false_2 (Exists _ _))
    by (rewrite Exists_zero3; lia).
  cbn [map dot].
  assert (Hiff : is_Some
            (if bool_decide
                  (3%nat = 3%nat
                   ∧ Forall (λ n, 0 <= n) [B; T - L + 1; L]
                   ∧ Forall (λ s, 0 <= s) [T; 1 * step; 1]
                   ∧ 0 + 1 + ((B - 1) * T + ((T - L + 1 - 1) * (1 * step)
                                              + ((L - 1) * 1 + 0)))
                     <= Z.of_nat (length l))
             then Some (mk l 0 [B; T - L + 1; L] [T; 1 * step; 1]) else None)
          ↔ (B - 1) * T + (T - L) * step + L <= Z.of_nat (length l)).
  { case_bool_decide as Hc.
    - split; [intros _|eauto]. destruct Hc as (_ & _ & _ & Hc). nia.
    - split; [intros [? [=]]|]. intros Hle. exfalso. apply Hc.
      split; [reflexivity|]. split; [apply Forall_nonneg3; lia|].
      split; [apply Forall_nonneg3; lia|]. nia. }
  split; [exact Hiff|]. split.
  - intros Heq. rewrite Hiff. rewrite Heq. split; nia.
  - intros v. case_bool_decide as Hc; [|discriminate]. intros [= <-].
    split; [reflexivity|]. intros b i j Hb Hi Hj.
    destruct Hc as (_ & _ & _ & Hc).
    unfold get. cbn [contiguous2 shape stride storage offset in_range dot].
    rewrite !(bool_decide_eq_true_2 (0 <= _ < _)) by lia. cbn [andb].
    split; [do 2 f_equal; ring|].
    split; [apply lookup_lt_is_Some; nia|].
    intros Hin. rewrite bool_decide_eq_true_2 by nia. cbn [andb].
    do 2 f_equal. ring.
Qed.

(** X3.  With [dim = -1] on the same tensor the window axis is appended
    before [stride[dim]] is multiplied by the step, so the step lands on
    the window axis: the windows start at every position and their
    elements are [step] apart, element [(b, i, j)] being storage element
    [b * T + i + j * step], which is [x[b, i + j * step]] while
    [i + j * step < T].  The call returns exactly when the storage holds
    that, [(B - 1) * T + (T - L) + (L - 1) * step + 1 <= S]; for a tensor
    that fills its storage, exactly when [step = 1] or [L = 1]. *)
Theorem as_windowed_last_dim_dilates {A} (l : list A) (B T L step : Z) :
  1 <= B → 1 <= L <= T → 1 <= step → B * T <= Z.of_nat (length l) →
  let x := contiguous2 l B T in
  (is_Some (as_windowed x L step (-1))
   ↔ (B - 1) * T + (T - L) + (L - 1) * step + 1 <= Z.of_nat (length l))
  ∧ (Z.of_nat (length l) = B * T →
     (is_Some (as_windowed x L step (-1)) ↔ step = 1 ∨ L = 1))
  ∧ ∀ v, as_windowed x L step (-1) = Some v →
      shape v = [B; T - L + 1; L]
      ∧ ∀ b i j, 0 <= b < B → 0 <= i < T - L + 1 → 0 <= j < L →
          get v [b; i; j] = l !! Z.to_nat (b * T + i + j * step)
          ∧ is_Some (l !! Z.to_nat (b * T + i + j * step))
          ∧ (i + j * step < T → get v [b; i; j] = get x [b; i + j * step]).
Proof.
  intros HB HL Hstep Hlen x. subst x. unfold as_windowed.
  cbn [contiguous2 shape stride].
  rewrite as_windowed_layout_last by lia.
  cbn [mbind option_bind]. unfold as_strided.
  cbn [contiguous2 storage offset length].
  unfold storage_needed. rewrite (bool_decide_eq_false_2 (Exists _ _))
    by (rewrite Exists_zero3; lia).
  cbn [map dot].
  assert (Hiff : is_Some
            (if bool_decide
                  (3%nat = 3%nat
                   ∧ Forall (λ n, 0 <= n) [B; T - L + 1; L]
                   ∧ Forall (λ s, 0 <= s) [T; 1; 1 * step]
                   ∧ 0 + 1 + ((B - 1) * T + ((T - L + 1 - 1) * 1
                                              + ((L - 1) * (1 * step) + 0)))
                     <= Z.of_nat (length l))
             then Some (mk l 0 [B; T - L + 1; L] [T; 1; 1 * step]) else None)
          ↔ (B - 1) * T + (T - L) + (L - 1) * step + 1 <= Z.of_nat (length l)).
  { case_bool_decide as Hc.
    - split; [intros _|eauto]. destruct Hc as (_ & _ & _ & Hc). nia.
    - split; [intros [? [=]]|]. intros Hle. exfalso. apply Hc.
      split; [reflexivity|]. split; [apply Forall_nonneg3; lia|].
      split; [apply Forall_nonneg3; lia|]. nia. }
  split; [exact Hiff|]. split.
  - intros Heq. rewrite Hiff. rewrite Heq. split; nia.
  - intros v. case_bool_decide as Hc; [|discriminate]. intros [= <-].
    split; [reflexivity|]. intros b i j Hb Hi Hj.
    destruct Hc as (_ & _ & _ & Hc).
    unfold get. cbn [contiguous2 shape stride storage offset in_range dot].
    rewrite !(bool_decide_eq_true_2 (0 <= _ < _)) by lia. cbn [andb].
    split; [do 2 f_equal; ring|].
    split; [apply lookup_lt_is_Some; nia|].
    intros Hin. rewrite bool_decide_eq_true_2 by nia. cbn [andb].
    do 2 f_equal. ring.
Qed.

(** X4.  With [dim = 0] on a contiguous [T x F] tensor at the start of a
    storage of [S] elements the window axis is inserted before the axis it
    windows and takes the step: the view has shape [L, T - L + 1, F] and
    element [(j, i, f)] is storage element [(i + j * step) * F + f], which
    is [x[i + j * step, f]] while [i + j * step < T].  The call returns
    exactly when [((L - 1) * step + (T - L) + 1) * F <= S]; for a tensor
    that fills its storage, exactly when [step = 1] or [L = 1]. *)
Theorem as_windowed_dim0_window_axis_first {A} (l : list A) (T F L step : Z) :
  1 <= F → 1 <= L <= T → 1 <= step → T * F <= Z.of_nat (length l) →
  let x := contiguous2 l T F in
  (is_Some (as_windowed x L step 0)
   ↔ ((L - 1) * step + (T - L) + 1) * F <= Z.of_nat (length l))
  ∧ (Z.of_nat (length l) = T * F →
     (is_Some (as_windowed x L step 0) ↔ step = 1 ∨ L = 1))
  ∧ ∀ v, as_windowed x L step 0 = Some v →
      shape v = [L; T - L + 1; F]
      ∧ ∀ j i f, 0 <= j < L → 0 <= i < T - L + 1 → 0 <= f < F →
          get v [j; i; f] = l !! Z.to_nat ((i + j * step) * F + f)
          ∧ is_Some (l !! Z.to_nat ((i + j * step) * F + f))
          ∧ (i + j * step < T → get v [j; i; f] = get x [i + j * step; f]).
Proof.
  intros HF HL Hstep Hlen x. subst x. unfold as_windowed.
  cbn [contiguous2 shape stride].
  rewrite as_windowed_layout_dim0 by lia.
  cbn [mbind option_bind]. unfold as_strided.
  cbn [contiguous2 storage offset length].
  unfold storage_needed. rewrite (bool_decide_eq_false_2 (Exists _ _))
    by (rewrite Exists_zero3; lia).
  cbn [map dot].
  assert (Hiff : is_Some
            (if bool_decide
                  (3%nat = 3%nat
                   ∧ Forall (λ n, 0 <= n) [L; T - L + 1; F]
                   ∧ Forall (λ s, 0 <= s) [F * step; F; 1]
                   ∧ 0 + 1 + ((L - 1) * (F * step) + ((T - L + 1 - 1) * F
                                                      + ((F - 1) * 1 + 0)))
                     <= Z.of_nat (length l))
             then Some (mk l 0 [L; T - L + 1; F] [F * step; F; 1]) else None)
          ↔ ((L - 1) * step + (T - L) + 1) * F <= Z.of_nat (length l)).
  { case_bool_decide as Hc.
    - split; [intros _|eauto]. destruct Hc as (_ & _ & _ & Hc). nia.
    - split; [intros [? [=]]|]. intros Hle. exfalso. apply Hc.
      split; [reflexivity|]. split; [apply Forall_nonneg3; lia|].
      split; [apply Forall_nonneg3; nia|]. nia. }
  split; [exact Hiff|]. split.
  - intros Heq. rewrite Hiff. rewrite Heq. split; nia.
  - intros v. case_bool_decide as Hc; [|discriminate]. intros [= <-].
    split; [reflexivity|]. intros j i f Hj Hi Hf.
    destruct Hc as (_ & _ & _ & Hc).
    unfold get. cbn [contiguous2 shape stride storage offset in_range dot].
    rewrite !(bool_decide_eq_true_2 (0 <= _ < _)) by lia. cbn [andb].
    split; [do 2 f_equal; ring|].
    split; [apply lookup_lt_is_Some; nia|].
    intros Hin. rewrite bool_decide_eq_true_2 by nia. cbn [andb].
    do 2 f_equal. ring.
Qed.
End AsWindowedBranches.

(** ** [_compute_mat_trace] *)

Section TraceAnyBatch.
Import Torch MultiFrame.
Context {K : Type} `{Scalar K}.

Lemma delete_app_r {A} (l1 l2 : list A) (k : nat) :
  delete (length l1 + k)%nat (l1 ++ l2) = l1 ++ delete k l2.
Proof.
  induction l1 as [|a l1 IH]; [reflexivity|].
  simpl. f_equal. exact IH.
Qed.

Lemma delete_app_0 {A} (l1 l2 : list A) (a : A) :
  delete (length l1) (l1 ++ a :: l2) = l1 ++ l2.
Proof.
  rewrite <- (Nat.add_0_r (length l1)). by rewrite delete_app_r.
Qed.

Lemma index_last (bs : list nat) (a b : nat) :
  PyList.index (length (bs ++ [a; b])) (-1) = Some (length bs + 1)%nat.
Proof.
  rewrite index_neg by (rewrite length_app; cbn; lia).
  f_equal. rewrite length_app. cbn. lia.
Qed.

Lemma index_last2 (bs : list nat) (a b : nat) :
  PyList.index (length (bs ++ [a; b])) (-2) = Some (length bs).
Proof.
  rewrite index_neg by (rewrite length_app; cbn; lia).
  f_equal. rewrite length_app. cbn. lia.
Qed.

Lemma lookup_last (bs : list nat) (a b : nat) :
  (bs ++ [a; b]) !! (length bs + 1)%nat = Some b.
Proof.
  rewrite lookup_app_r by lia.
  by replace (length bs + 1 - length bs)%nat with 1%nat by lia.
Qed.

Lemma lookup_last2 (bs : list nat) (a b : nat) :
  (bs ++ [a; b]) !! length bs = Some a.
Proof. rewrite lookup_app_r by lia. by rewrite Nat.sub_diag. Qed.

(** X5.  [_compute_mat_trace] with its default dimensions, on a tensor of
    shape [batch + (n, m)] for any batch shape: the assertion fails when
    [n <> m]; for [n = m] the result has the batch shape and holds, per
    batch index, the sum of the diagonal entries. *)
Theorem compute_mat_trace_any_batch (input : tensor (complex K)) (bs : list nat)
    (n m : nat) :
  shape input = bs ++ [n; m] →
  (n ≠ m → _compute_mat_trace input (-1) (-2) = None)
  ∧ (n = m →
     ∃ tr, _compute_mat_trace input (-1) (-2) = Some tr
           ∧ shape tr = bs
           ∧ ∀ idx, length idx = length bs →
               elem tr idx = Complex.csum n (λ k, elem input (idx ++ [k; k]))).
Proof.
  intros Hs. destruct input as [s e]. cbn [shape] in Hs. subst s.
  unfold _compute_mat_trace, PyList.getitem, rank. cbn [shape].
  rewrite bool_decide_eq_true_2 by (rewrite length_app; cbn; lia).
  rewrite index_last, index_last2. cbn [mbind option_bind].
  rewrite lookup_last, lookup_last2. cbn [mbind option_bind].
  split.
  - intros Hne. by rewrite bool_decide_eq_false_2 by congruence.
  - intros <-. rewrite bool_decide_eq_true_2 by done.
    unfold diagonal, dim_index, rank. cbn [shape].
    rewrite index_last, index_last2. cbn [mbind option_bind].
    rewrite lookup_last, lookup_last2. cbn [mbind option_bind].
    rewrite bool_decide_eq_true_2 by lia. cbn [mbind option_bind].
    rewrite Nat.min_id.
    replace (Nat.min (length bs + 1) (length bs)) with (length bs) by lia.
    replace (Nat.max (length bs + 1) (length bs)) with (length bs + 1)%nat by lia.
    rewrite delete_app_r. cbn [delete list_delete].
    rewrite delete_app_0.
    unfold Torch.sum, dim_index, rank. cbn [shape].
    rewrite index_neg by (rewrite !length_app; cbn; lia).
    replace (Z.to_nat (Z.of_nat (length ((bs ++ []) ++ [n])) + -1)) with (length bs)
      by (rewrite !length_app; cbn; lia).
    cbn [mbind option_bind]. rewrite app_nil_r.
    rewrite lookup_app_r by lia. rewrite Nat.sub_diag. cbn [lookup list_lookup].
    cbn [mbind option_bind].
    eexists; split; [reflexivity|]. cbn [shape elem]. split.
    + rewrite delete_app_0. by rewrite app_nil_r.
    + intros idx Hlen. apply csum_ext. intros k Hk.
      rewrite length_app. cbn [length]. rewrite <- Hlen.
      rewrite firstn_all, skipn_all. cbn [app].
      replace (length idx + 2 - 2)%nat with (length idx) by lia.
      rewrite take_app_length.
      rewrite list_lookup_total_middle by done.
      replace (length idx + 1 - length idx - 1)%nat with 0%nat by lia.
      replace (length idx + 1 - 1)%nat with (length idx) by lia.
      rewrite firstn_all, skipn_all. cbn [take app]. reflexivity.
Qed.
End TraceAnyBatch.

(** ** [psd], [CRM.forward_impl] and the algebra of [_tik_reg] *)

Section PsdStack.
Import Torch MultiFrame.
Context {K : Type} `{Scalar K}.

(** [psd] on a non-empty spectrogram, all entries at once. *)
Lemma psd_stack (x : tensor (complex K)) (B C T F : nat) (n : Z) :
  shape x = [B; C; T; F] →
  1 <= n → (0 < T)%nat →
  ∃ R, psd x n = Some R
       ∧ shape R = [B; C; T; F; Z.to_nat n; Z.to_nat n]
       ∧ ∀ b c t f i j,
           (b < B)%nat → (c < C)%nat → (t < T)%nat → (f < F)%nat →
           (i < Z.to_nat n)%nat → (j < Z.to_nat n)%nat →
           elem R [b; c; t; f; i; j]
           = Complex.cmul (Reference.frame (elem x) T n 0 b c t f j)
               (Complex.conj (Reference.frame (elem x) T n 0 b c t f i)).
Proof.
  intros Hshape Hn HT.
  destruct x as [s e]. cbn [shape] in Hshape. subst s.
  unfold psd, Reference.frame, pad. norm. repeat guard_true. norm.
  unfold unfold. norm. eval_dims. norm. guard_true. norm.
  unfold einsum_n_m_mn. norm. rewrite broadcast_shapes_same. norm.
  eexists; split; [reflexivity|]. norm. split.
  - repeat f_equal; try lia. rewrite Z.div_1_r. lia.
  - intros b c t f i j Hb Hc Ht Hf Hi Hj.
    unfold bidx. norm. rewrite !bix_lt by (try rewrite Z.div_1_r; lia).
    change (Z.to_nat 1) with 1%nat. rewrite Nat.mul_1_r.
    rewrite (bool_decide_eq_true_2 (0 ≤ Z.of_nat f - 0 < Z.of_nat F)) by lia.
    replace (n - 1 - 0) with (n - 1) by lia.
    f_equal; [|f_equal];
      (case_bool_decide as Hc1; case_bool_decide as Hc2; try lia; norm;
       [|reflexivity]; repeat f_equal; lia).
Qed.

(** X6.  [CRM.forward_impl] is the pointwise complex product with the
    mask, at every frequency bin: on a frame stack [B, C, T, F, 1] the
    unit frame axis is squeezed first, on a spectrogram [B, C, T, F]
    with more than one bin [squeeze(-1)] does nothing.  [num_freqs]
    plays no part. *)
Theorem CRM_forward_impl_product (m : CRM) (spec coefs : tensor (complex K))
    (B C T F : nat) (b c t f : nat) :
  shape coefs = [B; C; T; F] →
  (b < B)%nat → (c < C)%nat → (t < T)%nat → (f < F)%nat →
  (shape spec = [B; C; T; F; 1%nat] →
   ∃ Y, CRM_forward_impl m spec coefs = Some Y
        ∧ shape Y = [B; C; T; F]
        ∧ elem Y [b; c; t; f]
          = Complex.cmul (elem spec [b; c; t; f; 0%nat]) (elem coefs [b; c; t; f]))
  ∧ (shape spec = [B; C; T; F] → F ≠ 1%nat →
     ∃ Y, CRM_forward_impl m spec coefs = Some Y
          ∧ shape Y = [B; C; T; F]
          ∧ elem Y [b; c; t; f]
            = Complex.cmul (elem spec [b; c; t; f]) (elem coefs [b; c; t; f])).
Proof.
  intros Hc Hb Hcc Ht Hf.
  destruct coefs as [s' e']. cbn [shape] in Hc. subst s'.
  split.
  - intros Hs. destruct spec as [s e]. cbn [shape] in Hs. subst s.
    unfold CRM_forward_impl, squeeze. run.
    rewrite !bdim_same. run.
    eexists; split; [reflexivity|]. split; [reflexivity|].
    norm. unfold bidx. norm. rewrite !bix_lt by lia. reflexivity.
  - intros Hs HF. destruct spec as [s e]. cbn [shape] in Hs. subst s.
    unfold CRM_forward_impl, squeeze. run.
    rewrite bool_decide_eq_false_2 by done. run.
    rewrite !bdim_same. run.
    eexists; split; [reflexivity|]. split; [reflexivity|].
    norm. unfold bidx. norm. rewrite !bix_lt by lia. reflexivity.
Qed.
End PsdStack.

Section HermitianAlgebra.
Import Torch MultiFrame.
Context {K : Type} `{Scalar K}.
Hypothesis Kring : ring_theory zero one add mul sub opp (@eq K).
Add Ring Kring_Hermitian : Kring.

Lemma conj_cmul_conj (a b : complex K) :
  Complex.conj (Complex.cmul a (Complex.conj b)) = Complex.cmul b (Complex.conj a).
Proof.
  destruct a, b. unfold Complex.conj, Complex.cmul. cbn [Complex.re Complex.im].
  f_equal; ring.
Qed.

(** X7.  Every matrix [psd] returns is Hermitian, and its diagonal is
    real: entry [(i, i)] is the squared magnitude of frame [i] of the
    window. *)
Theorem psd_hermitian (x : tensor (complex K)) (B C T F : nat) (n : Z)
    (b c t f i j : nat) :
  shape x = [B; C; T; F] →
  1 <= n →
  (b < B)%nat → (c < C)%nat → (t < T)%nat → (f < F)%nat →
  (i < Z.to_nat n)%nat → (j < Z.to_nat n)%nat →
  ∃ R, psd x n = Some R
       ∧ elem R [b; c; t; f; j; i] = Complex.conj (elem R [b; c; t; f; i; j])
       ∧ Complex.im (elem R [b; c; t; f; i; i]) = zero
       ∧ Complex.re (elem R [b; c; t; f; i; i])
         = let v := Reference.frame (elem x) T n 0 b c t f i in
           (Complex.re v * Complex.re v + Complex.im v * Complex.im v)%K.
Proof.
  intros Hs Hn Hb Hc Ht Hf Hi Hj.
  destruct (psd_stack x B C T F n Hs Hn) as (R & HR & _ & HeR); [lia|].
  exists R. split; [exact HR|]. rewrite !HeR by lia.
  split; [by rewrite conj_cmul_conj|].
  cbn zeta. destruct (Reference.frame _ _ _ _ _ _ _ _ _) as [vr vi].
  unfold Complex.cmul, Complex.conj. cbn [Complex.re Complex.im].
  split; ring.
Qed.

(** X8.  [_tik_reg] changes the real parts of the diagonal only: every
    imaginary part and every off-diagonal entry is kept, the real part of
    a diagonal entry grows by [real(trace) * reg + eps], and a Hermitian
    pair of entries stays Hermitian. *)
Theorem tik_reg_real_diagonal_only (mat : tensor (complex K)) (n : nat) (reg eps : K)
    (i j : nat) :
  shape mat = [n; n] →
  (i < n)%nat → (j < n)%nat →
  ∃ R, _tik_reg mat reg eps = Some R
       ∧ Complex.im (elem R [i; j]) = Complex.im (elem mat [i; j])
       ∧ (i ≠ j → elem R [i; j] = elem mat [i; j])
       ∧ Complex.re (elem R [i; i])
         = (Complex.re (elem mat [i; i])
            + (Complex.re (Complex.csum n (λ k, elem mat [k; k])) * reg + eps))%K
       ∧ (elem mat [j; i] = Complex.conj (elem mat [i; j]) →
          elem R [j; i] = Complex.conj (elem R [i; j])).
Proof.
  intros Hshape Hi Hj.
  destruct mat as [s e]. cbn [shape] in Hshape. subst s.
  unfold _tik_reg, _compute_mat_trace, diagonal, Torch.sum, eye. run.
  rewrite !bdim_1_l. run. rewrite !bdim_same. run.
  eexists; split; [reflexivity|]. norm.
  unfold bidx. norm. rewrite !bix_lt by lia.
  rewrite Nat.min_id.
  fold (@Complex.csum K _ n (λ k, e [k; k])).
  set (tr := Complex.re (Complex.csum n (λ k, e [k; k]))).
  rewrite (bool_decide_eq_true_2 (i = i)) by done.
  rewrite (bool_decide_ext (j = i) (i = j)) by (split; congruence).
  split; [|split; [|split]].
  - case_bool_decide; unfold Complex.cadd, Complex.cmul, Complex.of_real,
      Complex.czero; cbn [Complex.re Complex.im]; ring.
  - intros Hne. rewrite bool_decide_eq_false_2 by done.
    destruct (e [i; j]) as [x y].
    unfold Complex.cadd, Complex.cmul, Complex.of_real, Complex.czero.
    cbn [Complex.re Complex.im]. f_equal; ring.
  - unfold Complex.cadd, Complex.cmul, Complex.of_real.
    cbn [Complex.re Complex.im]. ring.
  - intros ->. destruct (e [i; j]) as [x y].
    case_bool_decide; unfold Complex.conj, Complex.cadd, Complex.cmul,
      Complex.of_real, Complex.czero; cbn [Complex.re Complex.im]; f_equal; ring.
Qed.
End HermitianAlgebra.

(** ** The real-valued path: [spec_unfold_real] and [DFreal] *)

Section RealUnfold.
Import Torch MultiFrame.
Context {K : Type} `{Scalar K}.

(** X9.  For [frame_size > 1], [spec_unfold_real] on a spectrogram of
    (real, imag) pairs is [spec_unfold] on its complex view with the
    frame axis moved from last to third: entry [(b, c, t, f, n)] of the
    complex stack is the pair at [(b, c, n, t, f)] of the real one. *)
Theorem spec_unfold_real_matches_spec_unfold (selfr selfc : MultiFrameModule)
    (x : tensor K) (B C T F : nat) (nf N la : Z) (b c t f n : nat) :
  MultiFrameModule_init nf N la true = Some selfr →
  MultiFrameModule_init nf N la false = Some selfc →
  shape x = [B; C; T; F; 2%nat] →
  1 < N → 0 <= la < N →
  (b < B)%nat → (c < C)%nat → (t < T)%nat → (f < F)%nat → (n < Z.to_nat N)%nat →
  ∃ Ur xc Uc,
    spec_unfold_real selfr x = Some Ur
    ∧ view_as_complex x = Some xc
    ∧ spec_unfold selfc xc = Some Uc
    ∧ shape Ur = [B; C; Z.to_nat N; T; F; 2%nat]
    ∧ shape Uc = [B; C; T; F; Z.to_nat N]
    ∧ elem Uc [b; c; t; f; n]
      = Complex.mk (elem Ur [b; c; n; t; f; 0%nat]) (elem Ur [b; c; n; t; f; 1%nat]).
Proof.
  intros Hr Hc Hs HN Hla Hb Hcc Ht Hf Hn.
  destruct (spec_unfold_real_stack selfr x B C T F nf N la Hr Hs HN Hla)
    as (Ur & HUr & HsUr & HeUr); [lia|].
  destruct (view_as_complex_pairs x [B; C; T; F] Hs) as (xc & Hxc & Hsxc & Hexc).
  destruct (spec_unfold_stack selfc xc B C T F nf N la Hc Hsxc Hla)
    as (Uc & HUc & HsUc & HeUc); [lia|].
  exists Ur, xc, Uc. repeat (split; [done|]).
  rewrite HeUc, !HeUr by lia. cbn zeta. unfold Reference.frame.
  case_bool_decide; [|reflexivity].
  rewrite Hexc by reflexivity. reflexivity.
Qed.

(** X10.  With [frame_size <= 1], [spec_unfold_real] appends the frame
    axis last, [B, C, T, F, 2, 1], while the unfolded layout has it third;
    the [narrow(-2, 0, num_freqs)] of [DFreal.forward] then cuts the
    (real, imag) axis, so every call of a [DFreal] with [frame_size <= 1]
    and [num_freqs > 2] raises. *)
Theorem DFreal_unit_frame_size_raises (junk : list nat → K) (m : DFreal)
    (σ : gmap nat (tensor K)) (spec : nat) (X : tensor K)
    (B C T F : nat) (nf N la : Z) (conj : bool) :
  DFreal_init nf N la conj = Some m →
  N <= 1 → 2 < nf →
  σ !! spec = Some X → shape X = [B; C; T; F; 2%nat] →
  (∃ U, spec_unfold_real (DFreal_base m) X = Some U
        ∧ shape U = [B; C; T; F; 2%nat; 1%nat])
  ∧ ∀ mode coefs, DFreal_forward junk (DFreal_train mode m) σ spec coefs = None.
Proof.
  intros Hinit HN Hnf HX HsX. injection Hinit as <-.
  destruct X as [s e]. cbn [shape] in HsX. subst s.
  unfold spec_unfold_real. cbn [DFreal_base need_unfold].
  rewrite bool_decide_eq_false_2 by lia.
  split.
  - run. eexists; split; reflexivity.
  - intros mode coefs. unfold DFreal_forward, spec_unfold_real.
    cbn [DFreal_train DFreal_base set_training need_unfold num_freqs].
    rewrite HX. cbn [mbind option_bind].
    destruct (σ !! coefs); [|reflexivity]. cbn [mbind option_bind]. run.
    change (0 <? 0) with false. cbn iota.
    rewrite bool_decide_eq_false_2 by lia. reflexivity.
Qed.
End RealUnfold.

(** ** [DF.forward] on all bins, and [DFreal] against [DF] *)

Section DFBins.
Import Torch MultiFrame.
Context {K : Type} `{Scalar K}.

(** [DF.forward] on well-shaped arguments, all bins at once. *)
Lemma DF_forward_bins (m : DF) (mode : bool) (σ : gmap nat (tensor K))
    (spec coefs : nat) (X Cf : tensor K) (B C T F N nf : nat) (la : Z)
    (conj : bool) :
  DF_init (Z.of_nat nf) (Z.of_nat N) la conj = Some m →
  0 <= la < Z.of_nat N →
  (nf ≤ F)%nat →
  σ !! spec = Some X → shape X = [B; C; T; F; 2%nat] →
  σ !! coefs = Some Cf → shape Cf = [B; (C * N)%nat; T; nf; 2%nat] →
  (0 < B)%nat → (0 < T)%nat → (0 < nf)%nat →
  ∃ σ' out Y,
    DF_forward (DF_train mode m) σ spec coefs = Some (σ', out)
    ∧ σ' !! out = Some Y
    ∧ shape Y = [B; C; T; F; 2%nat]
    ∧ ∀ b c t f,
        (b < B)%nat → (c < C)%nat → (t < T)%nat → (f < F)%nat →
        Reference.bin Y [b; c; t; f]
        = if bool_decide (f < nf)%nat
          then Complex.csum N (λ n,
                 Complex.cmul
                   (Reference.frame (Reference.bin X) T (Z.of_nat N) la b c t f n)
                   ((if conj then Complex.conj else id)
                      (Reference.bin Cf [b; (c * N + n)%nat; t; f])))
          else Reference.bin X [b; c; t; f].
Proof.
  intros Hinit Hla Hnf HX HsX HCf HsCf HB HT Hnf0.
  unfold DF_init in Hinit. cbn [mbind option_bind] in Hinit.
  destruct (MultiFrameModule_init (Z.of_nat nf) (Z.of_nat N) la false)
    as [base|] eqn:Hbase; [|discriminate]. injection Hinit as <-.
  unfold DF_forward. cbn [DF_train DF_base DF_conj]. rewrite HX, HCf.
  cbn [mbind option_bind].
  destruct (view_as_complex_pairs X [B; C; T; F] HsX) as (Xc & -> & HsXc & HeXc).
  cbn [mbind option_bind].
  destruct (spec_unfold_stack base Xc B C T F _ _ la Hbase HsXc Hla)
    as (U & HU & HsU & HeU); [lia|].
  replace (spec_unfold (set_training mode base) Xc) with (spec_unfold base Xc)
    by reflexivity.
  rewrite HU. cbn [mbind option_bind].
  destruct (view_as_complex_pairs Cf [B; (C * N)%nat; T; nf] HsCf)
    as (Cc & -> & HsCc & HeCc).
  cbn [mbind option_bind].
  rewrite Nat2Z.id in HsU.
  replace (num_freqs (set_training mode base)) with (Z.of_nat nf)
    by (by injection Hbase as <-).
  replace (frame_size (set_training mode base)) with (Z.of_nat N)
    by (by injection Hbase as <-).
  destruct (narrow_freq U B C T F N nf HsU Hnf) as (Sf & -> & HsSf & HeSf).
  cbn [mbind option_bind].
  replace (shape Cc !! 0%nat) with (Some B) by (by rewrite HsCc).
  cbn [mbind option_bind].
  destruct (view_coefs Cc B C N T nf HsCc) as (Cv & -> & HsCv & HeCv);
    [lia..|].
  cbn [mbind option_bind].
  set (Cj := if conj then Torch.conj Cv else Cv).
  assert (HsCj : shape Cj = [B; C; N; T; nf]) by (subst Cj; by destruct conj).
  destruct (df_taps Sf Cj B C T nf N HsSf HsCj) as (V & -> & HsV & HeV).
  cbn [mbind option_bind].
  replace (training (set_training mode base)) with mode by reflexivity.
  destruct (setitem_band X (view_as_real V) B C T F nf HsX) as (Y & HY & HsY & HeY);
    [cbn; by rewrite HsV | done |].
  destruct (write_back_spec mode (Z.of_nat nf) σ spec X (view_as_real V) Y HX HY)
    as (σ' & out & -> & Hout & _).
  exists σ', out, Y. split; [reflexivity|]. split; [exact Hout|].
  split; [exact HsY|].
  intros b c t f Hb Hc Ht Hf.
  unfold Reference.bin at 1. cbn [app].
  rewrite !HeY by lia. case_bool_decide as Hband; [|reflexivity].
  cbn [view_as_real elem]. unfold rank. rewrite HsV. norm.
  rewrite bool_decide_eq_true_2 by done. rewrite bool_decide_eq_false_2 by done.
  rewrite HeV by lia.
  transitivity (Complex.csum N (λ n,
      Complex.cmul
        (Reference.frame (Reference.bin X) T (Z.of_nat N) la b c t f n)
        ((if conj then Complex.conj else id)
           (Reference.bin Cf [b; (c * N + n)%nat; t; f])))).
  2: reflexivity.
  destruct (Complex.csum N _) as [re im] eqn:Hsum. cbn [Complex.re Complex.im].
  rewrite <- Hsum. apply csum_ext. intros n Hn.
  rewrite HeSf, HeU by lia.
  f_equal.
  - unfold Reference.frame. case_bool_decide; [|reflexivity].
    apply HeXc. reflexivity.
  - subst Cj. destruct conj; cbn [Torch.conj map1 elem];
      rewrite HeCv by lia; rewrite HeCc by reflexivity; reflexivity.
Qed.

(** X11.  [df_real] never returns what [torch.empty] held: on frame stacks
    and taps of the same shape two runs with different uninitialised
    contents agree at every index of the output. *)
Theorem df_real_overwrites_empty (junk1 junk2 : list nat → K) (spec coefs : tensor K)
    (B C N T F : nat) (b c t f k : nat) :
  shape spec = [B; C; N; T; F; 2%nat] →
  shape coefs = [B; C; N; T; F; 2%nat] →
  (b < B)%nat → (c < C)%nat → (t < T)%nat → (f < F)%nat → (k < 2)%nat →
  ∃ v1 v2, df_real junk1 spec coefs = Some v1
           ∧ df_real junk2 spec coefs = Some v2
           ∧ shape v1 = [B; C; T; F; 2%nat]
           ∧ shape v2 = [B; C; T; F; 2%nat]
           ∧ elem v1 [b; c; t; f; k] = elem v2 [b; c; t; f; k].
Proof.
  intros Hs Hc Hb Hcc Ht Hf Hk.
  destruct (df_real_taps junk1 spec coefs B C N T F Hs Hc) as (v1 & H1 & Hs1 & He1).
  destruct (df_real_taps junk2 spec coefs B C N T F Hs Hc) as (v2 & H2 & Hs2 & He2).
  exists v1, v2. repeat (split; [done|]).
  destruct (He1 b c t f) as [E10 E11]; try lia.
  destruct (He2 b c t f) as [E20 E21]; try lia.
  destruct k as [|[|k]]; [| |lia]; congruence.
Qed.
End DFBins.

(** ** Where [forward] writes *)

Section InPlace.
Import Torch MultiFrame.
Context {K : Type} `{Scalar K} `{Division K}.

(** C10.  [DFreal.forward] never copies.  On well-shaped arguments (a
    spectrogram [B, C, T, F, 2], coefficients [B, C * N, T, nf, 2],
    [frame_size = N > 1]) and in either mode it returns the spectrogram
    object it was given, and the store after the call differs from the one
    before at that object only; the tensor now held there has the same
    shape, its bins below [num_freqs] hold the real-split deep filter of
    the original contents,
    [re = sum (win.re * coef.re) - sum (win.im * coef.im)] and
    [im = sum (win.re * coef.im) + sum (win.im * coef.re)], and its other
    bins are as before.  Whatever the arguments, a [DFreal] call that
    returns has written into its argument and returned it.  [DF] in
    training mode, on the same arguments, returns a new object that holds
    the filtered spectrogram and leaves the argument as it was; and every
    call of a [DF], [MfWf] or [MfMvdr] module in training mode that
    returns has returned a new object and changed no existing one. *)
Theorem forward_aliasing (junk : list nat → K) (σ : gmap nat (tensor K))
    (spec coefs : nat) (X Cf : tensor K) (B C T F N nf : nat) (la : Z)
    (b c t f : nat) :
  (1 < N)%nat → 0 <= la < Z.of_nat N → (0 < nf ≤ F)%nat →
  σ !! spec = Some X → shape X = [B; C; T; F; 2%nat] →
  σ !! coefs = Some Cf → shape Cf = [B; (C * N)%nat; T; nf; 2%nat] →
  (b < B)%nat → (c < C)%nat → (t < T)%nat → (f < F)%nat →
  let win n := Reference.frame (Reference.bin X) T (Z.of_nat N) la b c t f n in
  let coef n := Reference.bin Cf [b; (c * N + n)%nat; t; f] in
  let dot (p q : complex K → K) := sum_n add zero N (λ n, p (win n) * q (coef n))%K in
  (∀ m conj mode,
     DFreal_init (Z.of_nat nf) (Z.of_nat N) la conj = Some m →
     ∃ Y, DFreal_forward junk (DFreal_train mode m) σ spec coefs
          = Some (<[spec := Y]> σ, spec)
          ∧ shape Y = shape X
          ∧ ((f < nf)%nat →
             elem Y [b; c; t; f; 0%nat]
             = sub (dot Complex.re Complex.re) (dot Complex.im Complex.im)
             ∧ elem Y [b; c; t; f; 1%nat]
               = add (dot Complex.re Complex.im) (dot Complex.im Complex.re))
          ∧ ((nf ≤ f)%nat → ∀ k, elem Y [b; c; t; f; k] = elem X [b; c; t; f; k]))
  ∧ (∀ m σ' out args,
       forward junk (FDFreal m) σ spec args = Some (σ', out) →
       out = spec ∧ ∃ Y, σ' = <[spec := Y]> σ)
  ∧ (∀ m conj,
       DF_init (Z.of_nat nf) (Z.of_nat N) la conj = Some m →
       ∃ out Y, DF_forward (DF_train true m) σ spec coefs = Some (<[out := Y]> σ, out)
                ∧ (out ∉ dom σ)
                ∧ (<[out := Y]> σ) !! spec = Some X
                ∧ shape Y = shape X
                ∧ Reference.bin Y [b; c; t; f]
                  = if bool_decide (f < nf)%nat
                    then Complex.csum N (λ n,
                           Complex.cmul (win n)
                             ((if conj then Complex.conj else id) (coef n)))
                    else Reference.bin X [b; c; t; f])
  ∧ (∀ flt σ' out args,
       clones flt = true →
       forward junk flt σ spec args = Some (σ', out) →
       (out ∉ dom σ) ∧ ∀ l, l ∈ dom σ → σ' !! l = σ !! l).
Proof.
  intros HN Hla Hnf HX HsX HCf HsCf Hb Hc Ht Hf win coef dot.
  split; [|split; [|split]].
  - intros m conj mode Hm.
    destruct (DFreal_forward_taps junk m mode σ spec coefs X Cf B C T F N nf la conj
                b c t 0%nat Hm HN Hla) as (Y & HF & HsY & _);
      [lia | done | done | done | done | lia..|].
    exists Y. split; [exact HF|]. split; [by rewrite HsY, HsX|]. split.
    + intros Hband.
      destruct (DFreal_forward_taps junk m mode σ spec coefs X Cf B C T F N nf la conj
                  b c t f Hm HN Hla) as (Y' & HF' & _ & He0 & He1);
        [lia | done | done | done | done | lia..|].
      rewrite HF in HF'. injection HF' as HY.
      assert (Y' = Y) as ->.
      { apply (f_equal (λ s, s !! spec)) in HY. rewrite !lookup_insert_eq in HY.
        by injection HY. }
      split; [exact He0|exact He1].
    + intros Hpass k.
      rewrite DFreal_forward_decompose, HX, HCf in HF.
      cbn [mbind option_bind] in HF.
      destruct (DFreal_filter _ _ X Cf) as [v|]; [|discriminate].
      cbn [mbind option_bind] in HF.
      destruct (write_back_inv _ _ _ _ _ _ _ HF) as (X' & Y' & HX' & HY' & HoY' & _).
      rewrite HX in HX'. injection HX' as <-.
      rewrite lookup_insert_eq in HoY'. injection HoY' as <-.
      destruct (setitem_prefix2_inv _ _ _ _ HY') as [_ Hkeep].
      assert (Hnum : num_freqs (DFreal_base (DFreal_train mode m)) = Z.of_nat nf).
      { unfold DFreal_init in Hm. cbn in Hm. by injection Hm as <-. }
      rewrite Hnum in Hkeep. unfold rank in Hkeep. rewrite HsX in Hkeep.
      cbn [length Nat.sub lookup_total list_lookup_total] in Hkeep.
      rewrite slice_stop_le in Hkeep by lia.
      apply Hkeep. cbn. lia.
  - intros m σ' out args Hfw.
    destruct args as [|a [|? ?]]; cbn [forward] in Hfw; try discriminate.
    rewrite DFreal_forward_decompose in Hfw.
    destruct (σ !! spec) as [X0|]; [|discriminate].
    destruct (σ !! a) as [Cf0|]; [|discriminate].
    cbn [mbind option_bind] in Hfw.
    destruct (DFreal_filter junk m _ _) as [v|]; [|discriminate].
    cbn [mbind option_bind] in Hfw.
    destruct (write_back_inv _ _ _ _ _ _ _ Hfw) as (X' & Y & _ & _ & _ & -> & ->).
    split; [reflexivity|]. by exists Y.
  - intros m conj Hm.
    destruct (DF_forward_bins m true σ spec coefs X Cf B C T F N nf la conj Hm Hla)
      as (σ' & out & Y & HF & Ho & HsY & HeY);
      [lia | done | done | done | done | lia..|].
    pose proof HF as HF'.
    rewrite DF_forward_decompose, HX, HCf in HF'.
    cbn [mbind option_bind] in HF'.
    destruct (DF_filter _ X Cf) as [v|]; [|discriminate].
    cbn [mbind option_bind] in HF'.
    replace (training (DF_base (DF_train true m))) with true in HF' by reflexivity.
    destruct (write_back_inv _ _ _ _ _ _ _ HF') as (X' & Y' & _ & _ & Ho' & Hfresh & ->).
    rewrite Ho in Ho'. injection Ho' as <-.
    exists out, Y. split; [exact HF|]. split; [exact Hfresh|].
    split.
    { rewrite lookup_insert_ne; [exact HX|]. intros ->. apply Hfresh.
      by apply elem_of_dom. }
    split; [by rewrite HsY, HsX|]. by apply HeY.
  - intros flt σ' out args Hcl Hfw.
    destruct (forward_inv _ _ _ _ _ _ _ Hfw)
      as (filt & X0 & As & v & _ & _ & _ & Hwb & _).
    rewrite Hcl in Hwb.
    destruct (write_back_inv _ _ _ _ _ _ _ Hwb) as (X' & Y & _ & _ & _ & Hfresh & ->).
    split; [exact Hfresh|]. intros l Hl. apply lookup_insert_ne. intros ->. done.
Qed.
End InPlace.

Section DFAlgebra.
Import Torch MultiFrame.
Context {K : Type} `{Scalar K}.
Hypothesis Kring : ring_theory zero one add mul sub opp (@eq K).
Add Ring Kring_DFAlgebra : Kring.

Lemma csum_cmul_parts (N : nat) (a w : nat → complex K) :
  Complex.csum N (λ n, Complex.cmul (a n) (w n))
  = Complex.mk
      (sub (sum_n add zero N (λ n, Complex.re (a n) * Complex.re (w n))%K)
           (sum_n add zero N (λ n, Complex.im (a n) * Complex.im (w n))%K))
      (add (sum_n add zero N (λ n, Complex.re (a n) * Complex.im (w n))%K)
           (sum_n add zero N (λ n, Complex.im (a n) * Complex.re (w n))%K)).
Proof.
  unfold Complex.csum. induction N as [|N IH].
  - cbn. unfold Complex.czero. f_equal; ring.
  - cbn [sum_n]. rewrite IH. unfold Complex.cadd, Complex.cmul.
    cbn [Complex.re Complex.im]. f_equal; ring.
Qed.

Lemma csum_single (N k : nat) (a : nat → complex K) :
  (k < N)%nat →
  Complex.csum N (λ n, Complex.cmul (a n)
                         (if bool_decide (n = k) then Complex.of_real one
                          else Complex.czero))
  = a k.
Proof.
  intros Hk. unfold Complex.csum. induction N as [|N IH]; [lia|].
  cbn [sum_n]. destruct (decide (k = N)) as [->|Hne].
  - rewrite (sum_n_ext _ _ N _ (λ _, Complex.czero)).
    2:{ intros n Hn. rewrite bool_decide_eq_false_2 by lia.
        unfold Complex.cmul, Complex.czero. cbn [Complex.re Complex.im].
        f_equal; ring. }
    fold (@Complex.csum K _ N (λ _, Complex.czero)). rewrite (csum_zero Kring).
    rewrite bool_decide_eq_true_2 by done. destruct (a N) as [x y].
    unfold Complex.cadd, Complex.cmul, Complex.czero, Complex.of_real.
    cbn [Complex.re Complex.im]. f_equal; ring.
  - rewrite IH by lia. rewrite bool_decide_eq_false_2 by lia.
    destruct (a k) as [x y].
    unfold Complex.cadd, Complex.cmul, Complex.czero.
    cbn [Complex.re Complex.im]. f_equal; ring.
Qed.

(** X12.  [DFreal.forward] computes what [DF.forward] with [conj = False]
    computes: on the same spectrogram and coefficients the two results
    have the same shape and the same entries, in the filtered band and
    above it, whatever the [conj] flag of the [DFreal] module (its
    coefficients are real tensors, [conj()] leaves them as they are) and
    whatever the modes.  [DFreal] writes into its argument. *)
Theorem DFreal_matches_DF (junk : list nat → K) (m : DF) (mr : DFreal)
    (mode moder : bool) (σ : gmap nat (tensor K)) (spec coefs : nat)
    (X Cf : tensor K) (B C T F N nf : nat) (la : Z) (conjr : bool)
    (b c t f k : nat) :
  DF_init (Z.of_nat nf) (Z.of_nat N) la false = Some m →
  DFreal_init (Z.of_nat nf) (Z.of_nat N) la conjr = Some mr →
  (1 < N)%nat →
  0 <= la < Z.of_nat N →
  (nf ≤ F)%nat →
  σ !! spec = Some X → shape X = [B; C; T; F; 2%nat] →
  σ !! coefs = Some Cf → shape Cf = [B; (C * N)%nat; T; nf; 2%nat] →
  (0 < nf)%nat →
  (b < B)%nat → (c < C)%nat → (t < T)%nat → (f < F)%nat → (k < 2)%nat →
  ∃ σ1 o1 Y1 Y2,
    DF_forward (DF_train mode m) σ spec coefs = Some (σ1, o1)
    ∧ σ1 !! o1 = Some Y1
    ∧ DFreal_forward junk (DFreal_train moder mr) σ spec coefs
      = Some (<[spec := Y2]> σ, spec)
    ∧ shape Y1 = shape Y2
    ∧ elem Y1 [b; c; t; f; k] = elem Y2 [b; c; t; f; k].
Proof.
  intros Hm Hmr HN Hla Hnf HX HsX HCf HsCf Hnf0 Hb Hc Ht Hf Hk.
  destruct (DF_forward_bins m mode σ spec coefs X Cf B C T F N nf la false
              Hm Hla Hnf HX HsX HCf HsCf)
    as (σ1 & o1 & Y1 & HF1 & Ho1 & HsY1 & HeY1); [lia..|].
  destruct (DFreal_forward_taps junk mr moder σ spec coefs X Cf B C T F N nf la conjr
              b c t 0%nat Hmr HN Hla Hnf HX HsX HCf HsCf)
    as (Y2 & HF2 & HsY2 & _); [lia..|].
  exists σ1, o1, Y1, Y2. split; [exact HF1|]. split; [exact Ho1|].
  split; [exact HF2|]. split; [by rewrite HsY1, HsY2|].
  specialize (HeY1 b c t f Hb Hc Ht Hf).
  destruct (decide (f < nf)%nat) as [Hband|Hband].
  - rewrite bool_decide_eq_true_2 in HeY1 by done.
    rewrite csum_cmul_parts in HeY1. unfold Reference.bin at 1 in HeY1.
    cbn [app] in HeY1. injection HeY1 as Hre Him.
    destruct (DFreal_forward_taps junk mr moder σ spec coefs X Cf B C T F N nf la conjr
                b c t f Hmr HN Hla Hnf HX HsX HCf HsCf)
      as (Y2' & HF2' & _ & He0 & He1); [lia..|].
    rewrite HF2 in HF2'. injection HF2' as HY.
    assert (Y2' = Y2) as ->.
    { apply (f_equal (λ s, s !! spec)) in HY. rewrite !lookup_insert_eq in HY.
      by injection HY. }
    destruct k as [|[|k]]; [| |lia]; [rewrite Hre, He0|rewrite Him, He1];
      reflexivity.
  - rewrite bool_decide_eq_false_2 in HeY1 by done.
    unfold Reference.bin in HeY1. cbn [app] in HeY1. injection HeY1 as Hre Him.
    rewrite DFreal_forward_decompose, HX, HCf in HF2.
    cbn [mbind option_bind] in HF2.
    destruct (DFreal_filter _ _ X Cf) as [v|]; [|discriminate].
    cbn [mbind option_bind] in HF2.
    destruct (write_back_inv _ _ _ _ _ _ _ HF2) as (X' & Y' & HX' & HY' & HoY' & _).
    rewrite HX in HX'. injection HX' as <-.
    rewrite lookup_insert_eq in HoY'. injection HoY' as <-.
    destruct (setitem_prefix2_inv _ _ _ _ HY') as [_ Hpass].
    assert (Hnum : num_freqs (DFreal_base (DFreal_train moder mr)) = Z.of_nat nf).
    { unfold DFreal_init in Hmr. cbn in Hmr. by injection Hmr as <-. }
    rewrite Hnum in Hpass. unfold rank in Hpass. rewrite HsX in Hpass.
    cbn [length Nat.sub lookup_total list_lookup_total] in Hpass.
    rewrite slice_stop_le in Hpass by done.
    rewrite Hpass by (cbn; lia).
    destruct k as [|[|k]]; [| |lia]; assumption.
Qed.

(** X13.  Identity taps: when the tap at frame index
    [frame_size - 1 - lookahead] is 1 and all others are 0, [DF.forward]
    returns the spectrogram unchanged; that frame of the window at time
    [t] is the source at time [t]. *)
Theorem DF_identity_taps (m : DF) (mode : bool) (σ : gmap nat (tensor K))
    (spec coefs : nat) (X Cf : tensor K) (B C T F N nf : nat) (la : Z)
    (conj : bool) (b c t f : nat) :
  DF_init (Z.of_nat nf) (Z.of_nat N) la conj = Some m →
  0 <= la < Z.of_nat N →
  (nf ≤ F)%nat →
  σ !! spec = Some X → shape X = [B; C; T; F; 2%nat] →
  σ !! coefs = Some Cf → shape Cf = [B; (C * N)%nat; T; nf; 2%nat] →
  (∀ b c n t f,
     (b < B)%nat → (c < C)%nat → (n < N)%nat → (t < T)%nat → (f < nf)%nat →
     Reference.bin Cf [b; (c * N + n)%nat; t; f]
     = if bool_decide (Z.of_nat n = Z.of_nat N - 1 - la) then Complex.of_real one
       else Complex.czero) →
  (0 < nf)%nat →
  (b < B)%nat → (c < C)%nat → (t < T)%nat → (f < F)%nat →
  ∃ σ' out Y,
    DF_forward (DF_train mode m) σ spec coefs = Some (σ', out)
    ∧ σ' !! out = Some Y
    ∧ shape Y = shape X
    ∧ Reference.bin Y [b; c; t; f] = Reference.bin X [b; c; t; f].
Proof.
  intros Hm Hla Hnf HX HsX HCf HsCf Hid Hnf0 Hb Hc Ht Hf.
  destruct (DF_forward_bins m mode σ spec coefs X Cf B C T F N nf la conj
              Hm Hla Hnf HX HsX HCf HsCf)
    as (σ' & out & Y & HF & Ho & HsY & HeY); [lia..|].
  exists σ', out, Y. split; [exact HF|]. split; [exact Ho|].
  split; [by rewrite HsY, HsX|].
  rewrite HeY by done. case_bool_decide as Hband; [|reflexivity].
  set (k := Z.to_nat (Z.of_nat N - 1 - la)).
  rewrite (csum_ext N _
             (λ n, Complex.cmul
                     (Reference.frame (Reference.bin X) T (Z.of_nat N) la b c t f n)
                     (if bool_decide (n = k) then Complex.of_real one
                      else Complex.czero))).
  2:{ intros n Hn. f_equal. rewrite Hid by done.
      rewrite (bool_decide_ext (Z.of_nat n = Z.of_nat N - 1 - la) (n = k))
        by (subst k; lia).
      case_bool_decide; destruct conj; cbn; try reflexivity;
        unfold Complex.conj, Complex.of_real, Complex.czero;
        cbn [Complex.re Complex.im]; f_equal; ring. }
  rewrite csum_single by (subst k; lia).
  unfold Reference.frame. rewrite bool_decide_eq_true_2 by (subst k; lia).
  replace (Z.to_nat (Z.of_nat t + Z.of_nat k - (Z.of_nat N - 1 - la))) with t
    by (subst k; lia).
  reflexivity.
Qed.
End DFAlgebra.

(** ** [psd] followed by [_tik_reg] *)

Section Energy.
Import Torch MultiFrame.
Context {K : Type} `{Scalar K}.
Hypothesis Kring : ring_theory zero one add mul sub opp (@eq K).
Add Ring Kring_Energy : Kring.

Lemma csum_energy (n : nat) (v : nat → complex K) :
  Complex.re (Complex.csum n (λ k, Complex.cmul (v k) (Complex.conj (v k))))
  = sum_n add zero n
      (λ k, Complex.re (v k) * Complex.re (v k) + Complex.im (v k) * Complex.im (v k))%K.
Proof.
  unfold Complex.csum. induction n as [|n IH]; [reflexivity|].
  cbn [sum_n]. rewrite <- IH.
  unfold Complex.cadd, Complex.cmul, Complex.conj. cbn [Complex.re Complex.im].
  ring.
Qed.

(** X14.  [_tik_reg] applied to the output of [psd]: both succeed, and
    the regularised matrix of a bin is the correlation matrix plus
    [(energy * reg + eps) * I], where [energy] is the sum of the squared
    magnitudes of the frames in the window of that bin. *)
Theorem tik_reg_of_psd (x : tensor (complex K)) (B C T F : nat) (n : Z)
    (reg eps : K) (b c t f i j : nat) :
  shape x = [B; C; T; F] →
  1 <= n →
  (b < B)%nat → (c < C)%nat → (t < T)%nat → (f < F)%nat →
  (i < Z.to_nat n)%nat → (j < Z.to_nat n)%nat →
  let v := Reference.frame (elem x) T n 0 b c t f in
  let energy := sum_n add zero (Z.to_nat n)
                  (λ k, Complex.re (v k) * Complex.re (v k)
                        + Complex.im (v k) * Complex.im (v k))%K in
  ∃ Rxx M, psd x n = Some Rxx
           ∧ _tik_reg Rxx reg eps = Some M
           ∧ shape M = [B; C; T; F; Z.to_nat n; Z.to_nat n]
           ∧ elem M [b; c; t; f; i; j]
             = Complex.cadd (Complex.cmul (v j) (Complex.conj (v i)))
                 (Complex.cmul (Complex.of_real (energy * reg + eps)%K)
                    (if bool_decide (i = j) then Complex.of_real one
                     else Complex.czero)).
Proof.
  intros Hs Hn Hb Hc Ht Hf Hi Hj v energy.
  destruct (psd_stack x B C T F n Hs Hn) as (Rxx & HR & HsR & HeR); [lia|].
  destruct (tik_reg_entries_batched Rxx B C T F (Z.to_nat n) reg eps b c t f i j HsR)
    as (M & HM & HsM & HeM); [lia..|].
  exists Rxx, M. split; [exact HR|]. split; [exact HM|]. split; [exact HsM|].
  rewrite HeM, HeR by lia. fold v.
  rewrite (csum_ext _ _ (λ k, Complex.cmul (v k) (Complex.conj (v k))))
    by (intros k Hk; by rewrite HeR by lia).
  rewrite csum_energy. reflexivity.
Qed.
End Energy.

(** ** The store after a call, and calls that raise *)

Section StoreEffect.
Import Torch MultiFrame.
Context {K : Type} `{Scalar K} `{Division K}.

(** X15.  What a call does to the tensor objects: the store after the
    call is the store before it with the returned object written, and
    nothing else changed; the returned tensor has the shape of the
    spectrogram argument and agrees with it at every index whose
    frequency component is not below [num_freqs]; it is a new object when
    the module clones ([DF], [MfWf], [MfMvdr] in training mode) and the
    argument itself otherwise (evaluation mode, and [DFreal] always). *)
Theorem forward_store_effect (junk : list nat → K) (flt : filter K)
    (σ σ' : gmap nat (tensor K)) (spec out : nat) (args : list nat) :
  forward junk flt σ spec args = Some (σ', out) →
  ∃ X Y, σ !! spec = Some X
         ∧ σ' = <[out := Y]> σ
         ∧ shape Y = shape X
         ∧ (∀ idx,
              (slice_stop (num_freqs (base_of flt)) (shape X !!! (rank X - 2)%nat)
               ≤ idx !!! (rank X - 2)%nat)%nat →
              elem Y idx = elem X idx)
         ∧ (if clones flt then out ∉ dom σ else out = spec).
Proof.
  intros Hf.
  destruct (forward_inv _ _ _ _ _ _ _ Hf) as (filt & X & As & v & HX & HAs & Hv & Hwb & _).
  destruct (write_back_inv _ _ _ _ _ _ _ Hwb) as (X' & Y & HX' & HY & Hout & Hmode).
  rewrite HX in HX'. injection HX' as <-.
  destruct (setitem_prefix2_inv _ _ _ _ HY) as [Hs He].
  exists X, Y. split; [done|].
  destruct (clones flt).
  - destruct Hmode as [Hfresh ->]. done.
  - destruct Hmode as [-> ->]. done.
Qed.

Lemma spec_unfold_freq_axis (self : MultiFrameModule) (x U : tensor (complex K))
    (B C T F : nat) (nf N la : Z) :
  MultiFrameModule_init nf N la false = Some self →
  shape x = [B; C; T; F] →
  0 <= la < N →
  spec_unfold self x = Some U →
  length (shape U) = 5%nat ∧ shape U !! 3%nat = Some F.
Proof.
  intros Hinit Hs Hla. injection Hinit as <-.
  destruct x as [s e]. cbn [shape] in Hs. subst s.
  unfold spec_unfold. norm. case_bool_decide as HN.
  - unfold apply_pad, pad. norm. repeat guard_true. norm.
    unfold unfold. norm. eval_dims. norm.
    case_bool_decide; [|discriminate]. intros [= <-]. norm.
    split; [reflexivity|]. f_equal. lia.
  - unfold unsqueeze. norm. eval_dims. norm. intros [= <-]. done.
Qed.

Lemma spec_unfold_real_freq_axis (self : MultiFrameModule) (x U : tensor K)
    (B C T F : nat) (nf N la : Z) :
  MultiFrameModule_init nf N la true = Some self →
  shape x = [B; C; T; F; 2%nat] →
  1 < N → 0 <= la < N →
  spec_unfold_real self x = Some U →
  length (shape U) = 6%nat ∧ shape U !! 4%nat = Some F.
Proof.
  intros Hinit Hs HN Hla. injection Hinit as <-.
  destruct x as [s e]. cbn [shape] in Hs. subst s.
  unfold spec_unfold_real. norm. rewrite bool_decide_eq_true_2 by lia.
  unfold apply_pad, pad. norm. repeat guard_true. norm.
  unfold unfold. norm. eval_dims. norm.
  case_bool_decide; [|discriminate]. norm.
  unfold permute. norm. cbn [mapM]. eval_dims.
  cbn [mret option_ret mbind option_bind].
  case_bool_decide; [|discriminate]. intros [= <-]. norm.
  split; [reflexivity|]. f_equal. lia.
Qed.

Lemma narrow_freq_out_of_range {A} (u : tensor A) (r F : nat) (nf : Z) :
  length (shape u) = S (S r) → shape u !! r = Some F →
  nf < 0 ∨ Z.of_nat F < nf →
  narrow (-2) 0 nf u = None.
Proof.
  intros Hr HF Hnf. unfold narrow, dim_index, rank. rewrite Hr.
  rewrite index_neg by lia. cbn [mbind option_bind].
  replace (Z.to_nat (Z.of_nat (S (S r)) + -2)) with r by lia.
  rewrite HF. cbn [mbind option_bind].
  change (0 <? 0) with false. cbn iota.
  rewrite bool_decide_eq_false_2 by lia. reflexivity.
Qed.

Lemma narrow_unfolded_out_of_range (base : MultiFrameModule) (mode : bool)
    (x U : tensor (complex K)) (B C T F : nat) (nf N la : Z) :
  MultiFrameModule_init nf N la false = Some base →
  shape x = [B; C; T; F] →
  0 <= la < N →
  nf < 0 ∨ Z.of_nat F < nf →
  spec_unfold (set_training mode base) x = Some U →
  narrow (-2) 0 (num_freqs (set_training mode base)) U = None.
Proof.
  intros Hbase Hs Hla Hnf HU.
  replace (spec_unfold (set_training mode base) x) with (spec_unfold base x) in HU
    by reflexivity.
  destruct (spec_unfold_freq_axis base x U B C T F nf N la Hbase Hs Hla HU)
    as [Hr HF].
  replace (num_freqs (set_training mode base)) with nf by (by injection Hbase as <-).
  by apply (narrow_freq_out_of_range U 3 F nf).
Qed.

(** X16.  The constructors accept any [num_freqs], the calls do not: on a
    spectrogram with [F] frequency bins, every [forward] of a module built
    with [num_freqs < 0] or [num_freqs > F] raises (at the [narrow] of the
    frame stack), whatever the other arguments and the mode.  For [DFreal]
    this is for [frame_size > 1]. *)
Theorem forward_raises_outside_frequency_range (junk : list nat → K)
    (σ : gmap nat (tensor K)) (spec : nat) (X : tensor K) (B C T F : nat)
    (nf N la : Z) :
  σ !! spec = Some X → shape X = [B; C; T; F; 2%nat] →
  0 <= la < N →
  nf < 0 ∨ Z.of_nat F < nf →
  (∀ conj m mode coefs,
     DF_init nf N la conj = Some m →
     DF_forward (DF_train mode m) σ spec coefs = None)
  ∧ (∀ m mode ifc iRxx,
       MfWf_init nf N la = Some m →
       MfWf_forward (MfWf_train mode m) σ spec ifc iRxx = None)
  ∧ (∀ eps m mode ifc iRnn,
       MfMvdr_init nf N la eps = Some m →
       MfMvdr_forward (MfMvdr_train mode m) σ spec ifc iRnn = None)
  ∧ (∀ conj m mode coefs,
       1 < N →
       DFreal_init nf N la conj = Some m →
       DFreal_forward junk (DFreal_train mode m) σ spec coefs = None).
Proof.
  intros HX HsX Hla Hnf.
  destruct (view_as_complex_pairs X [B; C; T; F] HsX) as (Xc & HXc & HsXc & _).
  repeat split.
  - intros conj m mode coefs Hm. unfold DF_init in Hm. cbn [mbind option_bind] in Hm.
    injection Hm as <-. unfold DF_forward. cbn [DF_train DF_base DF_conj].
    rewrite HX. cbn [mbind option_bind]. skip_bind.
    rewrite HXc. cbn [mbind option_bind]. do 2 skip_bind.
    by erewrite narrow_unfolded_out_of_range.
  - intros m mode ifc iRxx Hm. unfold MfWf_init in Hm. cbn [mbind option_bind] in Hm.
    injection Hm as <-. unfold MfWf_forward. cbn [MfWf_train MfWf_base].
    rewrite HX. cbn [mbind option_bind]. do 2 skip_bind.
    rewrite HXc. cbn [mbind option_bind]. do 5 skip_bind.
    by erewrite narrow_unfolded_out_of_range.
  - intros eps m mode ifc iRnn Hm. unfold MfMvdr_init in Hm.
    cbn [mbind option_bind] in Hm.
    injection Hm as <-. unfold MfMvdr_forward. cbn [MfMvdr_train MfMvdr_base].
    rewrite HX. cbn [mbind option_bind]. do 2 skip_bind.
    rewrite HXc. cbn [mbind option_bind]. do 5 skip_bind.
    by erewrite narrow_unfolded_out_of_range.
  - intros conj m mode coefs HN Hm. unfold DFreal_init in Hm.
    cbn [mbind option_bind] in Hm.
    injection Hm as <-. unfold DFreal_forward. cbn [DFreal_train DFreal_base].
    rewrite HX. cbn [mbind option_bind]. skip_bind.
    match goal with
    | |- context [spec_unfold_real (set_training mode ?b) X] =>
        replace (spec_unfold_real (set_training mode b) X)
          with (spec_unfold_real b X) by reflexivity;
        destruct (spec_unfold_real b X) as [U|] eqn:HU; [|reflexivity];
        destruct (spec_unfold_real_freq_axis b X U B C T F nf N la eq_refl HsX HN Hla HU)
          as [Hr HF]
    end.
    cbn [mbind option_bind set_training num_freqs].
    by rewrite (narrow_freq_out_of_range U 4 F nf).
Qed.
End StoreEffect.

Section TapCount.
Import Torch MultiFrame.
Context {K : Type} `{Scalar K}.

(** The sizes [(a, -1, rest...)] cannot be inferred when the number of
    elements is not a multiple of [a * numel rest]. *)
Lemma view_shape_indivisible (a n : nat) (rest : list nat) :
  (n mod (a * numel rest) ≠ 0)%nat →
  view_shape n (Z.of_nat a :: -1 :: map Z.of_nat rest) = None.
Proof.
  intros Hn. unfold view_shape.
  rewrite bool_decide_eq_true_2.
  2:{ apply Forall_cons_2; [lia|]. apply Forall_cons_2; [lia|].
      apply Forall_forall. intros z Hz. apply list_elem_of_In, in_map_iff in Hz.
      destruct Hz as (k & <- & _). lia. }
  cbn [foldr]. destruct (Z.eqb_spec (Z.of_nat a) (-1)) as [|_]; [lia|].
  change (-1 =? -1) with true. cbn iota. rewrite foldr_known_of_nat.
  rewrite filter_cons_False by lia. rewrite filter_cons_True by done.
  rewrite filter_neg1_of_nat. cbn [length].
  rewrite Nat2Z.id. rewrite bool_decide_eq_false_2; [reflexivity|].
  intros [_ Hz]. done.
Qed.

Lemma numel_indivisible (Bc Ch N : nat) (rest : list nat) :
  (0 < Bc)%nat → (0 < numel rest)%nat → (0 < N)%nat → (Ch mod N ≠ 0)%nat →
  (numel (Bc :: Ch :: rest) mod (Bc * numel (N :: rest)) ≠ 0)%nat.
Proof.
  intros HB Hr HN Hmod.
  change (numel (Bc :: Ch :: rest)) with (Bc * (Ch * numel rest))%nat.
  change (numel (N :: rest)) with (N * numel rest)%nat.
  rewrite Nat.Div0.mul_mod_distr_l.
  rewrite Nat.Div0.mul_mod_distr_r. nia.
Qed.

(** X17.  [DF.forward] and [DFreal.forward] split the coefficient
    channels into [frame_size] taps per channel with
    [view(B, -1, frame_size, ...)]: when the number of coefficient
    channels is not a multiple of [frame_size] the call raises, whatever
    the spectrogram and the mode. *)
Theorem forward_raises_on_tap_count (junk : list nat → K)
    (σ : gmap nat (tensor K)) (coefs : nat) (Cf : tensor K)
    (Bc Ch Tc Fc N : nat) (nf la : Z) (conj : bool) :
  σ !! coefs = Some Cf → shape Cf = [Bc; Ch; Tc; Fc; 2%nat] →
  (0 < Bc)%nat → (0 < Tc)%nat → (0 < Fc)%nat →
  (0 < N)%nat → (Ch mod N ≠ 0)%nat →
  (∀ m mode spec,
     DF_init nf (Z.of_nat N) la conj = Some m →
     DF_forward (DF_train mode m) σ spec coefs = None)
  ∧ (∀ m mode spec,
       DFreal_init nf (Z.of_nat N) la conj = Some m →
       DFreal_forward junk (DFreal_train mode m) σ spec coefs = None).
Proof.
  intros HCf HsCf HB HT HF HN Hmod. split.
  - intros m mode spec Hm. injection Hm as <-.
    unfold DF_forward. cbn [DF_train DF_base DF_conj set_training frame_size].
    skip_bind. rewrite HCf. cbn [mbind option_bind]. do 2 skip_bind.
    destruct (view_as_complex_pairs Cf [Bc; Ch; Tc; Fc] HsCf) as (Cc & -> & HsCc & _).
    cbn [mbind option_bind]. skip_bind.
    rewrite HsCc. cbn [lookup list_lookup mbind option_bind drop].
    unfold view. rewrite HsCc.
    change (Z.of_nat N :: map Z.of_nat [Tc; Fc]) with (map Z.of_nat [N; Tc; Fc]).
    rewrite view_shape_indivisible; [reflexivity|].
    apply numel_indivisible; try done. cbn. nia.
  - intros m mode spec Hm. injection Hm as <-.
    unfold DFreal_forward.
    cbn [DFreal_train DFreal_base DFreal_conj set_training frame_size].
    skip_bind. rewrite HCf. cbn [mbind option_bind]. do 2 skip_bind.
    rewrite HsCf. cbn [lookup list_lookup mbind option_bind drop app].
    unfold view. rewrite HsCf.
    change (Z.of_nat N :: map Z.of_nat [Tc; Fc; 2%nat])
      with (map Z.of_nat [N; Tc; Fc; 2%nat]).
    rewrite view_shape_indivisible; [reflexivity|].
    apply numel_indivisible; try done. cbn. nia.
Qed.
End TapCount.

(** ** [solve] *)

Section SolveAlgebra.
Import Torch MultiFrame.
Context {K : Type} `{Scalar K}.
Hypothesis Kring : ring_theory zero one add mul sub opp (@eq K).
Add Ring Kring_Solve : Kring.

Lemma cmul_assoc (a b c : complex K) :
  Complex.cmul a (Complex.cmul b c) = Complex.cmul (Complex.cmul a b) c.
Proof.
  destruct a, b, c. unfold Complex.cmul. cbn [Complex.re Complex.im]. f_equal; ring.
Qed.

Lemma cmul_csum_l (n : nat) (a : complex K) (f : nat → complex K) :
  Complex.cmul a (Complex.csum n f) = Complex.csum n (λ k, Complex.cmul a (f k)).
Proof.
  unfold Complex.csum. induction n as [|n IH].
  - cbn. destruct a. unfold Complex.cmul, Complex.czero.
    cbn [Complex.re Complex.im]. f_equal; ring.
  - cbn [sum_n]. rewrite <- IH. destruct a, (sum_n _ _ n f), (f n).
    unfold Complex.cmul, Complex.cadd. cbn [Complex.re Complex.im]. f_equal; ring.
Qed.

Lemma cmul_csum_r (n : nat) (f : nat → complex K) (b : complex K) :
  Complex.cmul (Complex.csum n f) b = Complex.csum n (λ k, Complex.cmul (f k) b).
Proof.
  unfold Complex.csum. induction n as [|n IH].
  - cbn. destruct b. unfold Complex.cmul, Complex.czero.
    cbn [Complex.re Complex.im]. f_equal; ring.
  - cbn [sum_n]. rewrite <- IH. destruct b, (sum_n _ _ n f), (f n).
    unfold Complex.cmul, Complex.cadd. cbn [Complex.re Complex.im]. f_equal; ring.
Qed.

Lemma csum_cadd (n : nat) (f g : nat → complex K) :
  Complex.csum n (λ k, Complex.cadd (f k) (g k))
  = Complex.cadd (Complex.csum n f) (Complex.csum n g).
Proof.
  unfold Complex.csum. induction n as [|n IH].
  - cbn. unfold Complex.cadd, Complex.czero. cbn [Complex.re Complex.im].
    f_equal; ring.
  - cbn [sum_n]. rewrite IH.
    destruct (sum_n _ _ n f), (sum_n _ _ n g), (f n), (g n).
    unfold Complex.cadd. cbn [Complex.re Complex.im]. f_equal; ring.
Qed.

Lemma csum_exchange (n m : nat) (g : nat → nat → complex K) :
  Complex.csum n (λ j, Complex.csum m (λ k, g j k))
  = Complex.csum m (λ k, Complex.csum n (λ j, g j k)).
Proof.
  induction n as [|n IH].
  - cbn. symmetry. apply (csum_zero Kring).
  - unfold Complex.csum at 1. cbn [sum_n].
    fold (Complex.csum n (λ j, Complex.csum m (λ k, g j k))). rewrite IH.
    rewrite <- csum_cadd. apply csum_ext. intros k Hk. reflexivity.
Qed.

Lemma csum_select (N i : nat) (s : nat → complex K) :
  (i < N)%nat →
  Complex.csum N (λ k, Complex.cmul
                         (if bool_decide (i = k) then Complex.of_real one
                          else Complex.czero) (s k))
  = s i.
Proof.
  intros Hi. unfold Complex.csum. induction N as [|N IH]; [lia|].
  cbn [sum_n]. destruct (decide (i = N)) as [->|Hne].
  - rewrite (sum_n_ext _ _ N _ (λ _, Complex.czero)).
    2:{ intros n Hn. rewrite bool_decide_eq_false_2 by lia.
        unfold Complex.cmul, Complex.czero. cbn [Complex.re Complex.im].
        f_equal; ring. }
    fold (@Complex.csum K _ N (λ _, Complex.czero)). rewrite (csum_zero Kring).
    rewrite bool_decide_eq_true_2 by done. destruct (s N) as [x y].
    unfold Complex.cadd, Complex.cmul, Complex.czero, Complex.of_real.
    cbn [Complex.re Complex.im]. f_equal; ring.
  - rewrite IH by lia. rewrite bool_decide_eq_false_2 by lia.
    destruct (s i) as [x y]. destruct (s N) as [x' y'].
    unfold Complex.cadd, Complex.cmul, Complex.czero.
    cbn [Complex.re Complex.im]. f_equal; ring.
Qed.

(** A matrix product with a right inverse applied to a vector. *)
Lemma matvec_right_inverse (N : nat) (M Ri : nat → nat → complex K)
    (s : nat → complex K) (i : nat) :
  (i < N)%nat →
  (∀ k, (k < N)%nat →
     Complex.csum N (λ j, Complex.cmul (M i j) (Ri j k))
     = if bool_decide (i = k) then Complex.of_real one else Complex.czero) →
  Reference.matvec N M (Reference.matvec N Ri s) i = s i.
Proof.
  intros Hi Hinv. unfold Reference.matvec.
  rewrite (csum_ext N _ (λ j, Complex.csum N (λ k,
             Complex.cmul (Complex.cmul (M i j) (Ri j k)) (s k)))).
  2:{ intros j Hj. rewrite cmul_csum_l. apply csum_ext. intros k Hk.
      apply cmul_assoc. }
  rewrite csum_exchange.
  rewrite (csum_ext N _ (λ k, Complex.cmul
             (if bool_decide (i = k) then Complex.of_real one else Complex.czero)
             (s k))).
  2:{ intros k Hk. rewrite <- cmul_csum_r. by rewrite Hinv. }
  by apply csum_select.
Qed.
End SolveAlgebra.

Section Solve.
Import Torch MultiFrame.
Context {K : Type} `{Scalar K}.
Hypothesis Kring : ring_theory zero one add mul sub opp (@eq K).

(** [_tik_reg] on one matrix, all entries at once. *)
Lemma tik_reg_matrix (mat : tensor (complex K)) (n : nat) (reg eps : K) :
  shape mat = [n; n] →
  ∃ R, _tik_reg mat reg eps = Some R
       ∧ shape R = [n; n]
       ∧ ∀ i j, (i < n)%nat → (j < n)%nat →
           elem R [i; j]
           = Complex.cadd (elem mat [i; j])
               (Complex.cmul
                  (Complex.of_real
                     (Complex.re (Complex.csum n (λ k, elem mat [k; k])) * reg + eps)%K)
                  (if bool_decide (i = j) then Complex.of_real one
                   else Complex.czero)).
Proof.
  intros Hshape.
  destruct mat as [s e]. cbn [shape] in Hshape. subst s.
  unfold _tik_reg, _compute_mat_trace, diagonal, Torch.sum, eye. run.
  rewrite !bdim_1_l. run. rewrite !bdim_same. run.
  eexists; split; [reflexivity|]. norm. split; [reflexivity|].
  intros i j Hi Hj.
  unfold bidx. norm. rewrite !bix_lt by lia.
  rewrite Nat.min_id. reflexivity.
Qed.

(** ["...nm,...m->...n"] on one matrix and one vector. *)
Lemma einsum_matvec_1 (a v : tensor (complex K)) (N : nat) :
  shape a = [N; N] →
  shape v = [N] →
  ∃ w, einsum_nm_m a v = Some w
       ∧ shape w = [N]
       ∧ ∀ n, elem w [n]
              = Reference.matvec N (λ p q, elem a [p; q]) (λ q, elem v [q]) n.
Proof.
  intros Ha Hv. destruct a as [s e]. destruct v as [s' e'].
  cbn [shape] in Ha, Hv. subst s s'.
  unfold einsum_nm_m. norm. rewrite !bdim_same. norm.
  rewrite broadcast_shapes_same. norm.
  eexists; split; [reflexivity|]. split; [reflexivity|].
  intros n. norm. unfold bidx, Reference.matvec. norm.
  apply csum_ext. intros k Hk. rewrite !bix_lt by lia. reflexivity.
Qed.

(** X18.  [solve] returns the solution of the regularised system: when
    [torch.inverse] returns a right inverse of the regularised matrix,
    the result [w] satisfies
    [(Rxx + (real(trace(Rxx)) * diag_eps + eps) * I) . w = rss]. *)
Theorem solve_regularised_system
    (inverse : tensor (complex K) → option (tensor (complex K)))
    (Rxx rss M Ri : tensor (complex K)) (N : nat) (diag_eps eps : K) (i : nat) :
  shape Rxx = [N; N] → shape rss = [N] →
  _tik_reg Rxx diag_eps eps = Some M →
  inverse M = Some Ri → shape Ri = [N; N] →
  (∀ p q, (p < N)%nat → (q < N)%nat →
     Complex.csum N (λ j, Complex.cmul (elem M [p; j]) (elem Ri [j; q]))
     = if bool_decide (p = q) then Complex.of_real one else Complex.czero) →
  (i < N)%nat →
  ∃ w, solve inverse Rxx rss diag_eps eps = Some w
       ∧ shape w = [N]
       ∧ Complex.csum N (λ j,
           Complex.cmul
             (Complex.cadd (elem Rxx [i; j])
                (Complex.cmul
                   (Complex.of_real
                      (Complex.re (Complex.csum N (λ k, elem Rxx [k; k])) * diag_eps
                       + eps)%K)
                   (if bool_decide (i = j) then Complex.of_real one
                    else Complex.czero)))
             (elem w [j]))
         = elem rss [i].
Proof.
  intros HsR Hss HM Hinv HsRi Hright Hi.
  destruct (tik_reg_matrix Rxx N diag_eps eps HsR) as (M' & HM' & HsM & HeM).
  rewrite HM in HM'. injection HM' as <-.
  unfold solve. rewrite HM. cbn [mbind option_bind]. rewrite Hinv.
  cbn [mbind option_bind].
  destruct (einsum_matvec_1 Ri rss N HsRi Hss) as (w & -> & Hsw & Hew).
  exists w. split; [reflexivity|]. split; [exact Hsw|].
  rewrite (csum_ext N _ (λ j, Complex.cmul (elem M [i; j]) (elem w [j])))
    by (intros j Hj; by rewrite HeM by lia).
  rewrite (csum_ext N _ (λ j, Complex.cmul (elem M [i; j])
             (Reference.matvec N (λ p q, elem Ri [p; q]) (λ q, elem rss [q]) j)))
    by (intros j Hj; by rewrite Hew).
  apply (matvec_right_inverse Kring N (λ p q, elem M [p; q])
           (λ p q, elem Ri [p; q]) (λ q, elem rss [q]) i Hi).
  intros k Hk. by apply Hright.
Qed.
End Solve.

(** ** The theorems at concrete inputs *)

(** The padding example of the specification: [frame_size = 3],
    [lookahead = 1] on five frames.  The window at [t = 0] starts with a
    zero, the window at [t = 4] ends with one. *)
Lemma spec_unfold_windows_witness :
  (MultiFrame.MultiFrameModule_init 1 3 1 false = Some Examples.unfold_3_1
   ∧ Torch.shape Examples.five_frames = [1; 1; 5; 1]%nat
   ∧ 0 <= 1 < 3
   ∧ (0 < 1)%nat ∧ (0 < 5)%nat ∧ (0 < Z.to_nat 3)%nat)
  ∧ ∃ U, MultiFrame.spec_unfold Examples.unfold_3_1 Examples.five_frames = Some U
         ∧ Torch.shape U = [1; 1; 5; 1; 3]%nat
         ∧ Torch.elem U [0; 0; 0; 0; 0]%nat
           = Reference.frame (Torch.elem Examples.five_frames) 5 3 1 0 0 0 0 0.
Proof.
  split; [repeat split; try reflexivity; lia|].
  destruct (spec_unfold_windows (K:=Z) Examples.unfold_3_1 Examples.five_frames
              1 1 5 1 1 3 1 0 0 0 0 0)%nat
    as (U & HU & HsU & HeU & _); try reflexivity; try lia.
  exists U. split; [exact HU|]. split; [exact HsU|]. exact HeU.
Defined.

Example spec_unfold_3_1_boundaries :
  ∃ U, MultiFrame.spec_unfold Examples.unfold_3_1 Examples.five_frames = Some U
       ∧ map (λ n, Torch.elem U [0; 0; 0; 0; n]%nat) [0; 1; 2]%nat
         = [Complex.mk 0 0; Complex.mk 1 0; Complex.mk 2 0]
       ∧ map (λ n, Torch.elem U [0; 0; 2; 0; n]%nat) [0; 1; 2]%nat
         = [Complex.mk 2 0; Complex.mk 3 0; Complex.mk 4 0]
       ∧ map (λ n, Torch.elem U [0; 0; 4; 0; n]%nat) [0; 1; 2]%nat
         = [Complex.mk 4 0; Complex.mk 5 0; Complex.mk 0 0].
Proof. eexists. split; [vm_compute; reflexivity|]. repeat split. Qed.

Lemma psd_entries_witness :
  (Torch.shape Examples.signal_1_i = [1; 1; 2; 1]%nat
   ∧ 1 <= 2
   ∧ (0 < 1)%nat ∧ (1 < 2)%nat ∧ (0 < Z.to_nat 2)%nat ∧ (1 < Z.to_nat 2)%nat)
  ∧ ∃ R, MultiFrame.psd Examples.signal_1_i 2 = Some R
         ∧ Torch.shape R = [1; 1; 2; 1; 2; 2]%nat
         ∧ Torch.elem R [0; 0; 1; 0; 0; 1]%nat
           = Complex.cmul
               (Reference.frame (Torch.elem Examples.signal_1_i) 2 2 0 0 0 1 0 1)
               (Complex.conj
                  (Reference.frame (Torch.elem Examples.signal_1_i) 2 2 0 0 0 1 0 0)).
Proof.
  split; [repeat split; try reflexivity; lia|].
  apply (psd_entries (K:=Z) Examples.signal_1_i 1 1 2 1 2 0 0 1 0 0 1)%nat;
    try reflexivity; lia.
Defined.

Lemma tik_reg_entries_witness :
  (Torch.shape Examples.mat2 = [2; 2]%nat ∧ (0 < 2)%nat ∧ (1 < 2)%nat)
  ∧ ∃ R, MultiFrame._tik_reg Examples.mat2 10 100 = Some R
         ∧ Torch.shape R = [2; 2]%nat
         ∧ Torch.elem R [0; 1]%nat
           = Complex.cadd (Torch.elem Examples.mat2 [0; 1]%nat)
               (Complex.cmul
                  (Complex.of_real
                     (Complex.re
                        (Complex.csum 2 (λ k, Torch.elem Examples.mat2 [k; k]))
                      * 10 + 100)%K)
                  Complex.czero).
Proof.
  split; [repeat split; try reflexivity; lia|].
  destruct (tik_reg_entries (K:=Z) (H:=Z_Scalar) Zth Examples.mat2 2%nat 10 100
              0%nat 1%nat)
    as (R & HR & HsR & HeR & _); try reflexivity; try lia.
  exists R. split; [exact HR|]. split; [exact HsR|]. exact HeR.
Defined.

Example tik_reg_mat2 :
  ∃ R, MultiFrame._tik_reg Examples.mat2 10 100 = Some R
       ∧ map (Torch.elem R) [[0; 0]; [0; 1]; [1; 0]; [1; 1]]%nat
         = [Complex.mk 130 1; Complex.mk 1 1; Complex.mk 2 1; Complex.mk 133 1].
Proof. eexists. split; [vm_compute; reflexivity|]. reflexivity. Qed.

Lemma DF_forward_taps_witness :
  (MultiFrame.DF_init (Z.of_nat 1) (Z.of_nat 2) 0 false = Some Examples.df_1_2
   ∧ 0 <= 0 < Z.of_nat 2
   ∧ (1 ≤ 2)%nat
   ∧ Examples.store0 !! 0%nat = Some Examples.spec3
   ∧ Torch.shape Examples.spec3 = [1; 1; 3; 2; 2]%nat
   ∧ Examples.store0 !! 1%nat = Some Examples.taps
   ∧ Torch.shape Examples.taps = [1; (1 * 2); 3; 1; 2]%nat
   ∧ (0 < 1)%nat ∧ (1 < 3)%nat)
  ∧ ∃ σ' out Y,
      MultiFrame.DF_forward (MultiFrame.DF_train false Examples.df_1_2)
        Examples.store0 0%nat 1%nat = Some (σ', out)
      ∧ σ' !! out = Some Y
      ∧ Torch.shape Y = [1; 1; 3; 2; 2]%nat
      ∧ Reference.bin Y [0; 0; 1; 0]%nat
        = Complex.csum 2 (λ n,
            Complex.cmul
              (Reference.frame (Reference.bin Examples.spec3) 3 (Z.of_nat 2) 0 0 0 1 0 n)
              (id (Reference.bin Examples.taps [0; (0 * 2 + n); 1; 0]%nat))).
Proof.
  split; [repeat split; try reflexivity; lia|].
  apply (DF_forward_taps (K:=Z) Examples.df_1_2 false Examples.store0 0 1
           Examples.spec3 Examples.taps 1 1 3 2 2 1 0 false 0 0 1 0)%nat;
    try reflexivity; lia.
Defined.

Example DF_forward_store0 :
  Examples.out_elem Examples.df_once [0; 0; 1; 0; 0]%nat = Some (-5)
  ∧ Examples.out_elem Examples.df_once [0; 0; 1; 0; 1]%nat = Some 7
  ∧ Examples.out_elem Examples.df_once [0; 0; 1; 1; 0]%nat = Some 7
  ∧ Examples.out_elem Examples.df_once [0; 0; 1; 1; 1]%nat = Some 8.
Proof. repeat split; vm_compute; reflexivity. Qed.

Lemma MfMvdr_forward_weights_witness :
  (MultiFrame.MfMvdr_init (Z.of_nat 1) (Z.of_nat 2) 0 1%Qc = Some Examples.mvdr_1_2
   ∧ 0 <= 0 < Z.of_nat 2
   ∧ (1 ≤ 1)%nat
   ∧ Examples.qstore !! 0%nat = Some Examples.qspec
   ∧ Torch.shape Examples.qspec = [1; 1; 2; 1; 2]%nat
   ∧ Examples.qstore !! 2%nat = Some Examples.qifc
   ∧ Torch.shape Examples.qifc = [1; 2; 1; (2 * 2)]%nat
   ∧ Examples.qstore !! 3%nat = Some Examples.qiRnn
   ∧ Torch.shape Examples.qiRnn = [1; 2; 1; (2 * 2 * 2)]%nat
   ∧ (0 < 1)%nat ∧ (1 < 2)%nat)
  ∧ (∃ σ' out Y,
       MultiFrame.MfMvdr_forward (MultiFrame.MfMvdr_train true Examples.mvdr_1_2)
         Examples.qstore 0%nat 2%nat 3%nat = Some (σ', out)
       ∧ σ' !! out = Some Y
       ∧ Torch.shape Y = [1; 1; 2; 1; 2]%nat)
  ∧ (one - Complex.re
             (Reference.dotc 2
                (λ k, Complex.conj (Reference.pair_at Examples.qifc [0; 1; 0]%nat k))
                (Reference.mvdr_weight 2 1%Qc
                   (λ p q, Reference.pair_at Examples.qiRnn [0; 1; 0]%nat (p * 2 + q)%nat)
                   (λ n, Reference.pair_at Examples.qifc [0; 1; 0]%nat n))))%K
    = Q2Qc (1 # 3).
Proof.
  split; [repeat split; try reflexivity; lia|].
  destruct (MfMvdr_forward_weights (K:=Qc) (H:=Qc_Scalar) (H0:=Qc_Division) Qcft
              Examples.mvdr_1_2 true Examples.qstore 0%nat 2%nat 3%nat
              Examples.qspec Examples.qifc Examples.qiRnn
              1%nat 1%nat 2%nat 1%nat 2%nat 1%nat 1%nat 0 1%Qc
              0%nat 0%nat 1%nat 0%nat)
    as [(σ' & out & Y & Hf & Hout & HsY & _) Hd];
    try reflexivity; try lia.
  split; [by exists σ', out, Y|].
  match type of Hd with
  | ?A → _ =>
      assert (Ha : A) by (intros Heq; vm_compute in Heq; discriminate Heq);
      specialize (Hd Ha)
  end.
  match type of Hd with
  | ?A → _ =>
      assert (Hb : A) by (apply Qc_is_canon; vm_compute; reflexivity);
      specialize (Hd Hb)
  end.
  destruct Hd as [_ Hd].
  etransitivity; [exact Hd|]. apply Qc_is_canon. vm_compute. reflexivity.
Defined.

Lemma forward_deterministic_witness :
  (Examples.qstore_other !! 0%nat = Examples.qstore !! 0%nat
   ∧ Forall (λ a, Examples.qstore_other !! a = Examples.qstore !! a) [1%nat])
  ∧ ∃ σ1 o1 τ1 p1,
      MultiFrame.forward Examples.qjunk
        (MultiFrame.FDF (MultiFrame.DF_train true Examples.df_1_2))
        Examples.qstore 0%nat [1%nat] = Some (σ1, o1)
      ∧ MultiFrame.forward Examples.qjunk
          (MultiFrame.FDF (MultiFrame.DF_train false Examples.df_1_2))
          Examples.qstore_other 0%nat [1%nat] = Some (τ1, p1)
      ∧ τ1 !! p1 = σ1 !! o1.
Proof.
  assert (H0 : Examples.qstore_other !! 0%nat = Examples.qstore !! 0%nat)
    by reflexivity.
  assert (H1 : Forall (λ a, Examples.qstore_other !! a = Examples.qstore !! a) [1%nat])
    by (constructor; [reflexivity|constructor]).
  split; [by split|].
  assert (Hok : is_Some (MultiFrame.forward Examples.qjunk
                           (MultiFrame.FDF (MultiFrame.DF_train true Examples.df_1_2))
                           Examples.qstore 0%nat [1%nat]))
    by (apply (bool_decide_unpack _); vm_compute; exact I).
  destruct Hok as [[σ1 o1] E].
  destruct (forward_deterministic Examples.qjunk Examples.qstore
              Examples.qstore_other 0%nat [1%nat] H0 H1) as [_ Hmode].
  destruct (Hmode true false
              (MultiFrame.FDF (MultiFrame.DF_train true Examples.df_1_2))
              (MultiFrame.FDF (MultiFrame.DF_train false Examples.df_1_2))
              (or_introl (ex_intro _ Examples.df_1_2 (conj eq_refl eq_refl)))
              σ1 o1 E) as (τ1 & p1 & Hg & Heq).
  exists σ1, o1, τ1, p1. split; [exact E|]. split; [exact Hg|]. exact Heq.
Defined.

Lemma forward_aliasing_witness :
  let win n := Reference.frame (Reference.bin Examples.qspec) 2 (Z.of_nat 2) 0
                 0 0 1 0 n in
  let coef n := Reference.bin Examples.qtaps [0; (0 * 2 + n); 1; 0]%nat in
  let dot (p q : complex Qc → Qc) :=
    sum_n add zero 2 (λ n, p (win n) * q (coef n))%K in
  ∃ Y, MultiFrame.DFreal_forward Examples.qjunk
         (MultiFrame.DFreal_train true Examples.dfreal_1_2) Examples.qstore 0%nat 1%nat
       = Some (<[0%nat := Y]> Examples.qstore, 0%nat)
       ∧ Torch.shape Y = Torch.shape Examples.qspec
       ∧ Torch.elem Y [0; 0; 1; 0; 0]%nat
         = sub (dot Complex.re Complex.re) (dot Complex.im Complex.im)
       ∧ Torch.elem Y [0; 0; 1; 0; 1]%nat
         = add (dot Complex.re Complex.im) (dot Complex.im Complex.re).
Proof.
  intros win coef dot.
  destruct (forward_aliasing (K:=Qc) Examples.qjunk Examples.qstore 0%nat 1%nat
              Examples.qspec Examples.qtaps 1%nat 1%nat 2%nat 1%nat 2%nat 1%nat 0
              0%nat 0%nat 1%nat 0%nat) as [Hreal _];
    [lia | lia | lia | reflexivity | reflexivity | reflexivity | reflexivity
    | lia | lia | lia | lia |].
  destruct (Hreal Examples.dfreal_1_2 false true eq_refl)
    as (Y & HF & HsY & Hband & _).
  exists Y. split; [exact HF|]. split; [exact HsY|]. apply Hband. lia.
Defined.

Lemma as_windowed_dim1_returns_iff_witness :
  (∃ v, Strided.as_windowed (Strided.contiguous2 (seqZ 0 20) 1 10) 3 2 1 = Some v
        ∧ Strided.shape v = [1; 10 - 3 + 1; 3]
        ∧ Strided.get v [0; 7; 2] = seqZ 0 20 !! Z.to_nat (0 * 10 + 7 * 2 + 2))
  ∧ ¬ is_Some (Strided.as_windowed (Strided.contiguous2 (seqZ 0 10) 1 10) 3 2 1).
Proof.
  split.
  - destruct (as_windowed_dim1_returns_iff (seqZ 0 20) 1 10 3 2)
      as (Hiff & _ & Hv); [lia | lia | lia | vm_compute; discriminate |].
    destruct (proj2 Hiff) as [v E]; [vm_compute; discriminate|].
    exists v. split; [exact E|]. destruct (Hv v E) as [Hs He].
    split; [exact Hs|]. by destruct (He 0 7 2) as (Hg & _); [lia..|].
  - destruct (as_windowed_dim1_returns_iff (seqZ 0 10) 1 10 3 2)
      as (_ & Hexact & _); [lia | lia | lia | vm_compute; discriminate |].
    intros Hs. apply Hexact in Hs; [lia|reflexivity].
Defined.

Lemma as_windowed_last_dim_dilates_witness :
  (∃ v, Strided.as_windowed (Strided.contiguous2 (seqZ 0 20) 1 10) 3 2 (-1) = Some v
        ∧ Strided.shape v = [1; 10 - 3 + 1; 3]
        ∧ Strided.get v [0; 7; 2] = seqZ 0 20 !! Z.to_nat (0 * 10 + 7 + 2 * 2))
  ∧ ¬ is_Some (Strided.as_windowed (Strided.contiguous2 (seqZ 0 10) 1 10) 3 2 (-1)).
Proof.
  split.
  - destruct (as_windowed_last_dim_dilates (seqZ 0 20) 1 10 3 2)
      as (Hiff & _ & Hv); [lia | lia | lia | vm_compute; discriminate |].
    destruct (proj2 Hiff) as [v E]; [vm_compute; discriminate|].
    exists v. split; [exact E|]. destruct (Hv v E) as [Hs He].
    split; [exact Hs|]. by destruct (He 0 7 2) as (Hg & _); [lia..|].
  - destruct (as_windowed_last_dim_dilates (seqZ 0 10) 1 10 3 2)
      as (_ & Hexact & _); [lia | lia | lia | vm_compute; discriminate |].
    intros Hs. apply Hexact in Hs; [lia|reflexivity].
Defined.

Lemma as_windowed_dim0_window_axis_first_witness :
  (∃ v, Strided.as_windowed (Strided.contiguous2 (seqZ 0 20) 5 2) 3 2 0 = Some v
        ∧ Strided.shape v = [3; 5 - 3 + 1; 2]
        ∧ Strided.get v [2; 1; 0] = seqZ 0 20 !! Z.to_nat ((1 + 2 * 2) * 2 + 0))
  ∧ ¬ is_Some (Strided.as_windowed (Strided.contiguous2 (seqZ 0 10) 5 2) 3 2 0).
Proof.
  split.
  - destruct (as_windowed_dim0_window_axis_first (seqZ 0 20) 5 2 3 2)
      as (Hiff & _ & Hv); [lia | lia | lia | vm_compute; discriminate |].
    destruct (proj2 Hiff) as [v E]; [vm_compute; discriminate|].
    exists v. split; [exact E|]. destruct (Hv v E) as [Hs He].
    split; [exact Hs|]. by destruct (He 2 1 0) as (Hg & _); [lia..|].
  - destruct (as_windowed_dim0_window_axis_first (seqZ 0 10) 5 2 3 2)
      as (_ & Hexact & _); [lia | lia | lia | vm_compute; discriminate |].
    intros Hs. apply Hexact in Hs; [lia|reflexivity].
Defined.

Lemma spec_unfold_real_matches_spec_unfold_witness :
  ∃ Ur xc Uc,
    MultiFrame.spec_unfold_real (MultiFrame.DFreal_base Examples.dfreal_1_2)
      Examples.spec3 = Some Ur
    ∧ Torch.view_as_complex Examples.spec3 = Some xc
    ∧ MultiFrame.spec_unfold (MultiFrame.DF_base Examples.df_1_2) xc = Some Uc
    ∧ Torch.elem Uc [0; 0; 1; 1; 0]%nat
      = Complex.mk (Torch.elem Ur [0; 0; 0; 1; 1; 0]%nat)
          (Torch.elem Ur [0; 0; 0; 1; 1; 1]%nat).
Proof.
  destruct (spec_unfold_real_matches_spec_unfold (K:=Z)
              (MultiFrame.DFreal_base Examples.dfreal_1_2)
              (MultiFrame.DF_base Examples.df_1_2)
              Examples.spec3 1 1 3 2 1 2 0 0 0 1 1 0)%nat
    as (Ur & xc & Uc & H1 & H2 & H3 & _ & _ & H4); try reflexivity; try lia.
  by exists Ur, xc, Uc.
Defined.

Lemma DFreal_unit_frame_size_raises_witness :
  MultiFrame.DFreal_init 3 1 0 false = Some Examples.dfreal_3_1
  ∧ ∀ mode coefs,
      MultiFrame.DFreal_forward (λ _, 0)
        (MultiFrame.DFreal_train mode Examples.dfreal_3_1) Examples.store0 0%nat coefs
      = None.
Proof.
  split; [reflexivity|].
  apply (DFreal_unit_frame_size_raises (K:=Z) (λ _, 0) Examples.dfreal_3_1
           Examples.store0 0%nat Examples.spec3 1 1 3 2 3 1 0 false);
    try reflexivity; lia.
Defined.

Lemma df_real_overwrites_empty_witness :
  ∃ v1 v2,
    MultiFrame.df_real (λ _, 0) Examples.stack_real Examples.taps_real = Some v1
    ∧ MultiFrame.df_real (λ _, 1) Examples.stack_real Examples.taps_real = Some v2
    ∧ Torch.elem v1 [0; 0; 0; 0; 1]%nat = Torch.elem v2 [0; 0; 0; 0; 1]%nat.
Proof.
  destruct (df_real_overwrites_empty (K:=Z) (λ _, 0%Z) (λ _, 1%Z)
              Examples.stack_real Examples.taps_real 1 1 2 1 1 0 0 0 0 1)%nat
    as (v1 & v2 & H1 & H2 & _ & _ & He); try reflexivity; try lia.
  by exists v1, v2.
Defined.

Lemma DFreal_matches_DF_witness :
  ∃ σ1 o1 Y1 Y2,
    MultiFrame.DF_forward (MultiFrame.DF_train false Examples.df_1_2)
      Examples.store0 0%nat 1%nat = Some (σ1, o1)
    ∧ σ1 !! o1 = Some Y1
    ∧ MultiFrame.DFreal_forward (λ _, 0)
        (MultiFrame.DFreal_train true Examples.dfreal_1_2) Examples.store0 0%nat 1%nat
      = Some (<[0%nat := Y2]> Examples.store0, 0%nat)
    ∧ Torch.elem Y1 [0; 0; 1; 0; 1]%nat = Torch.elem Y2 [0; 0; 1; 0; 1]%nat.
Proof.
  destruct (DFreal_matches_DF (K:=Z) (H:=Z_Scalar) Zth (λ _, 0)
              Examples.df_1_2 Examples.dfreal_1_2 false true Examples.store0
              0%nat 1%nat Examples.spec3 Examples.taps
              1%nat 1%nat 3%nat 2%nat 2%nat 1%nat 0 false
              0%nat 0%nat 1%nat 0%nat 1%nat)
    as (σ1 & o1 & Y1 & Y2 & H1 & H2 & H3 & _ & H4); try reflexivity; try lia.
  exists σ1, o1, Y1, Y2. split; [exact H1|]. split; [exact H2|].
  split; [exact H3|]. exact H4.
Defined.

Lemma DF_identity_taps_witness :
  ∃ σ' out Y,
    MultiFrame.DF_forward (MultiFrame.DF_train false Examples.df_1_2)
      Examples.store_identity 0%nat 1%nat = Some (σ', out)
    ∧ σ' !! out = Some Y
    ∧ Reference.bin Y [0; 0; 2; 0]%nat = Reference.bin Examples.spec3 [0; 0; 2; 0]%nat.
Proof.
  destruct (DF_identity_taps (K:=Z) (H:=Z_Scalar) Zth
              Examples.df_1_2 false Examples.store_identity
              0%nat 1%nat Examples.spec3 Examples.identity_taps
              1%nat 1%nat 3%nat 2%nat 2%nat 1%nat 0 false
              0%nat 0%nat 2%nat 0%nat)
    as (σ' & out & Y & H1 & H2 & _ & H3); try reflexivity; try lia.
  { intros b c n t f Hb Hc Hn Ht Hf.
    assert (b = 0%nat) as -> by lia. assert (c = 0%nat) as -> by lia.
    assert (f = 0%nat) as -> by lia.
    destruct n as [|[|n]]; [| |lia]; destruct t as [|[|[|t]]]; try lia;
      reflexivity. }
  by exists σ', out, Y.
Defined.

Lemma CRM_forward_impl_product_witness :
  ∃ Y, MultiFrame.CRM_forward_impl Examples.crm_1 Examples.two_bins Examples.mask
       = Some Y
       ∧ Torch.elem Y [0; 0; 0; 1]%nat
         = Complex.cmul (Torch.elem Examples.two_bins [0; 0; 0; 1]%nat)
             (Torch.elem Examples.mask [0; 0; 0; 1]%nat).
Proof.
  destruct (CRM_forward_impl_product (K:=Z) Examples.crm_1 Examples.two_bins
              Examples.mask 1 1 1 2 0 0 0 1)%nat as [_ Hflat];
    try reflexivity; try lia.
  destruct Hflat as (Y & HY & _ & He); [reflexivity | lia |].
  by exists Y.
Defined.

Lemma MfWf_forward_weights_witness :
  ∃ σ' out Y,
    MultiFrame.MfWf_forward (MultiFrame.MfWf_train true Examples.mfwf_1_2)
      Examples.qstore 0%nat 2%nat 3%nat = Some (σ', out)
    ∧ σ' !! out = Some Y
    ∧ Torch.shape Y = [1; 1; 2; 1; 2]%nat.
Proof.
  destruct (MfWf_forward_weights (K:=Qc) Examples.mfwf_1_2 true Examples.qstore
              0%nat 2%nat 3%nat Examples.qspec Examples.qifc Examples.qiRnn
              1%nat 1%nat 2%nat 1%nat 2%nat 1%nat 1%nat 0
              0%nat 0%nat 1%nat 0%nat)
    as (σ' & out & Y & H1 & H2 & H3 & _); try reflexivity; try lia.
  by exists σ', out, Y.
Defined.

Lemma compute_mat_trace_any_batch_witness :
  ∃ tr, MultiFrame._compute_mat_trace Examples.mat2 (-1) (-2) = Some tr
        ∧ Torch.shape tr = []
        ∧ Torch.elem tr [] = Complex.csum 2 (λ k, Torch.elem Examples.mat2 [k; k]).
Proof.
  destruct (compute_mat_trace_any_batch (K:=Z) Examples.mat2 [] 2 2 eq_refl)
    as [_ Hsq].
  destruct (Hsq eq_refl) as (tr & H1 & H2 & H3).
  exists tr. split; [exact H1|]. split; [exact H2|]. by apply (H3 []).
Defined.

Lemma tik_reg_real_diagonal_only_witness :
  ∃ R, MultiFrame._tik_reg Examples.mat2 10 100 = Some R
       ∧ Torch.elem R [0; 1]%nat = Torch.elem Examples.mat2 [0; 1]%nat.
Proof.
  destruct (tik_reg_real_diagonal_only (K:=Z) (H:=Z_Scalar) Zth Examples.mat2
              2%nat 10 100 0%nat 1%nat)
    as (R & H1 & _ & H2 & _); try reflexivity; try lia.
  exists R. split; [exact H1|]. apply H2. lia.
Defined.

Lemma psd_hermitian_witness :
  ∃ R, MultiFrame.psd Examples.signal_1_i 2 = Some R
       ∧ Torch.elem R [0; 0; 1; 0; 1; 0]%nat
         = Complex.conj (Torch.elem R [0; 0; 1; 0; 0; 1]%nat).
Proof.
  destruct (psd_hermitian (K:=Z) (H:=Z_Scalar) Zth Examples.signal_1_i
              1%nat 1%nat 2%nat 1%nat 2 0%nat 0%nat 1%nat 0%nat 0%nat 1%nat)
    as (R & H1 & H2 & _); try reflexivity; try lia.
  by exists R.
Defined.

Lemma tik_reg_of_psd_witness :
  ∃ Rxx M, MultiFrame.psd Examples.signal_1_i 2 = Some Rxx
           ∧ MultiFrame._tik_reg Rxx 10 100 = Some M
           ∧ Torch.shape M = [1; 1; 2; 1; Z.to_nat 2; Z.to_nat 2]%nat.
Proof.
  destruct (tik_reg_of_psd (K:=Z) (H:=Z_Scalar) Zth Examples.signal_1_i
              1%nat 1%nat 2%nat 1%nat 2 10 100 0%nat 0%nat 1%nat 0%nat 0%nat 1%nat)
    as (Rxx & M & H1 & H2 & H3 & _); try reflexivity; try lia.
  by exists Rxx, M.
Defined.

Lemma forward_store_effect_witness :
  ∃ σ' out Y,
    MultiFrame.forward Examples.qjunk
      (MultiFrame.FDF (MultiFrame.DF_train false Examples.df_1_2))
      Examples.qstore 0%nat [1%nat] = Some (σ', out)
    ∧ σ' = <[out := Y]> Examples.qstore
    ∧ out = 0%nat.
Proof.
  assert (Hok : is_Some (MultiFrame.forward Examples.qjunk
                           (MultiFrame.FDF (MultiFrame.DF_train false Examples.df_1_2))
                           Examples.qstore 0%nat [1%nat]))
    by (apply (bool_decide_unpack _); vm_compute; exact I).
  destruct Hok as [[σ' out] E].
  destruct (forward_store_effect Examples.qjunk _ _ _ _ _ _ E)
    as (X & Y & _ & H2 & _ & _ & H3).
  exists σ', out, Y. split; [exact E|]. split; [exact H2|]. exact H3.
Defined.

Lemma forward_raises_outside_frequency_range_witness :
  MultiFrame.DF_init 5 2 0 false
  = Some (MultiFrame.mkDF
            (MultiFrame.mkMultiFrameModule 5 2 false
               (MultiFrame.ConstantPad2d (0, 0, 1, 0)) true 0 true) false)
  ∧ ∀ m mode coefs,
      MultiFrame.DF_init 5 2 0 false = Some m →
      MultiFrame.DF_forward (MultiFrame.DF_train mode m) Examples.qstore 0%nat coefs
      = None.
Proof.
  split; [reflexivity|].
  destruct (forward_raises_outside_frequency_range (K:=Qc) Examples.qjunk
              Examples.qstore 0%nat Examples.qspec 1%nat 1%nat 2%nat 1%nat 5 2 0)
    as [Hdf _]; try reflexivity; try lia.
  intros m mode coefs Hm. by apply (Hdf false).
Defined.

Lemma solve_regularised_system_witness :
  ∃ w, MultiFrame.solve (λ _, Some (Torch.eye 2)) Examples.zero2 Examples.rhs2 0 1
       = Some w
       ∧ Torch.shape w = [2]%nat.
Proof.
  destruct (solve_regularised_system (K:=Z) (H:=Z_Scalar) Zth
              (λ _, Some (Torch.eye 2)) Examples.zero2 Examples.rhs2
              Examples.reg_zero2 (Torch.eye 2) 2%nat 0 1 0%nat)
    as (w & H1 & H2 & _); try reflexivity; try lia.
  { intros p q Hp Hq.
    destruct p as [|[|p]]; [| |lia]; destruct q as [|[|q]]; try lia;
      vm_compute; reflexivity. }
  by exists w.
Defined.

Lemma forward_raises_on_tap_count_witness :
  MultiFrame.DF_forward
    (MultiFrame.DF_train false
       (MultiFrame.mkDF
          (MultiFrame.mkMultiFrameModule 1 3 false
             (MultiFrame.ConstantPad2d (0, 0, 2, 0)) true 0 true)
          false))
    Examples.store0 0%nat 1%nat = None.
Proof.
  destruct (forward_raises_on_tap_count (K:=Z) (λ _, 0) Examples.store0 1%nat
              Examples.taps 1%nat 2%nat 3%nat 1%nat 3%nat 1 0 false)
    as [Hdf _];
    [reflexivity | reflexivity | lia | lia | lia | lia | cbn; lia |].
  by apply Hdf.
Defined.
